(** * A model of the Gremlin client (src/gremlinclient.js)

    The client is a JavaScript object whose methods run to completion on
    one event loop.  Each method is embedded as a function on [World]: the
    fields of [this], the objects the caller shares with the client
    (message overrides, argument bags, bindings), the streams created and
    the listeners the caller has attached to them, and the sequence of
    calls made on the collaborators the file does not define (the
    WebSocket, the client's own event emitter and the MessageStream of
    every command).

    A method ends in an [Outcome]: it returns, or it throws and leaves
    the world as it is at the throw.  What a handler has written before
    it throws stays written, and the next event finds the world so.

    Conventions.
    - A JavaScript string is a Rocq [string]; a character stands for one
      code unit below 256.
    - A property that may be [undefined] is an [option]; [null] is written
      out where the source distinguishes it.
    - A method throws where the source throws a TypeError for reading a
      property of [undefined]; a reference that does not point into the
      heap, which no JavaScript program can build, reads as [undefined].
    - A frame is taken after [JSON.parse], with a status message that
      is a string, a [result.data] that is an array and a status code
      that is an integer of magnitude at most 2^53, which a JavaScript
      number holds exactly and prints in decimal.
    - [this.commands] is a plain object: a name that is not an own
      property is looked up in [Object.prototype].  No command is given
      the request identifier [__proto__], which would replace the
      prototype of the table instead of adding an entry.
    - [ws.send], [this.emit] and [push] on a MessageStream return; [emit]
      of an error on a MessageStream throws when nobody listens.
    - [JSON.stringify] and [uuid.v1] are parameters.  [execute] hands the
      MessageStream to a handler defined elsewhere and is left out, as is
      the [executeHandler] option. *)

From Stdlib Require Import ZArith NArith Ascii String.
From stdpp Require Import base numbers option strings pretty list.

Local Open Scope string_scope.
Local Open Scope Z_scope.
Local Open Scope list_scope.

(** ** Plain objects used as dictionaries

    [this.commands] is an object literal used as a map from request
    identifiers to commands.  Own properties keep their insertion order,
    and [Object.keys] lists the array-index keys first, in ascending
    numeric order, then the other keys in insertion order. *)
Module JsObject.
Section with_values.
Context {V : Type}.

Fixpoint get (k : string) (o : list (string * V)) : option V :=
  match o with
  | [] => None
  | (k', v) :: o' => if decide (k' = k) then Some v else get k o'
  end.

Fixpoint set (k : string) (v : V) (o : list (string * V)) : list (string * V) :=
  match o with
  | [] => [(k, v)]
  | (k', v') :: o' =>
      if decide (k' = k) then (k, v) :: o' else (k', v') :: set k v o'
  end.

Definition delete (k : string) (o : list (string * V)) : list (string * V) :=
  filter (λ kv, kv.1 ≠ k) o.

Definition digit (c : ascii) : option N :=
  let n := N_of_ascii c in
  if ((48 <=? n) && (n <=? 57))%N then Some (n - 48)%N else None.

Fixpoint digits (acc : N) (s : string) : option N :=
  match s with
  | EmptyString => Some acc
  | String c s' => d ← digit c; digits (acc * 10 + d)%N s'
  end.

(** An array index is the canonical decimal numeral of an integer below
    2^32 - 1. *)
Definition array_index (k : string) : option N :=
  n ← digits 0%N k;
  if decide (pretty n = k ∧ (n < 4294967295)%N) then Some n else None.

Fixpoint insert_sorted (x : N * (string * V)) (l : list (N * (string * V)))
    : list (N * (string * V)) :=
  match l with
  | [] => [x]
  | y :: l' => if (x.1 <=? y.1)%N then x :: l else y :: insert_sorted x l'
  end.

Definition indexed (o : list (string * V)) : list (N * (string * V)) :=
  omap (λ kv, n ← array_index kv.1; Some (n, kv)) o.

Definition named (o : list (string * V)) : list (string * V) :=
  filter (λ kv, array_index kv.1 = None) o.

(** The own enumerable properties in [Object.keys] order. *)
Definition entries (o : list (string * V)) : list (string * V) :=
  (foldr insert_sorted [] (indexed o)).*2 ++ named o.

Definition keys (o : list (string * V)) : list string := (entries o).*1.
End with_values.
End JsObject.

(** ** Data *)

(** Values carried in [result.data] and in bindings. *)
#[local] Set Warnings "-register-all".
Inductive Json :=
| JNull
| JBool (b : bool)
| JNumber (n : Z)
| JString (s : string)
| JArray (items : list Json)
| JObject (fields : list (string * Json)).
#[local] Set Warnings "register-all".

(** A reference to an object of the heap. *)
Abbreviation ref := nat (only parsing).

(** The frame a server sends, after [JSON.parse]:
    [{ requestId, status: { code, message }, result: { data } }].  The
    status code is an integer that a JavaScript number holds exactly. *)
Module Frame.
Record t := {
  requestId : option string;
  status_code : Z;
  status_message : string;
  result_data : list Json;
  status_code_safe : bool_decide (Z.abs status_code ≤ 2 ^ 53) = true
}.
End Frame.

(** The argument bag of a request ([message.args]). *)
Module Args.
Record t := {
  gremlin : option string;
  bindings : option ref;
  accept : option string;
  language : option string;
  binary : option bool;
  session : option string
}.
Definition empty : t := Build_t None None None None None None.
End Args.

(** The request sent to the server, which is also the object of message
    overrides a caller passes in. *)
Module Message.
Record t := {
  requestId : option string;
  processor : option string;
  op : option string;
  args : option ref
}.
Definition empty : t := Build_t None None None None.
End Message.

Module Options.
Record t := {
  path : string;
  language : string;
  session : bool;
  op : string;
  processor : string;
  accept : string;
  ssl : bool;
  rejectUnauthorized : bool
}.
(** The defaults of the constructor. *)
Definition defaults : t :=
  Build_t "" "gremlin-groovy" false "eval" "" "application/json" false false.
End Options.

(** A MessageStream is known by the order of its creation. *)
Abbreviation StreamId := nat (only parsing).

Module Command.
Record t := {
  message : ref;
  messageStream : StreamId
}.
End Command.

(** The payload of the close event handed to [ws.onclose]. *)
Record CloseEvent := {
  close_code : Z;
  close_reason : string;
  wasClean : bool
}.

(** [new Error(message)], with the [details] property that
    cancelPendingCommands adds. *)
Record Error := {
  error_message : string;
  error_details : option CloseEvent
}.

(** What [ws.send] is given: a string, or a Uint8Array. *)
Inductive Payload :=
| Text (s : string)
| Binary (bytes : list Z).

(** Calls on the collaborators, in the order they are made. *)
Inductive Event :=
| ws_open (url : string) (rejectUnauthorized : bool)
| ws_send (data : Payload)
| client_emit (name : string)
| stream_push (s : StreamId) (chunk : option Frame.t)
| stream_emit_error (s : StreamId) (e : Error).

Record World := {
  (* objects shared with the caller *)
  messages : list Message.t;
  argbags : list Args.t;
  bindingsObjects : list (list (string * Json));
  (* MessageStream objects created; those that [stream] piped through a
     pipeline; those whose consumer listens for 'error' *)
  streams : nat;
  pipes : list StreamId;
  listened : list StreamId;
  (* uuid.v1() calls made *)
  uuids : nat;
  (* this.* *)
  options : Options.t;
  useSession : bool;
  sessionId : option string;
  connected : bool;
  queue : list Command.t;
  commands : list (string * Command.t);
  lastAuthenticationReqId : option (option string);
  (* calls made so far *)
  trace : list Event
}.

Definition set_messages (x : list Message.t) (w : World) : World :=
  Build_World x (argbags w) (bindingsObjects w) (streams w) (pipes w)
    (listened w) (uuids w) (options w) (useSession w) (sessionId w)
    (connected w) (queue w) (commands w) (lastAuthenticationReqId w) (trace w).

Definition set_argbags (x : list Args.t) (w : World) : World :=
  Build_World (messages w) x (bindingsObjects w) (streams w) (pipes w)
    (listened w) (uuids w) (options w) (useSession w) (sessionId w)
    (connected w) (queue w) (commands w) (lastAuthenticationReqId w) (trace w).

Definition set_bindingsObjects (x : list (list (string * Json))) (w : World) : World :=
  Build_World (messages w) (argbags w) x (streams w) (pipes w) (listened w)
    (uuids w) (options w) (useSession w) (sessionId w) (connected w) (queue w)
    (commands w) (lastAuthenticationReqId w) (trace w).

Definition set_streams (x : nat) (w : World) : World :=
  Build_World (messages w) (argbags w) (bindingsObjects w) x (pipes w)
    (listened w) (uuids w) (options w) (useSession w) (sessionId w)
    (connected w) (queue w) (commands w) (lastAuthenticationReqId w) (trace w).

Definition set_pipes (x : list StreamId) (w : World) : World :=
  Build_World (messages w) (argbags w) (bindingsObjects w) (streams w) x
    (listened w) (uuids w) (options w) (useSession w) (sessionId w)
    (connected w) (queue w) (commands w) (lastAuthenticationReqId w) (trace w).

Definition set_listened (x : list StreamId) (w : World) : World :=
  Build_World (messages w) (argbags w) (bindingsObjects w) (streams w)
    (pipes w) x (uuids w) (options w) (useSession w) (sessionId w)
    (connected w) (queue w) (commands w) (lastAuthenticationReqId w) (trace w).

Definition set_uuids (x : nat) (w : World) : World :=
  Build_World (messages w) (argbags w) (bindingsObjects w) (streams w)
    (pipes w) (listened w) x (options w) (useSession w) (sessionId w)
    (connected w) (queue w) (commands w) (lastAuthenticationReqId w) (trace w).

Definition set_options (x : Options.t) (w : World) : World :=
  Build_World (messages w) (argbags w) (bindingsObjects w) (streams w)
    (pipes w) (listened w) (uuids w) x (useSession w) (sessionId w)
    (connected w) (queue w) (commands w) (lastAuthenticationReqId w) (trace w).

Definition set_useSession (x : bool) (w : World) : World :=
  Build_World (messages w) (argbags w) (bindingsObjects w) (streams w)
    (pipes w) (listened w) (uuids w) (options w) x (sessionId w) (connected w)
    (queue w) (commands w) (lastAuthenticationReqId w) (trace w).

Definition set_sessionId (x : option string) (w : World) : World :=
  Build_World (messages w) (argbags w) (bindingsObjects w) (streams w)
    (pipes w) (listened w) (uuids w) (options w) (useSession w) x
    (connected w) (queue w) (commands w) (lastAuthenticationReqId w) (trace w).

Definition set_connected (x : bool) (w : World) : World :=
  Build_World (messages w) (argbags w) (bindingsObjects w) (streams w)
    (pipes w) (listened w) (uuids w) (options w) (useSession w) (sessionId w)
    x (queue w) (commands w) (lastAuthenticationReqId w) (trace w).

Definition set_queue (x : list Command.t) (w : World) : World :=
  Build_World (messages w) (argbags w) (bindingsObjects w) (streams w)
    (pipes w) (listened w) (uuids w) (options w) (useSession w) (sessionId w)
    (connected w) x (commands w) (lastAuthenticationReqId w) (trace w).

Definition set_commands (x : list (string * Command.t)) (w : World) : World :=
  Build_World (messages w) (argbags w) (bindingsObjects w) (streams w)
    (pipes w) (listened w) (uuids w) (options w) (useSession w) (sessionId w)
    (connected w) (queue w) x (lastAuthenticationReqId w) (trace w).

Definition set_lastAuthenticationReqId (x : option (option string)) (w : World) : World :=
  Build_World (messages w) (argbags w) (bindingsObjects w) (streams w)
    (pipes w) (listened w) (uuids w) (options w) (useSession w) (sessionId w)
    (connected w) (queue w) (commands w) x (trace w).

(** One more call on a collaborator. *)
Definition call (e : Event) (w : World) : World :=
  Build_World (messages w) (argbags w) (bindingsObjects w) (streams w)
    (pipes w) (listened w) (uuids w) (options w) (useSession w) (sessionId w)
    (connected w) (queue w) (commands w) (lastAuthenticationReqId w)
    (trace w ++ [e]).

(** Several calls in a row. *)
Definition calls (events : list Event) (w : World) : World :=
  foldl (λ w e, call e w) w events.

(** ** How a method ends *)

(** A method returns a value, or throws and leaves the world [w]. *)
Inductive Outcome (A : Type) : Type :=
| returns (a : A)
| throws (w : World).
Arguments returns {A} a.
Arguments throws {A} w.

#[global] Instance Outcome_ret : MRet Outcome := λ A, returns.

#[global] Instance Outcome_bind : MBind Outcome :=
  λ A B f o, match o with returns a => f a | throws w => throws w end.

#[global] Instance Outcome_fmap : FMap Outcome :=
  λ A B f o, match o with returns a => returns (f a) | throws w => throws w end.

(** The world a handler leaves, whether it returns or throws. *)
Definition left_by (o : Outcome World) : World :=
  match o with returns w | throws w => w end.

(** What a method returns, if it does. *)
Definition returned {A : Type} (o : Outcome A) : option A :=
  match o with returns a => Some a | throws _ => None end.

(** Reading a property of [value]: a TypeError when it is undefined. *)
Definition defined {A : Type} (value : option A) (w : World) : Outcome A :=
  match value with Some a => returns a | None => throws w end.

(** [array.forEach(callback)]; a callback that throws ends the walk. *)
Fixpoint forEach {A : Type} (callback : A → World → Outcome World)
    (array : list A) (w : World) : Outcome World :=
  match array with
  | [] => returns w
  | x :: rest => w' ← callback x w; forEach callback rest w'
  end.

(** ** MessageStream

    Modelled from the spec: the MessageStream of ./messagestream, which is
    not under src/, is the Result Sink of the spec, an object-mode
    readable stream of Node: [push] appends a frame or, with null, ends
    the stream, and [emit] is the one of EventEmitter, which throws the
    error when no listener for 'error' is attached.  The listener that
    [stream] attaches emits the error again on the pipeline, so that on
    either kind of stream the call returns when the consumer of the
    stream listens for 'error' and throws otherwise. *)
Definition emit_error (s : StreamId) (e : Error) (w : World) : Outcome World :=
  let w := call (stream_emit_error s e) w in
  if decide (s ∈ listened w) then returns w else throws w.

(** The names [Object.prototype] answers for: every object literal
    inherits them, with values that are neither undefined nor null. *)
Definition Object_prototype : list string :=
  ["constructor"; "__defineGetter__"; "__defineSetter__"; "hasOwnProperty";
   "__lookupGetter__"; "__lookupSetter__"; "isPrototypeOf";
   "propertyIsEnumerable"; "toString"; "valueOf"; "__proto__";
   "toLocaleString"].

(** The key a value denotes in [object[value]]: [undefined] reads the
    property named "undefined". *)
Definition property_key (v : option string) : string :=
  default "undefined" v.

(** ** Response dispatch *)

(** The body of handleMessage from the table lookup on, for the chosen
    [requestId].  A name that is no own property of the table but one of
    [Object.prototype] finds the inherited value: it passes the guard, it
    has no [messageStream], deleting it changes nothing and the call on
    the stream is a TypeError. *)
Definition dispatch (requestId : option string) (rawMessage : Frame.t)
    (w : World) : Outcome World :=
  match JsObject.get (property_key requestId) (commands w) with
  | None =>
      if decide (property_key requestId ∈ Object_prototype)
      then throws w
      else returns w
  | Some command =>
      let statusCode := Frame.status_code rawMessage in
      let messageStream := Command.messageStream command in
      let removed :=
        set_commands (JsObject.delete (property_key requestId) (commands w)) w in
      if decide (statusCode = 200) then
        returns (call (stream_push messageStream None)
                   (call (stream_push messageStream (Some rawMessage)) removed))
      else if decide (statusCode = 204) then
        returns (call (stream_push messageStream None) removed)
      else if decide (statusCode = 206) then
        returns (call (stream_push messageStream (Some rawMessage)) w)
      else
        emit_error messageStream
          {| error_message :=
               Frame.status_message rawMessage +:+ " (Error "
                 +:+ pretty statusCode +:+ ")";
             error_details := None |}
          removed
  end.

Definition handleMessage (rawMessage : Frame.t) (w : World) : Outcome World :=
  match lastAuthenticationReqId w with
  | Some requestId =>
      dispatch requestId rawMessage (set_lastAuthenticationReqId None w)
  | None =>
      dispatch (Frame.requestId rawMessage) rawMessage w
  end.

(** ** Disconnection *)

Module Reason.
Record t := {
  message : string;
  details : CloseEvent
}.
End Reason.

Definition cancelPendingCommands (reason : Reason.t) (w : World)
    : Outcome World :=
  let commands := commands w in
  let error := {| error_message := Reason.message reason;
                  error_details := Some (Reason.details reason) |} in
  (* Empty queue *)
  let w := set_queue [] w in
  let w := set_commands [] w in
  forEach (λ key w,
             command ← defined (JsObject.get key commands) w;
             emit_error (Command.messageStream command) error w)
          (JsObject.keys commands) w.

Definition handleDisconnection (event : CloseEvent) (w : World) : Outcome World :=
  cancelPendingCommands
    {| Reason.message := "WebSocket closed"; Reason.details := event |} w.

(** ** Strings *)

(** The string a value becomes under [+]. *)
Definition to_string (v : option string) : string := default "undefined" v.

(** [a || b] on a string that may be undefined: the empty string is falsy. *)
Definition or_else (a : option string) (b : string) : string :=
  match a with
  | Some s => if decide (s = "") then b else s
  | None => b
  end.

Fixpoint indexOf_from (i : Z) (c : ascii) (s : string) : Z :=
  match s with
  | EmptyString => -1
  | String c' s' => if decide (c' = c) then i else indexOf_from (i + 1) c s'
  end.

Definition indexOf (c : ascii) (s : string) : Z := indexOf_from 0 c s.

Fixpoint lastIndexOf_from (i last : Z) (c : ascii) (s : string) : Z :=
  match s with
  | EmptyString => last
  | String c' s' =>
      lastIndexOf_from (i + 1) (if decide (c' = c) then i else last) c s'
  end.

Definition lastIndexOf (c : ascii) (s : string) : Z := lastIndexOf_from 0 (-1) c s.

(** [s.substring(from, to)]: both ends are clamped to the string and
    swapped when they come in the wrong order. *)
Definition substring (from to : Z) (s : string) : string :=
  let len := Z.of_nat (String.length s) in
  let a := Z.max 0 (Z.min from len) in
  let b := Z.max 0 (Z.min to len) in
  String.substring (Z.to_nat (Z.min a b)) (Z.to_nat (Z.max a b - Z.min a b)) s.

(** [s.charCodeAt(i)]; out of range it is NaN, which a Uint8Array stores
    as 0. *)
Definition charCodeAt (i : nat) (s : string) : Z :=
  match String.get i s with
  | Some c => Z.of_N (N_of_ascii c)
  | None => 0
  end.

(** [unescape(encodeURIComponent(s))]: every code unit is replaced by the
    bytes of its UTF-8 encoding, one character per byte. *)
Fixpoint unescape_encodeURIComponent (s : string) : string :=
  match s with
  | EmptyString => EmptyString
  | String c s' =>
      let n := N_of_ascii c in
      if (n <? 128)%N then String c (unescape_encodeURIComponent s')
      else String (ascii_of_N (192 + n / 64))
             (String (ascii_of_N (128 + n mod 64))
                (unescape_encodeURIComponent s'))
  end.

(** The character codes of a string. *)
Definition charCodes (s : string) : list Z :=
  (λ c, Z.of_N (N_of_ascii c)) <$> list_ascii_of_string s.

(** Get the inner function body from a function.toString() representation. *)
Definition extractFunctionBody (fn : string) : string :=
  let body := fn in
  substring (indexOf "{" body + 1) (lastIndexOf "}" body) body.

(** ** The client *)

(** What [JSON.stringify(message)] reads: the message, its argument bag
    and the bindings object the bag points to. *)
Record MessageGraph := {
  graph_message : Message.t;
  graph_args : option Args.t;
  graph_bindings : option (list (string * Json))
}.

Definition reach (message : ref) (w : World) : option MessageGraph :=
  msg ← messages w !! message;
  match Message.args msg with
  | None => Some (Build_MessageGraph msg None None)
  | Some a =>
      bag ← argbags w !! a;
      match Args.bindings bag with
      | None => Some (Build_MessageGraph msg (Some bag) None)
      | Some b =>
          obj ← bindingsObjects w !! b;
          Some (Build_MessageGraph msg (Some bag) (Some obj))
      end
  end.

(** [_.defaults(destination, source)] of lodash: every property of the
    destination that is undefined takes the value of the source; the
    destination object itself is updated and returned. *)
Definition defaults_of {A : Type} (destination source : option A) : option A :=
  match destination with
  | Some _ => destination
  | None => source
  end.

Definition defaults_args (destination source : Args.t) : Args.t :=
  {| Args.gremlin := defaults_of (Args.gremlin destination) (Args.gremlin source);
     Args.bindings := defaults_of (Args.bindings destination) (Args.bindings source);
     Args.accept := defaults_of (Args.accept destination) (Args.accept source);
     Args.language := defaults_of (Args.language destination) (Args.language source);
     Args.binary := defaults_of (Args.binary destination) (Args.binary source);
     Args.session := defaults_of (Args.session destination) (Args.session source) |}.

Definition defaults_message (destination source : Message.t) : Message.t :=
  {| Message.requestId :=
       defaults_of (Message.requestId destination) (Message.requestId source);
     Message.processor :=
       defaults_of (Message.processor destination) (Message.processor source);
     Message.op := defaults_of (Message.op destination) (Message.op source);
     Message.args := defaults_of (Message.args destination) (Message.args source) |}.

Inductive Script :=
| ScriptText (source : string)
| ScriptFunction (toString : string).

Section client.

(** The token the n-th call of [uuid.v1()] returns, and [JSON.stringify]
    on a message. *)
Variable uuid_v1 : nat → string.
Variable JSON_stringify : MessageGraph → string.

Definition GremlinClient (port : option N) (host : option string)
    (options : Options.t) : World :=
  let port := match port with Some 0%N | None => 8182%N | Some p => p end in
  let host := or_else host "localhost" in
  let useSession := Options.session options in
  let protocol := if Options.ssl options then "wss://" else "ws://" in
  {| messages := []; argbags := []; bindingsObjects := [];
     streams := 0; pipes := []; listened := [];
     uuids := if useSession then 1 else 0;
     options := options;
     useSession := useSession;
     sessionId := if useSession then Some (uuid_v1 0) else None;
     connected := false;
     queue := [];
     commands := [];
     lastAuthenticationReqId := None;
     trace := [ws_open (protocol +:+ host +:+ ":" +:+ pretty port
                          +:+ Options.path options)
                       (Options.rejectUnauthorized options)] |}.

Definition packMessageToBinary (message : ref) (w : World) : option (list Z) :=
  msg ← messages w !! message;
  a ← Message.args msg;
  bag ← argbags w !! a;
  graph ← reach message w;
  let serializedMessage := to_string (Args.accept bag) +:+ JSON_stringify graph in
  let serializedMessage := unescape_encodeURIComponent serializedMessage in
  (* mimeLength(1) + mimeType Length + serializedMessage Length *)
  let binaryMessage := replicate (1 + String.length serializedMessage) 0 in
  let binaryMessage :=
    <[0%nat := Z.of_nat (String.length (Options.accept (options w))) mod 256]>
      binaryMessage in
  Some (foldl (λ binaryMessage i,
                 <[(i + 1)%nat := charCodeAt i serializedMessage mod 256]> binaryMessage)
              binaryMessage (seq 0 (String.length serializedMessage))).

(** The value sendMessage hands to [ws.send]. *)
Definition formatedMessage (message : ref) (w : World) : option Payload :=
  msg ← messages w !! message;
  a ← Message.args msg;
  bag ← argbags w !! a;
  if decide (Args.binary bag = Some true)
  then Binary <$> packMessageToBinary message w
  else Text <$> (JSON_stringify <$> reach message w).

(** [formatedMessage] is undefined where [message.args.binary] or
    [message.args.accept] reads a property of undefined. *)
Definition sendMessage (message : ref) (w : World) : Outcome World :=
  data ← defined (formatedMessage message w) w;
  returns (call (ws_send data) w).

(** The turns of the loop of executeQueue while the queue is [pending]:
    a turn shifts the first command off the queue and sends its message,
    which leaves the queue alone, so that the next turn finds the rest. *)
Fixpoint executeQueue_loop (pending : list Command.t) (w : World)
    : Outcome World :=
  match pending with
  | [] => returns w
  | command :: rest =>
      w' ← sendMessage (Command.message command) (set_queue rest w);
      executeQueue_loop rest w'
  end.

Definition executeQueue (w : World) : Outcome World :=
  executeQueue_loop (queue w) w.

Definition onConnectionOpen (w : World) : Outcome World :=
  let w := set_connected true w in
  let w := call (client_emit "connect") w in
  executeQueue w.

(** [bindings = bindings || {}] *)
Definition bindings_or_new (bindings : option ref) (w : World) : ref * World :=
  match bindings with
  | Some b => (b, w)
  | None => (length (bindingsObjects w),
             set_bindingsObjects (bindingsObjects w ++ [[]]) w)
  end.

(** [var args = _.defaults(message && message.args || {}, {...})]: the
    argument bag of the overrides when there is one, a new object
    otherwise, filled in place. *)
Definition defaults_for_args (script : string) (bindings : ref)
    (message : option ref) (w : World) : option (ref * World) :=
  given ← match message with
          | Some m => Message.args <$> messages w !! m
          | None => Some None
          end;
  let '(args, w) :=
    match given with
    | Some a => (a, w)
    | None => (length (argbags w), set_argbags (argbags w ++ [Args.empty]) w)
    end in
  bag ← argbags w !! args;
  let bag :=
    defaults_args bag
      {| Args.gremlin := Some script;
         Args.bindings := Some bindings;
         Args.accept := Some (Options.accept (options w));
         Args.language := Some (Options.language (options w));
         Args.binary := Some false;
         Args.session := None |} in
  Some (args, set_argbags (<[args := bag]> (argbags w)) w).

(** [message = _.defaults(message || {}, {...})]: the overrides when
    there are some, a new object otherwise, filled in place. *)
Definition defaults_for_message (guid : string) (args : ref)
    (message : option ref) (w : World) : option (ref * World) :=
  let '(message, w) :=
    match message with
    | Some m => (m, w)
    | None => (length (messages w), set_messages (messages w ++ [Message.empty]) w)
    end in
  msg ← messages w !! message;
  let msg :=
    defaults_message msg
      {| Message.requestId := Some guid;
         Message.processor := Some (Options.processor (options w));
         Message.op := Some (Options.op (options w));
         Message.args := Some args |} in
  Some (message, set_messages (<[message := msg]> (messages w)) w).

(** The body of [if (this.useSession)]. *)
Definition session_of (message : ref) (w : World) : option World :=
  msg ← messages w !! message;
  (* Assume that people want to use the 'session' processor unless specified *)
  let processor :=
    or_else (Some (or_else (Message.processor msg) (Options.processor (options w))))
            "session" in
  let msg := {| Message.requestId := Message.requestId msg;
                Message.processor := Some processor;
                Message.op := Message.op msg;
                Message.args := Message.args msg |} in
  let w := set_messages (<[message := msg]> (messages w)) w in
  a ← Message.args msg;
  bag ← argbags w !! a;
  let bag := {| Args.gremlin := Args.gremlin bag;
                Args.bindings := Args.bindings bag;
                Args.accept := Args.accept bag;
                Args.language := Args.language bag;
                Args.binary := Args.binary bag;
                Args.session := sessionId w |} in
  Some (set_argbags (<[a := bag]> (argbags w)) w).

Definition buildCommand (script : Script) (bindings : option ref)
    (message : option ref) (w : World) : option (Command.t * World) :=
  let script :=
    match script with
    | ScriptFunction fn => extractFunctionBody fn
    | ScriptText source => source
    end in
  let '(bindings, w) := bindings_or_new bindings w in
  let messageStream := streams w in
  let w := set_streams (S (streams w)) w in
  let guid := uuid_v1 (uuids w) in
  let w := set_uuids (S (uuids w)) w in
  '(args, w) ← defaults_for_args script bindings message w;
  '(message, w) ← defaults_for_message guid args message w;
  let command := {| Command.message := message;
                    Command.messageStream := messageStream |} in
  if useSession w then
    w ← session_of message w;
    Some (command, w)
  else
    Some (command, w).

Definition sendCommand (command : Command.t) (w : World) : Outcome World :=
  msg ← defined (messages w !! Command.message command) w;
  let requestId := Message.requestId msg in
  (* this.commands[requestId] = command: an own property is added or
     replaced *)
  let w := set_commands (JsObject.set (property_key requestId) command (commands w)) w in
  let w :=
    if decide (Message.op msg = Some "authentication")
    then set_lastAuthenticationReqId (Some requestId) w
    else w in
  if connected w then sendMessage (Command.message command) w
  else returns (set_queue (queue w ++ [command]) w).

Definition messageStream (script : Script) (bindings : option ref)
    (message : option ref) (w : World) : Outcome (StreamId * World) :=
  '(command, w) ← defined (buildCommand script bindings message w) w;
  w ← sendCommand command w;
  returns (Command.messageStream command, w).

(** *** Incremental results

    Modelled from the spec: Highland and the [pipe] of Node are not under
    src/.  A Highland transform answers each value written to it with
    the values it passes on: [map] applies its function, [sequence]
    passes on the elements of each array it is written, [pipeline]
    composes, and [pipe] writes to the pipeline every frame pushed to
    the MessageStream, in order, and ends it when the MessageStream
    ends. *)
Definition Transform (A B : Type) := A → list B.

Definition highland_map {A B : Type} (f : A → B) : Transform A B :=
  λ x, [f x].

Definition highland_sequence {A : Type} : Transform (list A) A :=
  λ xs, xs.

Definition highland_pipeline {A B C : Type}
    (first : Transform A B) (second : Transform B C) : Transform A C :=
  λ x, foldl (λ out y, (out ++ second y)%list) [] (first x).

Definition through : Transform Frame.t Json :=
  highland_pipeline
    (highland_map (λ message, Frame.result_data message))
    highland_sequence.

(** What a stream handed to the caller emits: a value or, on a
    MessageStream itself, a frame; its end; an error. *)
Inductive Consumer :=
| consumer_data (value : Json)
| consumer_frame (frame : Frame.t)
| consumer_end
| consumer_error (e : Error).

(** [new Error(e)] for an error [e]: the message is [String(e)]. *)
Definition rewrap (e : Error) : Error :=
  {| error_message :=
       if decide (error_message e = "") then "Error"
       else "Error: " +:+ error_message e;
     error_details := None |}.

(** What the pipeline of MessageStream [s] emits at a call. *)
Definition observe (s : StreamId) (seen : list Consumer) (e : Event)
    : list Consumer :=
  match e with
  | stream_push s' (Some frame) =>
      if decide (s' = s) then (seen ++ (consumer_data <$> through frame))%list else seen
  | stream_push s' None =>
      if decide (s' = s) then (seen ++ [consumer_end])%list else seen
  | stream_emit_error s' e =>
      if decide (s' = s) then (seen ++ [consumer_error (rewrap e)])%list else seen
  | _ => seen
  end.

(** The events on the pipeline of MessageStream [s], after the calls of
    [calls]. *)
Definition consumer_events (s : StreamId) (calls : list Event) : list Consumer :=
  foldl (observe s) [] calls.

(** What MessageStream [s] itself emits at a call. *)
Definition observe_raw (s : StreamId) (seen : list Consumer) (e : Event)
    : list Consumer :=
  match e with
  | stream_push s' (Some frame) =>
      if decide (s' = s) then (seen ++ [consumer_frame frame])%list else seen
  | stream_push s' None =>
      if decide (s' = s) then (seen ++ [consumer_end])%list else seen
  | stream_emit_error s' e =>
      if decide (s' = s) then (seen ++ [consumer_error e])%list else seen
  | _ => seen
  end.

Definition raw_events (s : StreamId) (calls : list Event) : list Consumer :=
  foldl (observe_raw s) [] calls.

(** [stream] returns the pipeline; it is known by the MessageStream that
    is piped into it. *)
Definition stream (script : Script) (bindings : option ref)
    (message : option ref) (w : World) : Outcome (StreamId * World) :=
  '(messageStream, w) ← messageStream script bindings message w;
  (* through = _.pipeline(_.map(...), _.sequence());
     stream = messageStream.pipe(through);
     messageStream.on('error', e => stream.emit('error', new Error(e))) *)
  returns (messageStream, set_pipes (pipes w ++ [messageStream]) w).

End client.

(** What the stream handed to the caller for MessageStream [s] has
    emitted: what came out of the pipeline for a stream that [stream]
    returned, the frames themselves for one that [messageStream]
    returned. *)
Definition emitted (s : StreamId) (w : World) : list Consumer :=
  if decide (s ∈ pipes w) then consumer_events s (trace w)
  else raw_events s (trace w).

(** The frames pushed to MessageStream [s] by the calls of [calls]. *)
Definition pushed (s : StreamId) (calls : list Event) : list Frame.t :=
  omap (λ e, match e with
             | stream_push s' (Some frame) =>
                 if decide (s' = s) then Some frame else None
             | _ => None
             end) calls.

(** The values among the events of a stream, one per data event. *)
Definition values (events : list Consumer) : list Json :=
  omap (λ c, match c with consumer_data v => Some v | _ => None end) events.

(** The frames among the events of a stream, one per frame event. *)
Definition frames_of (events : list Consumer) : list Frame.t :=
  omap (λ c, match c with consumer_frame frame => Some frame | _ => None end)
       events.

(** The fields of [this] and the calls made are the same in both worlds. *)
Definition same_client (w w' : World) : Prop :=
  options w' = options w ∧ useSession w' = useSession w ∧
  sessionId w' = sessionId w ∧ connected w' = connected w ∧
  queue w' = queue w ∧ commands w' = commands w ∧
  lastAuthenticationReqId w' = lastAuthenticationReqId w ∧
  trace w' = trace w.

(** The objects shared with the caller, the streams, the tokens and the
    session are the same in both worlds. *)
Definition same_objects (w w' : World) : Prop :=
  messages w' = messages w ∧ argbags w' = argbags w ∧
  bindingsObjects w' = bindingsObjects w ∧
  streams w' = streams w ∧ pipes w' = pipes w ∧ listened w' = listened w ∧
  uuids w' = uuids w ∧ options w' = options w ∧
  useSession w' = useSession w ∧ sessionId w' = sessionId w.

(** The object of message overrides the caller handed in, if any. *)
Definition overrides (message : option ref) (w : World) : option Message.t :=
  m ← message; messages w !! m.

(** The table has one entry per key, as every object has. *)
Definition keys_unique (w : World) : Prop := NoDup (commands w).*1.

(** ** A generator, a serialiser and a caller for the examples *)
Module Sample.

Definition uuid_v1 (n : nat) : string := "uuid-" +:+ pretty n.

Definition quote : string := String "034"%char EmptyString.

Fixpoint escaped (s : string) : string :=
  match s with
  | EmptyString => EmptyString
  | String c s' =>
      if decide (c = "034"%char ∨ c = "\"%char)
      then String "\"%char (String c (escaped s'))
      else String c (escaped s')
  end.

Definition text (s : string) : string := quote +:+ escaped s +:+ quote.

Fixpoint joined (parts : list string) : string :=
  match parts with
  | [] => ""
  | [part] => part
  | part :: parts' => part +:+ "," +:+ joined parts'
  end.

(** An object literal; a property that is undefined is left out. *)
Definition object (properties : list (string * option string)) : string :=
  "{" +:+ joined (omap (λ kv, (λ v, text kv.1 +:+ ":" +:+ v) <$> kv.2) properties)
      +:+ "}".

Fixpoint value (v : Json) : string :=
  match v with
  | JNull => "null"
  | JBool b => if b then "true" else "false"
  | JNumber n => pretty n
  | JString s => text s
  | JArray items => "[" +:+ joined (map value items) +:+ "]"
  | JObject fields =>
      "{" +:+ joined (map (λ kv, text kv.1 +:+ ":" +:+ value kv.2) fields) +:+ "}"
  end.

(** [JSON.stringify] of a message whose properties were created in the
    order in which buildCommand fills an empty object. *)
Definition JSON_stringify (graph : MessageGraph) : string :=
  let msg := graph_message graph in
  object
    [("requestId", text <$> Message.requestId msg);
     ("processor", text <$> Message.processor msg);
     ("op", text <$> Message.op msg);
     ("args",
      (λ bag,
         object
           [("gremlin", text <$> Args.gremlin bag);
            ("bindings", (λ obj, value (JObject obj)) <$> graph_bindings graph);
            ("accept", text <$> Args.accept bag);
            ("language", text <$> Args.language bag);
            ("binary", (λ b : bool, if b then "true" else "false") <$> Args.binary bag);
            ("session", text <$> Args.session bag)])
        <$> graph_args graph)].

(** The caller creates an object of message overrides, or an argument bag. *)
Definition new_message (m : Message.t) (w : World) : ref * World :=
  (length (messages w), set_messages (messages w ++ [m]) w).

Definition new_args (a : Args.t) (w : World) : ref * World :=
  (length (argbags w), set_argbags (argbags w ++ [a]) w).

Definition client : World := GremlinClient uuid_v1 None None Options.defaults.

Definition submit (script : string) (message : option ref) (w : World)
    : Outcome World :=
  snd <$> messageStream uuid_v1 JSON_stringify (ScriptText script) None message w.

Definition closing : CloseEvent :=
  {| close_code := 1006; close_reason := ""; wasClean := false |}.

(** One script submitted before the connection opens. *)
Definition pending : Outcome World := submit "1+1" None client.

(** The answer of the server to the first request. *)
Definition success : Frame.t :=
  {| Frame.requestId := Some "uuid-0";
     Frame.status_code := 200;
     Frame.status_message := "";
     Frame.result_data := [JNumber 2];
     Frame.status_code_safe := eq_refl |}.

(** An authentication request built from message overrides that set the
    operation, the caller's usual way to answer a challenge. *)
Definition authentication : option (Command.t * World) :=
  let override := {| Message.requestId := None; Message.processor := None;
                     Message.op := Some "authentication"; Message.args := None |} in
  let '(m, w) := new_message override client in
  buildCommand uuid_v1 (ScriptText "") None (Some m) w.

(** The connection opens and then closes. *)
Definition closed_after_open : Outcome World :=
  w ← onConnectionOpen JSON_stringify client;
  handleDisconnection closing w.

(** A request for a binary frame whose argument bag names its own
    accept type. *)
Definition binary_plain : option (Command.t * World) :=
  let bag := {| Args.gremlin := None; Args.bindings := None;
                Args.accept := Some "text/plain"; Args.language := None;
                Args.binary := Some true; Args.session := None |} in
  let '(a, w) := new_args bag client in
  let override := {| Message.requestId := None; Message.processor := None;
                     Message.op := None; Message.args := Some a |} in
  let '(m, w) := new_message override w in
  buildCommand uuid_v1 (ScriptText "g.V()") None (Some m) w.

(** The caller creates two objects of overrides that both set the request
    identifier to "r". *)
Definition two_overrides : ref * ref * World :=
  let override := {| Message.requestId := Some "r"; Message.processor := None;
                     Message.op := None; Message.args := None |} in
  let '(first, w) := new_message override client in
  let '(second, w) := new_message override w in
  (first, second, w).

(** The caller creates overrides that carry an argument bag of their own. *)
Definition overrides_with_args : ref * ref * World :=
  let bag := {| Args.gremlin := None; Args.bindings := None;
                Args.accept := None; Args.language := None;
                Args.binary := Some true; Args.session := None |} in
  let '(a, w) := new_args bag client in
  let override := {| Message.requestId := None; Message.processor := None;
                     Message.op := None; Message.args := Some a |} in
  let '(m, w) := new_message override w in
  (m, a, w).

End Sample.

(** ** Runs of the client *)

(** The MessageStream a call is made on. *)
Definition event_stream (e : Event) : option nat :=
  match e with
  | stream_push s _ | stream_emit_error s _ => Some s
  | _ => None
  end.

(** A call that ends a MessageStream: the push of null, or an error. *)
Definition terminal (e : Event) : bool :=
  match e with
  | stream_push _ None | stream_emit_error _ _ => true
  | _ => false
  end.

(** One of the calls has ended the MessageStream [s]. *)
Definition ended (s : nat) (calls : list Event) : Prop :=
  ∃ e, e ∈ calls ∧ terminal e = true ∧ event_stream e = Some s.

(** Every call on a MessageStream is made before the stream is ended. *)
Definition orderly (calls : list Event) : Prop :=
  ∀ before e after s,
    calls = before ++ e :: after → event_stream e = Some s → ¬ ended s before.

(** Frames handled one after the other, as long as the handler returns. *)
Fixpoint handleMessages (frames : list Frame.t) (w : World) : Outcome World :=
  match frames with
  | [] => returns w
  | rawMessage :: frames' =>
      w' ← handleMessage rawMessage w; handleMessages frames' w'
  end.

(** Frames handled one after the other, whether the handler returns or
    throws: the socket delivers the next frame all the same. *)
Definition delivered (frames : list Frame.t) (w : World) : World :=
  foldl (λ w rawMessage, left_by (handleMessage rawMessage w)) w frames.

(** A string of code units below 128. *)
Fixpoint seven_bit (s : string) : bool :=
  match s with
  | EmptyString => true
  | String c s' => (N_of_ascii c <? 128)%N && seven_bit s'
  end.

(** What happens to a client: the caller creates or updates an object,
    listens for the errors of a stream it was handed, calls a method,
    or the socket reports an event. *)
Inductive Action :=
| caller_creates_message (m : Message.t)
| caller_creates_args (a : Args.t)
| caller_creates_bindings (b : list (string * Json))
| caller_writes_message (r : ref) (m : Message.t)
| caller_writes_args (r : ref) (a : Args.t)
| caller_writes_bindings (r : ref) (b : list (string * Json))
| caller_listens (s : StreamId)
| caller_calls_buildCommand (script : Script) (bindings message : option ref)
| caller_calls_messageStream (script : Script) (bindings message : option ref)
| caller_calls_stream (script : Script) (bindings message : option ref)
| socket_opens
| socket_delivers (rawMessage : Frame.t)
| socket_closes (event : CloseEvent).

Section runs.
Variable uuid_v1 : nat → string.
Variable JSON_stringify : MessageGraph → string.

Definition perform (a : Action) (w : World) : Outcome World :=
  match a with
  | caller_creates_message m => returns (set_messages (messages w ++ [m]) w)
  | caller_creates_args a => returns (set_argbags (argbags w ++ [a]) w)
  | caller_creates_bindings b =>
      returns (set_bindingsObjects (bindingsObjects w ++ [b]) w)
  | caller_writes_message r m =>
      returns (set_messages (<[r := m]> (messages w)) w)
  | caller_writes_args r a => returns (set_argbags (<[r := a]> (argbags w)) w)
  | caller_writes_bindings r b =>
      returns (set_bindingsObjects (<[r := b]> (bindingsObjects w)) w)
  | caller_listens s =>
      (* only a stream that exists can be listened to *)
      returns (if decide (s < streams w)%nat
               then set_listened (s :: listened w) w
               else w)
  | caller_calls_buildCommand script bindings message =>
      snd <$> defined (buildCommand uuid_v1 script bindings message w) w
  | caller_calls_messageStream script bindings message =>
      snd <$> messageStream uuid_v1 JSON_stringify script bindings message w
  | caller_calls_stream script bindings message =>
      snd <$> stream uuid_v1 JSON_stringify script bindings message w
  | socket_opens => onConnectionOpen JSON_stringify w
  | socket_delivers rawMessage => handleMessage rawMessage w
  | socket_closes event => handleDisconnection event w
  end.

(** The worlds a client goes through, from its construction on: every
    action leaves a world, whether the method returns or throws. *)
Inductive reachable : World → Prop :=
| reachable_new port host options :
    reachable (GremlinClient uuid_v1 port host options)
| reachable_step w a :
    reachable w → reachable (left_by (perform a w)).

(** The worlds a client goes through from [w] on. *)
Inductive runs (w : World) : World → Prop :=
| runs_here : runs w w
| runs_step w' a : runs w w' → runs w (left_by (perform a w')).

(** Several actions in a row. *)
Fixpoint performs (actions : list Action) (w : World) : World :=
  match actions with
  | [] => w
  | a :: actions' => performs actions' (left_by (perform a w))
  end.

End runs.

(** The commands of the table have MessageStreams of their own, created
    by the client and not ended, and the calls made so far are orderly. *)
Definition well_streamed (w : World) : Prop :=
  keys_unique w ∧ orderly (trace w) ∧
  NoDup (Command.messageStream <$> (commands w).*2) ∧
  (∀ command, command ∈ (commands w).*2 →
     (Command.messageStream command < streams w)%nat ∧
     ¬ ended (Command.messageStream command) (trace w)) ∧
  (∀ e s, e ∈ trace w → event_stream e = Some s → (s < streams w)%nat).

(** The commands that are sent an error when errors are emitted in the
    order of [cancelled]: all up to the first whose stream nobody listens
    to, that one included. *)
Fixpoint reached (listening : list StreamId) (cancelled : list Command.t)
    : list Command.t :=
  match cancelled with
  | [] => []
  | c :: rest =>
      if decide (Command.messageStream c ∈ listening)
      then c :: reached listening rest
      else [c]
  end.

(** ** A run for the examples *)
Module Run.

(** A script is submitted before the socket opens and another one after;
    the server answers the first in two frames and the second with an
    error, one more script is submitted and the socket closes. *)
Definition partial : Frame.t :=
  {| Frame.requestId := Some "uuid-0";
     Frame.status_code := 206;
     Frame.status_message := "";
     Frame.result_data := [JNumber 1];
     Frame.status_code_safe := eq_refl |}.

Definition three_values : Frame.t :=
  {| Frame.requestId := Some "uuid-0";
     Frame.status_code := 206;
     Frame.status_message := "";
     Frame.result_data := [JNumber 1; JNumber 3; JNumber 5];
     Frame.status_code_safe := eq_refl |}.

Definition failure : Frame.t :=
  {| Frame.requestId := Some "uuid-1";
     Frame.status_code := 597;
     Frame.status_message := "Script evaluation error";
     Frame.result_data := [];
     Frame.status_code_safe := eq_refl |}.

Definition actions : list Action :=
  [ caller_calls_messageStream (ScriptText "g.V()") None None;
    socket_opens;
    caller_calls_stream (ScriptText "g.E()") None None;
    socket_delivers partial;
    socket_delivers Sample.success;
    socket_delivers failure;
    caller_calls_messageStream (ScriptText "1+1") None None;
    socket_closes Sample.closing ].

Definition final : World :=
  performs Sample.uuid_v1 Sample.JSON_stringify actions Sample.client.

(** Two scripts are submitted before the socket opens, the first for a
    raw stream and the second for a pipeline. *)
Definition unheard : World :=
  performs Sample.uuid_v1 Sample.JSON_stringify
    [ caller_calls_messageStream (ScriptText "g.V()") None None;
      caller_calls_stream (ScriptText "g.E()") None None ] Sample.client.

(** The caller then listens for the errors of both streams. *)
Definition listening : World :=
  performs Sample.uuid_v1 Sample.JSON_stringify
    [ caller_listens 0; caller_listens 1 ] unheard.

(** Two scripts submitted before the socket opens, each with message
    overrides that set the request identifier to "r"; the caller listens
    for the errors of both streams. *)
Definition same_requestId : World :=
  let override := {| Message.requestId := Some "r"; Message.processor := None;
                     Message.op := None; Message.args := None |} in
  performs Sample.uuid_v1 Sample.JSON_stringify
    [ caller_creates_message override;
      caller_creates_message override;
      caller_calls_messageStream (ScriptText "1+1") None (Some 0%nat);
      caller_calls_messageStream (ScriptText "2+2") None (Some 1%nat);
      caller_listens 0; caller_listens 1 ] Sample.client.

(** Three scripts are submitted before the socket opens. *)
Definition three_waiting : World :=
  performs Sample.uuid_v1 Sample.JSON_stringify
    [ caller_calls_messageStream (ScriptText "g.V()") None None;
      caller_calls_messageStream (ScriptText "g.E()") None None;
      caller_calls_messageStream (ScriptText "1+1") None None ] Sample.client.

(** The caller then empties the message of the second script. *)
Definition emptied : World :=
  performs Sample.uuid_v1 Sample.JSON_stringify
    [ caller_writes_message 1 Message.empty ] three_waiting.


(** The same submissions with the socket still closed. *)
Definition waiting : World :=
  performs Sample.uuid_v1 Sample.JSON_stringify
    [ caller_calls_messageStream (ScriptText "g.V()") None None;
      caller_calls_stream (ScriptText "g.E()") None None;
      socket_delivers Sample.success ] Sample.client.

(** A client in session mode. *)
Definition session_options : Options.t :=
  {| Options.path := ""; Options.language := "gremlin-groovy";
     Options.session := true; Options.op := "eval"; Options.processor := "";
     Options.accept := "application/json"; Options.ssl := false;
     Options.rejectUnauthorized := false |}.

Definition session_client : World :=
  GremlinClient Sample.uuid_v1 None None session_options.

(** Overrides that name an operation, an empty processor and, in their
    argument bag, a script, a language and a session. *)
Definition scripted (w : World) : ref * ref * World :=
  let bag := {| Args.gremlin := Some "g.V().count()"; Args.bindings := None;
                Args.accept := None; Args.language := Some "nashorn";
                Args.binary := None; Args.session := Some "mine" |} in
  let '(a, w) := Sample.new_args bag w in
  let override := {| Message.requestId := None; Message.processor := Some "";
                     Message.op := Some "traversal"; Message.args := Some a |} in
  let '(m, w) := Sample.new_message override w in
  (m, a, w).

End Run.

(** * Properties *)

(** ** Objects as dictionaries *)
Section JsObject_facts.
Context {V : Type}.
Implicit Types (o : list (string * V)) (k : string) (v : V).

Lemma get_delete_eq k o : JsObject.get k (JsObject.delete k o) = None.
Proof.
  unfold JsObject.delete.
  induction o as [|[k' v] o IH]; [done|].
  rewrite filter_cons; simpl.
  destruct (decide (k' ≠ k)) as [Hne|Heq]; [|done].
  simpl. by rewrite decide_False.
Qed.

Lemma get_delete_ne k k' o :
  k ≠ k' → JsObject.get k' (JsObject.delete k o) = JsObject.get k' o.
Proof.
  intros Hne. unfold JsObject.delete.
  induction o as [|[k0 v] o IH]; [done|].
  rewrite filter_cons; simpl.
  destruct (decide (k0 ≠ k)) as [H0|H0]; simpl.
  - by rewrite IH.
  - apply dec_stable in H0 as ->. by rewrite decide_False.
Qed.

Lemma get_set_eq k v o : JsObject.get k (JsObject.set k v o) = Some v.
Proof.
  induction o as [|[k' v'] o IH]; simpl.
  - by rewrite decide_True.
  - destruct (decide (k' = k)); simpl.
    + by rewrite decide_True.
    + by rewrite decide_False.
Qed.


Lemma get_elem k v o :
  NoDup o.*1 → (k, v) ∈ o → JsObject.get k o = Some v.
Proof.
  induction o as [|[k' v'] o IH]; simpl; intros Hnd Hin.
  - by apply elem_of_nil in Hin.
  - apply NoDup_cons in Hnd as [Hk' Hnd].
    apply elem_of_cons in Hin as [[= <- <-]|Hin].
    + by rewrite decide_True.
    + rewrite decide_False; [by apply IH|].
      intros ->. apply Hk'. apply list_elem_of_fmap. by exists (k, v).
Qed.

Lemma insert_sorted_perm (x : N * (string * V)) l :
  JsObject.insert_sorted x l ≡ₚ x :: l.
Proof.
  induction l as [|y l IH]; simpl; [done|].
  destruct (x.1 <=? y.1)%N; [done|].
  rewrite IH. apply Permutation_swap.
Qed.

Lemma sorted_perm (l : list (N * (string * V))) :
  foldr JsObject.insert_sorted [] l ≡ₚ l.
Proof.
  induction l as [|x l IH]; simpl; [done|].
  by rewrite insert_sorted_perm, IH.
Qed.

(** [Object.keys] lists every own property once. *)
Lemma entries_perm o : JsObject.entries o ≡ₚ o.
Proof.
  unfold JsObject.entries. rewrite sorted_perm.
  unfold JsObject.indexed, JsObject.named.
  induction o as [|[k v] o IH]; [done|].
  rewrite filter_cons; simpl.
  destruct (JsObject.array_index k) as [n|] eqn:Hk; simpl.
  - constructor. apply IH.
  - rewrite <-Permutation_middle. constructor. apply IH.
Qed.

End JsObject_facts.

Example entries_order :
  JsObject.entries [("b", 1); ("10", 2); ("a", 3); ("9", 4); ("01", 5)]
  = [("9", 4); ("10", 2); ("b", 1); ("a", 3); ("01", 5)].
Proof. vm_compute. reflexivity. Qed.

Example extractFunctionBody_braces :
  extractFunctionBody "function () { return g.V(); }" = " return g.V(); " ∧
  extractFunctionBody "no braces" = "".
Proof. split; vm_compute; reflexivity. Qed.

(** ** Response dispatch *)

Lemma left_by_emit_error s e w :
  left_by (emit_error s e w) = call (stream_emit_error s e) w.
Proof. unfold emit_error. by case_decide. Qed.

Lemma emit_error_listened s e w :
  emit_error s e w
  = if decide (s ∈ listened w)
    then returns (call (stream_emit_error s e) w)
    else throws (call (stream_emit_error s e) w).
Proof. reflexivity. Qed.

Lemma dispatch_found requestId rawMessage w command :
  JsObject.get (property_key requestId) (commands w) = Some command →
  let code := Frame.status_code rawMessage in
  let s := Command.messageStream command in
  let removed :=
    set_commands (JsObject.delete (property_key requestId) (commands w)) w in
  dispatch requestId rawMessage w =
    if decide (code = 200) then
      returns (call (stream_push s None)
                 (call (stream_push s (Some rawMessage)) removed))
    else if decide (code = 204) then returns (call (stream_push s None) removed)
    else if decide (code = 206) then
      returns (call (stream_push s (Some rawMessage)) w)
    else emit_error s
           {| error_message :=
                Frame.status_message rawMessage +:+ " (Error "
                  +:+ pretty code +:+ ")";
              error_details := None |} removed.
Proof. intros Hget. unfold dispatch. by rewrite Hget. Qed.

Lemma dispatch_missing requestId rawMessage w :
  JsObject.get (property_key requestId) (commands w) = None →
  dispatch requestId rawMessage w
  = if decide (property_key requestId ∈ Object_prototype)
    then throws w else returns w.
Proof. intros Hget. unfold dispatch. by rewrite Hget. Qed.

Lemma dispatch_missing_left requestId rawMessage w :
  JsObject.get (property_key requestId) (commands w) = None →
  left_by (dispatch requestId rawMessage w) = w.
Proof. intros Hget. rewrite dispatch_missing by done. by case_decide. Qed.

(** C1. A frame whose request identifier (the pending authentication
    identifier when there is one, the frame's own otherwise) names a
    command of the table is handled by its status code: 200 removes the
    command, pushes the frame and then null; 204 removes the command and
    pushes null only; 206 pushes the frame and keeps the command; any
    other code removes the command and emits an error made of the
    server's message and the code.  The handler returns, but for the
    error on a stream nobody listens to, which [emit] throws. *)
Theorem handleMessage_status rawMessage w requestId command :
  requestId = match lastAuthenticationReqId w with
              | Some id => id
              | None => Frame.requestId rawMessage
              end →
  JsObject.get (property_key requestId) (commands w) = Some command →
  ∃ w', left_by (handleMessage rawMessage w) = w' ∧
    let code := Frame.status_code rawMessage in
    let s := Command.messageStream command in
    let key := property_key requestId in
    (code = 200 →
       handleMessage rawMessage w = returns w' ∧
       commands w' = JsObject.delete key (commands w) ∧
       JsObject.get key (commands w') = None ∧
       trace w' = trace w ++ [stream_push s (Some rawMessage); stream_push s None]) ∧
    (code = 204 →
       handleMessage rawMessage w = returns w' ∧
       commands w' = JsObject.delete key (commands w) ∧
       JsObject.get key (commands w') = None ∧
       trace w' = trace w ++ [stream_push s None]) ∧
    (code = 206 →
       handleMessage rawMessage w = returns w' ∧
       commands w' = commands w ∧
       JsObject.get key (commands w') = Some command ∧
       trace w' = trace w ++ [stream_push s (Some rawMessage)]) ∧
    (code ≠ 200 → code ≠ 204 → code ≠ 206 →
       handleMessage rawMessage w
         = (if decide (s ∈ listened w) then returns w' else throws w') ∧
       commands w' = JsObject.delete key (commands w) ∧
       JsObject.get key (commands w') = None ∧
       trace w' = trace w ++
         [stream_emit_error s
            {| error_message :=
                 Frame.status_message rawMessage +:+ " (Error "
                   +:+ pretty code +:+ ")";
               error_details := None |}]).
Proof.
  intros Hid Hget. eexists. split; [reflexivity|].
  set (w0 := match lastAuthenticationReqId w with
             | Some _ => set_lastAuthenticationReqId None w
             | None => w
             end).
  assert (Hw0 : commands w0 = commands w ∧ trace w0 = trace w ∧
                listened w0 = listened w)
    by (unfold w0; destruct (lastAuthenticationReqId w); done).
  destruct Hw0 as (Hc & Ht & Hl).
  assert (Hhandle : handleMessage rawMessage w = dispatch requestId rawMessage w0).
  { unfold handleMessage, w0. subst requestId.
    by destruct (lastAuthenticationReqId w). }
  rewrite Hhandle. clear Hhandle.
  rewrite <-Hc in Hget. rewrite (dispatch_found _ _ _ _ Hget).
  rewrite <-Hc, <-Ht, <-Hl. cbv zeta. rewrite emit_error_listened.
  repeat split; intros; repeat case_decide; try lia; simpl;
    rewrite ?get_delete_eq, <-?app_assoc; done.
Qed.

(** ** Disconnection *)

Lemma calls_trace events w : trace (calls events w) = trace w ++ events.
Proof.
  revert w. induction events as [|e events IH]; intros w; simpl.
  - by rewrite app_nil_r.
  - unfold calls in *. simpl. rewrite IH. simpl. by rewrite <-app_assoc.
Qed.

Lemma calls_this events w :
  queue (calls events w) = queue w ∧
  commands (calls events w) = commands w ∧
  connected (calls events w) = connected w ∧
  lastAuthenticationReqId (calls events w) = lastAuthenticationReqId w ∧
  messages (calls events w) = messages w ∧
  argbags (calls events w) = argbags w ∧
  bindingsObjects (calls events w) = bindingsObjects w ∧
  options (calls events w) = options w.
Proof.
  revert w. induction events as [|e events IH]; intros w; [done|].
  unfold calls in *. simpl. apply (IH (call e w)).
Qed.

Lemma calls_streams events w :
  streams (calls events w) = streams w ∧
  pipes (calls events w) = pipes w ∧
  listened (calls events w) = listened w.
Proof.
  revert w. induction events as [|e events IH]; intros w; [done|].
  unfold calls in *. simpl. apply (IH (call e w)).
Qed.

Lemma calls_snoc events e w : calls (events ++ [e]) w = call e (calls events w).
Proof. unfold calls. by rewrite foldl_app. Qed.

Lemma calls_cons e events w : calls (e :: events) w = calls events (call e w).
Proof. reflexivity. Qed.

(** The walk of cancelPendingCommands, told by the commands rather than
    by their keys. *)
Lemma forEach_keys (f : Command.t → World → Outcome World)
    (o l : list (string * Command.t)) w :
  NoDup o.*1 → l ⊆ o →
  forEach (λ key w, command ← defined (JsObject.get key o) w; f command w)
          l.*1 w
  = forEach f l.*2 w.
Proof.
  intros Hnd. revert w. induction l as [|[k v] l IH]; intros w Hl; [done|].
  simpl. rewrite (get_elem k v o Hnd) by (apply Hl; left). simpl.
  destruct (f v w) as [w'|w']; simpl; [|done].
  apply IH. intros x Hx. apply Hl. by right.
Qed.

Lemma reached_all listening cancelled :
  Forall (λ c, Command.messageStream c ∈ listening) cancelled →
  reached listening cancelled = cancelled.
Proof.
  induction 1 as [|c cancelled Hc _ IH]; simpl; [done|].
  by rewrite decide_True, IH.
Qed.

Lemma forEach_emit_error (error : Error) : ∀ cancelled w,
  forEach (λ c w, emit_error (Command.messageStream c) error w) cancelled w
  = let w' := calls ((λ c, stream_emit_error (Command.messageStream c) error)
                       <$> reached (listened w) cancelled) w in
    if decide (Forall (λ c, Command.messageStream c ∈ listened w) cancelled)
    then returns w' else throws w'.
Proof.
  induction cancelled as [|c cancelled IH]; intros w; simpl.
  - done.
  - rewrite emit_error_listened.
    destruct (decide (Command.messageStream c ∈ listened w)) as [Hc|Hc]; simpl.
    + rewrite IH. simpl.
      destruct (decide (Forall _ cancelled)) as [Hall|Hall].
      * by rewrite decide_True by (by constructor).
      * rewrite decide_False; [done|]. by intros [_ ?]%Forall_cons.
    + rewrite decide_False; [done|]. by intros [? _]%Forall_cons.
Qed.

Lemma cancelPendingCommands_spec reason w :
  NoDup (commands w).*1 →
  let cancelled := (JsObject.entries (commands w)).*2 in
  let errors :=
    (λ c, stream_emit_error (Command.messageStream c)
            {| error_message := Reason.message reason;
               error_details := Some (Reason.details reason) |})
      <$> reached (listened w) cancelled in
  let w' := calls errors (set_commands [] (set_queue [] w)) in
  cancelPendingCommands reason w
  = if decide (Forall (λ c, Command.messageStream c ∈ listened w) cancelled)
    then returns w' else throws w'.
Proof.
  intros Hnd. unfold cancelPendingCommands, JsObject.keys.
  rewrite (forEach_keys
             (λ c w, emit_error (Command.messageStream c)
                       {| error_message := Reason.message reason;
                          error_details := Some (Reason.details reason) |} w)
             (commands w) (JsObject.entries (commands w)));
    [|done|intros x Hx; by rewrite <-(entries_perm (commands w))].
  by rewrite forEach_emit_error.
Qed.

Lemma cancelPendingCommands_left reason w :
  NoDup (commands w).*1 →
  left_by (cancelPendingCommands reason w)
  = calls ((λ c, stream_emit_error (Command.messageStream c)
                   {| error_message := Reason.message reason;
                      error_details := Some (Reason.details reason) |})
             <$> reached (listened w) (JsObject.entries (commands w)).*2)
          (set_commands [] (set_queue [] w)).
Proof.
  intros Hnd. rewrite cancelPendingCommands_spec by done. by case_decide.
Qed.

(** C2, as the code has it.  When the connection closes, the table and
    the queue are emptied, and the commands that were in the table are
    sent an error each, with the message "WebSocket closed" and the close
    event as its details, in the order of [Object.keys].  When the
    streams of all of them have a listener for 'error', every one is sent
    its error and the handler returns.  Otherwise [emit] throws at the
    first stream without one: the walk ends there, and the table and the
    queue are empty all the same, as they were emptied first. *)
Theorem handleDisconnection_cancels event w :
  NoDup (commands w).*1 →
  let cancelled := (JsObject.entries (commands w)).*2 in
  let error := {| error_message := "WebSocket closed";
                  error_details := Some event |} in
  let all_listen :=
    Forall (λ c, Command.messageStream c ∈ listened w) cancelled in
  ∃ w', left_by (handleDisconnection event w) = w' ∧
    queue w' = [] ∧ commands w' = [] ∧
    trace w' = trace w ++
      ((λ c, stream_emit_error (Command.messageStream c) error)
         <$> reached (listened w) cancelled) ∧
    cancelled ≡ₚ (commands w).*2 ∧
    (all_listen →
       handleDisconnection event w = returns w' ∧
       reached (listened w) cancelled = cancelled) ∧
    (¬ all_listen → handleDisconnection event w = throws w').
Proof.
  intros Hnd. cbv zeta. eexists. split; [reflexivity|].
  unfold handleDisconnection.
  rewrite cancelPendingCommands_left by done.
  rewrite cancelPendingCommands_spec by done. simpl.
  rewrite calls_trace.
  match goal with |- context [calls ?events ?w0] =>
    destruct (calls_this events w0) as (-> & -> & _) end.
  simpl. do 3 (split; [done|]).
  split; [by rewrite entries_perm|].
  split; intros Hall.
  - rewrite decide_True by done. split; [done|]. by apply reached_all.
  - by rewrite decide_False.
Qed.

(** An instance: two commands wait, one with a raw stream and one with a
    pipeline, the caller listens to both and the connection closes. *)
Lemma handleDisconnection_cancels_witness :
  NoDup (commands Run.listening).*1 ∧
  ∃ w', handleDisconnection Sample.closing Run.listening = returns w' ∧
    queue Run.listening
    = [ {| Command.message := 0%nat; Command.messageStream := 0%nat |};
        {| Command.message := 1%nat; Command.messageStream := 1%nat |} ] ∧
    queue w' = [] ∧ commands w' = [] ∧
    trace w' = trace Run.listening ++
      [ stream_emit_error 0
          {| error_message := "WebSocket closed";
             error_details := Some Sample.closing |};
        stream_emit_error 1
          {| error_message := "WebSocket closed";
             error_details := Some Sample.closing |} ].
Proof.
  assert (Hnd : NoDup (commands Run.listening).*1).
  { apply (bool_decide_unpack _). vm_compute. reflexivity. }
  split; [exact Hnd|].
  destruct (handleDisconnection_cancels Sample.closing Run.listening Hnd)
    as (w' & _ & Hqueue & Hcommands & Htrace & _ & Hall & _).
  exists w'. split.
  { apply Hall. apply (bool_decide_unpack _). vm_compute. reflexivity. }
  split; [vm_compute; reflexivity|].
  split; [exact Hqueue|]. split; [exact Hcommands|].
  rewrite Htrace. vm_compute. reflexivity.
Defined.

(** C2, as the claim has it, fails.  Two commands were submitted under the
    same request identifier while the client was disconnected: both wait
    in the queue, the table holds the second only.  On close the first is
    sent no error at all, although the caller listens to its stream, and
    the message of the error that is sent is not "connection closed".
    And when two commands wait whose streams nobody listens to, the
    first error thrown ends the handler: the second command is sent
    nothing, while the table and the queue are empty already. *)
Lemma close_misses_queued_command :
  (∃ w' first,
     first ∈ queue Run.same_requestId ∧
     Command.messageStream first ∈ listened Run.same_requestId ∧
     handleDisconnection Sample.closing Run.same_requestId = returns w' ∧
     (∀ e, stream_emit_error (Command.messageStream first) e ∉ trace w') ∧
     (∀ s e, stream_emit_error s e ∈ trace w' →
             error_message e = "WebSocket closed" ∧
             error_message e ≠ "connection closed")) ∧
  (∃ w' second,
     JsObject.get "uuid-1" (commands Run.unheard) = Some second ∧
     handleDisconnection Sample.closing Run.unheard = throws w' ∧
     (∀ e, stream_emit_error (Command.messageStream second) e ∉ trace w') ∧
     queue w' = [] ∧ commands w' = []).
Proof.
  split.
  - eexists _, {| Command.message := 0%nat; Command.messageStream := 0%nat |}.
    split; [vm_compute; left|].
    split; [vm_compute; right; left|].
    split; [vm_compute; reflexivity|].
    split.
    + intros e He. vm_compute in He.
      repeat (apply elem_of_cons in He as [He|He]; [discriminate He|]).
      by apply elem_of_nil in He.
    + intros s e He. vm_compute in He.
      apply elem_of_cons in He as [He|He]; [discriminate He|].
      apply elem_of_cons in He as [He|He]; [|by apply elem_of_nil in He].
      injection He as -> ->. by split.
  - eexists _, {| Command.message := 1%nat; Command.messageStream := 1%nat |}.
    split; [vm_compute; reflexivity|].
    split; [vm_compute; reflexivity|].
    split; [|by split].
    intros e He. vm_compute in He.
    repeat (apply elem_of_cons in He as [He|He]; [discriminate He|]).
    by apply elem_of_nil in He.
Qed.

(** An instance: the success frame for the one waiting command. *)
Lemma handleMessage_status_witness :
  ∃ w command,
    Sample.pending = returns w ∧
    JsObject.get "uuid-0" (commands w) = Some command ∧
    ∃ w', handleMessage Sample.success w = returns w' ∧
      JsObject.get "uuid-0" (commands w') = None ∧
      trace w' = trace w ++
        [stream_push (Command.messageStream command) (Some Sample.success);
         stream_push (Command.messageStream command) None].
Proof.
  eexists _, _. split; [vm_compute; reflexivity|].
  match goal with |- JsObject.get _ (commands ?w) = _ ∧ _ => set (world := w) end.
  assert (Hget : JsObject.get "uuid-0" (commands world) = Some
    {| Command.message := 0%nat; Command.messageStream := 0%nat |})
    by (vm_compute; reflexivity).
  split; [exact Hget|].
  destruct (handleMessage_status Sample.success world (Some "uuid-0") _
              eq_refl Hget) as (w' & Hw' & H200 & _).
  exists w'.
  destruct (H200 eq_refl) as (Hreturns & _ & Hgone & Htrace). by split.
Defined.

(** ** Connection *)

Section connection.
Variable JSON_stringify : MessageGraph → string.

Lemma formatedMessage_heap message w w' :
  messages w' = messages w → argbags w' = argbags w →
  bindingsObjects w' = bindingsObjects w → options w' = options w →
  formatedMessage JSON_stringify message w'
  = formatedMessage JSON_stringify message w.
Proof.
  intros Hm Ha Hb Ho.
  unfold formatedMessage, packMessageToBinary, reach.
  by rewrite Hm, Ha, Hb, Ho.
Qed.

Lemma set_queue_id w : set_queue (queue w) w = w.
Proof. by destruct w. Qed.

Lemma sendMessage_spec message w :
  sendMessage JSON_stringify message w
  = match formatedMessage JSON_stringify message w with
    | Some data => returns (call (ws_send data) w)
    | None => throws w
    end.
Proof. unfold sendMessage. by destruct (formatedMessage _ _ _). Qed.

(** The loop sends the messages of the queue in order, up to the first
    that cannot be sent: it returns with the queue empty when there is
    none, and throws with the commands after that one in the queue
    otherwise. *)
Lemma executeQueue_loop_spec : ∀ pending w,
  queue w = pending →
  ∃ payloads,
    Forall2 (λ command data,
               formatedMessage JSON_stringify (Command.message command) w
               = Some data)
            (take (length payloads) pending) payloads ∧
    match drop (length payloads) pending with
    | [] =>
        executeQueue_loop JSON_stringify pending w
        = returns (calls (ws_send <$> payloads) (set_queue [] w))
    | command :: remaining =>
        formatedMessage JSON_stringify (Command.message command) w = None ∧
        executeQueue_loop JSON_stringify pending w
        = throws (calls (ws_send <$> payloads) (set_queue remaining w))
    end.
Proof.
  induction pending as [|command rest IH]; intros w Hqueue.
  - exists []. split; [constructor|]. simpl. by rewrite <-Hqueue, set_queue_id.
  - simpl. rewrite sendMessage_spec.
    rewrite (formatedMessage_heap _ w (set_queue rest w)) by done.
    destruct (formatedMessage _ _ w) as [data|] eqn:Hdata; simpl.
    + destruct (IH (call (ws_send data) (set_queue rest w)) eq_refl)
        as (payloads & Hall & Hloop).
      exists (data :: payloads). simpl. split.
      * constructor; [done|].
        eapply Forall2_impl; [exact Hall|]. simpl. intros c d <-.
        symmetry. by apply formatedMessage_heap.
      * destruct (drop (length payloads) rest) as [|failing remaining].
        -- by rewrite Hloop.
        -- destruct Hloop as [Hnone Hloop]. split; [|by rewrite Hloop].
           rewrite <-Hnone. symmetry. by apply formatedMessage_heap.
    + exists []. split; [constructor|]. simpl. by split.
Qed.

Lemma executeQueue_loop_sends : ∀ pending w payloads,
  queue w = pending →
  Forall2 (λ command data,
             formatedMessage JSON_stringify (Command.message command) w = Some data)
          pending payloads →
  executeQueue_loop JSON_stringify pending w
  = returns (calls (ws_send <$> payloads) (set_queue [] w)).
Proof.
  induction pending as [|command rest IH]; intros w payloads Hqueue Hall.
  - apply Forall2_nil_inv_l in Hall as ->. simpl.
    by rewrite <-Hqueue, set_queue_id.
  - apply Forall2_cons_inv_l in Hall as (data & payloads' & Hdata & Hrest & ->).
    simpl. rewrite sendMessage_spec.
    rewrite (formatedMessage_heap _ w (set_queue rest w)) by done.
    rewrite Hdata. simpl. rewrite (IH _ payloads'); [done|done|].
    eapply Forall2_impl; [exact Hrest|]. simpl. intros c d <-.
    by apply formatedMessage_heap.
Qed.

(** What sendCommand does to a command whose message exists: the command
    is registered, the slot is set for an authentication, and the message
    is sent or the command queued. *)
Lemma sendCommand_spec command msg w :
  messages w !! Command.message command = Some msg →
  let registered :=
    set_commands
      (JsObject.set (property_key (Message.requestId msg)) command (commands w))
      w in
  let registered :=
    if decide (Message.op msg = Some "authentication")
    then set_lastAuthenticationReqId (Some (Message.requestId msg)) registered
    else registered in
  sendCommand JSON_stringify command w
  = if connected w
    then match formatedMessage JSON_stringify (Command.message command) w with
         | Some data => returns (call (ws_send data) registered)
         | None => throws registered
         end
    else returns (set_queue (queue w ++ [command]) registered).
Proof.
  intros Hmsg. unfold sendCommand. rewrite Hmsg. simpl.
  case_decide; simpl; destruct (connected w); try done.
  all: rewrite sendMessage_spec.
  all: match goal with
       | |- context [formatedMessage _ ?m ?w0] =>
           rewrite (formatedMessage_heap m w w0) by done
       end.
  all: done.
Qed.

Lemma sendCommand_disconnected command msg w :
  messages w !! Command.message command = Some msg →
  connected w = false →
  ∃ w', sendCommand JSON_stringify command w = returns w' ∧
    queue w' = queue w ++ [command] ∧
    commands w' =
      JsObject.set (property_key (Message.requestId msg)) command (commands w) ∧
    trace w' = trace w ∧ connected w' = false.
Proof.
  intros Hmsg Hconn. rewrite (sendCommand_spec _ _ _ Hmsg). cbv zeta.
  rewrite Hconn. eexists. split; [reflexivity|].
  case_decide; simpl; by rewrite ?Hconn.
Qed.

(** C3, as the code has it.  On the open event the client sets
    [connected], signals 'connect', and then sends every queued command,
    first in first out.  When every queued message can be sent (the
    hypothesis names the payload of each: its message still has its
    argument bag), the handler returns with all of them sent and the
    queue empty: the world the event leaves shows no partial flush. *)
Theorem onConnectionOpen_flushes w payloads :
  Forall2 (λ command data,
             formatedMessage JSON_stringify (Command.message command) w = Some data)
          (queue w) payloads →
  ∃ w', onConnectionOpen JSON_stringify w = returns w' ∧
    w' = calls (client_emit "connect" :: (ws_send <$> payloads))
               (set_queue [] (set_connected true w)) ∧
    connected w' = true ∧
    queue w' = [] ∧
    commands w' = commands w ∧
    trace w' = trace w ++ client_emit "connect" :: (ws_send <$> payloads).
Proof.
  intros Hall. unfold onConnectionOpen, executeQueue.
  rewrite (executeQueue_loop_sends _ _ payloads); [|done|exact Hall].
  eexists. split; [reflexivity|].
  split; [reflexivity|].
  rewrite calls_trace.
  destruct (calls_this (ws_send <$> payloads)
    (set_queue [] (call (client_emit "connect") (set_connected true w))))
    as (-> & -> & -> & _).
  simpl. by rewrite <-app_assoc.
Qed.

End connection.

(** An instance: the connection opens with three commands in the queue,
    which are sent in the order of their submission. *)
Lemma onConnectionOpen_flushes_witness :
  ∃ first second third w',
    Forall2 (λ command data,
               formatedMessage Sample.JSON_stringify (Command.message command)
                 Run.three_waiting = Some data)
            (queue Run.three_waiting) [first; second; third] ∧
    queue Run.three_waiting
    = [ {| Command.message := 0%nat; Command.messageStream := 0%nat |};
        {| Command.message := 1%nat; Command.messageStream := 1%nat |};
        {| Command.message := 2%nat; Command.messageStream := 2%nat |} ] ∧
    first ≠ second ∧ second ≠ third ∧ first ≠ third ∧
    onConnectionOpen Sample.JSON_stringify Run.three_waiting = returns w' ∧
    connected w' = true ∧
    queue w' = [] ∧
    trace w' = trace Run.three_waiting
      ++ [client_emit "connect"; ws_send first; ws_send second; ws_send third].
Proof.
  pose (payload := λ n : nat,
          default (Text "")
            (formatedMessage Sample.JSON_stringify n Run.three_waiting)).
  assert (Hall : Forall2 (λ command data,
               formatedMessage Sample.JSON_stringify (Command.message command)
                 Run.three_waiting = Some data)
            (queue Run.three_waiting)
            [payload 0%nat; payload 1%nat; payload 2%nat]).
  { assert (Hqueue : queue Run.three_waiting
      = [ {| Command.message := 0%nat; Command.messageStream := 0%nat |};
          {| Command.message := 1%nat; Command.messageStream := 1%nat |};
          {| Command.message := 2%nat; Command.messageStream := 2%nat |} ])
      by (vm_compute; reflexivity).
    rewrite Hqueue.
    constructor; [vm_compute; reflexivity|].
    constructor; [vm_compute; reflexivity|].
    constructor; [vm_compute; reflexivity|]. constructor. }
  destruct (onConnectionOpen_flushes Sample.JSON_stringify Run.three_waiting
              _ Hall) as (w' & Hopen & _ & Hconnected & Hqueue & _ & Htrace).
  exists (payload 0%nat), (payload 1%nat), (payload 2%nat), w'.
  split; [exact Hall|]. split; [vm_compute; reflexivity|].
  split; [intros Heq; vm_compute in Heq; discriminate Heq|].
  split; [intros Heq; vm_compute in Heq; discriminate Heq|].
  split; [intros Heq; vm_compute in Heq; discriminate Heq|].
  split; [exact Hopen|]. split; [exact Hconnected|]. split; [exact Hqueue|].
  exact Htrace.
Defined.

(** C3, as the claim has it, fails: with one command in the queue, the
    'connect' event is signalled before the command is sent, not after. *)
Lemma connect_precedes_flush :
  ∃ w w' data,
    Sample.pending = returns w ∧
    queue w = [{| Command.message := 0%nat; Command.messageStream := 0%nat |}] ∧
    onConnectionOpen Sample.JSON_stringify w = returns w' ∧
    trace w' = trace w ++ [client_emit "connect"; ws_send data] ∧
    ¬ ∃ payloads,
        trace w' = trace w ++ (ws_send <$> payloads) ++ [client_emit "connect"].
Proof.
  eexists _, _, _.
  split; [vm_compute; reflexivity|].
  split; [reflexivity|].
  split; [vm_compute; reflexivity|].
  split; [reflexivity|].
  intros [payloads Htrace]. simpl in Htrace.
  injection Htrace as Htrace.
  destruct payloads as [|? [|? ?]]; simpl in Htrace; [| |destruct l];
    discriminate Htrace.
Qed.

(** ** Frames that match no command, and the authentication override *)

Lemma dispatch_lastAuthenticationReqId requestId rawMessage w :
  lastAuthenticationReqId (left_by (dispatch requestId rawMessage w))
  = lastAuthenticationReqId w.
Proof.
  unfold dispatch.
  destruct (JsObject.get _ _); [|by case_decide].
  rewrite emit_error_listened. repeat case_decide; done.
Qed.

Lemma set_lastAuthenticationReqId_id w :
  lastAuthenticationReqId w = None → set_lastAuthenticationReqId None w = w.
Proof. destruct w; simpl; by intros ->. Qed.




Section authentication.
Variable JSON_stringify : MessageGraph → string.

Lemma sendCommand_lastAuthenticationReqId command msg w :
  messages w !! Command.message command = Some msg →
  lastAuthenticationReqId (left_by (sendCommand JSON_stringify command w)) =
    if decide (Message.op msg = Some "authentication")
    then Some (Message.requestId msg)
    else lastAuthenticationReqId w.
Proof.
  intros Hmsg. rewrite (sendCommand_spec _ _ _ _ Hmsg). cbv zeta.
  destruct (connected w); [destruct (formatedMessage _ _ _)|];
    case_decide; done.
Qed.

Lemma sendCommand_commands command msg w :
  messages w !! Command.message command = Some msg →
  commands (left_by (sendCommand JSON_stringify command w))
  = JsObject.set (property_key (Message.requestId msg)) command (commands w).
Proof.
  intros Hmsg. rewrite (sendCommand_spec _ _ _ _ Hmsg). cbv zeta.
  destruct (connected w); [destruct (formatedMessage _ _ _)|];
    case_decide; done.
Qed.

Lemma sendCommand_listened command w :
  listened (left_by (sendCommand JSON_stringify command w)) = listened w.
Proof.
  destruct (messages w !! Command.message command) as [msg|] eqn:Hmsg.
  - rewrite (sendCommand_spec _ _ _ _ Hmsg). cbv zeta.
    destruct (connected w); [destruct (formatedMessage _ _ _)|];
      case_decide; done.
  - unfold sendCommand. by rewrite Hmsg.
Qed.

(** C5. Once an authentication command has gone through sendCommand, the
    next frame is dispatched under the request identifier of that command,
    whatever identifier the frame states, and the slot is null afterwards:
    the frame after that is dispatched under its own identifier.  The
    handler of the next frame returns, but for an error frame when nobody
    listens to the stream of the command; the slot is reset in either
    case. *)
Theorem authentication_overrides_next_frame command msg w w1 :
  messages w !! Command.message command = Some msg →
  Message.op msg = Some "authentication" →
  left_by (sendCommand JSON_stringify command w) = w1 →
  lastAuthenticationReqId w1 = Some (Message.requestId msg) ∧
  ∀ rawMessage,
    handleMessage rawMessage w1
    = dispatch (Message.requestId msg) rawMessage
        (set_lastAuthenticationReqId None w1) ∧
    (Frame.status_code rawMessage ∈ [200; 204; 206] ∨
     Command.messageStream command ∈ listened w1 →
     ∃ w2, handleMessage rawMessage w1 = returns w2) ∧
    ∃ w2, left_by (handleMessage rawMessage w1) = w2 ∧
      lastAuthenticationReqId w2 = None ∧
      ∀ next, handleMessage next w2
              = dispatch (Frame.requestId next) next w2.
Proof.
  intros Hmsg Hop <-.
  pose proof (sendCommand_lastAuthenticationReqId _ _ _ Hmsg) as Hlast.
  pose proof (sendCommand_commands _ _ _ Hmsg) as Hcommands.
  rewrite decide_True in Hlast by done.
  set (w1 := left_by (sendCommand JSON_stringify command w)) in *.
  split; [exact Hlast|].
  intros rawMessage.
  assert (Hhandle : handleMessage rawMessage w1
            = dispatch (Message.requestId msg) rawMessage
                (set_lastAuthenticationReqId None w1))
    by (unfold handleMessage; by rewrite Hlast).
  split; [exact Hhandle|]. split.
  - intros Hreturns. rewrite Hhandle.
    erewrite dispatch_found
      by (simpl; rewrite Hcommands; apply get_set_eq).
    cbv zeta. rewrite emit_error_listened. simpl.
    repeat case_decide; eauto.
    destruct Hreturns as [Hcode|?]; [|done].
    repeat (apply elem_of_cons in Hcode as [?|Hcode]; [done|]).
    by apply elem_of_nil in Hcode.
  - eexists. split; [reflexivity|].
    assert (Hnone : lastAuthenticationReqId
              (left_by (handleMessage rawMessage w1)) = None)
      by (by rewrite Hhandle, dispatch_lastAuthenticationReqId).
    split; [exact Hnone|].
    intros next. unfold handleMessage at 1. by rewrite Hnone.
Qed.

End authentication.

(** An instance: an authentication request submitted before the
    connection opens. *)
Lemma authentication_overrides_next_frame_witness :
  ∃ command w msg w1,
    Sample.authentication = Some (command, w) ∧
    messages w !! Command.message command = Some msg ∧
    Message.op msg = Some "authentication" ∧
    sendCommand Sample.JSON_stringify command w = returns w1 ∧
    lastAuthenticationReqId w1 = Some (Message.requestId msg) ∧
    ∀ rawMessage,
      handleMessage rawMessage w1
      = dispatch (Message.requestId msg) rawMessage
          (set_lastAuthenticationReqId None w1) ∧
      (Frame.status_code rawMessage ∈ [200; 204; 206] ∨
       Command.messageStream command ∈ listened w1 →
       ∃ w2, handleMessage rawMessage w1 = returns w2) ∧
      ∃ w2, left_by (handleMessage rawMessage w1) = w2 ∧
        lastAuthenticationReqId w2 = None ∧
        ∀ next, handleMessage next w2
                = dispatch (Frame.requestId next) next w2.
Proof.
  eexists _, _, _, _.
  split; [vm_compute; reflexivity|].
  match goal with |- messages ?w !! ?m = _ ∧ _ =>
    set (world := w); set (message := m) end.
  assert (Hmsg : messages world !! message = Some
    {| Message.requestId := Some "uuid-0"; Message.processor := Some "";
       Message.op := Some "authentication"; Message.args := Some 0%nat |})
    by reflexivity.
  split; [exact Hmsg|].
  split; [reflexivity|].
  match goal with |- ?send = _ ∧ _ =>
    assert (Hsend : send = returns
      (set_queue [ {| Command.message := 0%nat; Command.messageStream := 0%nat |} ]
         (set_lastAuthenticationReqId (Some (Some "uuid-0"))
            (set_commands
               [("uuid-0",
                 {| Command.message := 0%nat; Command.messageStream := 0%nat |})]
               world))))
      by (vm_compute; reflexivity) end.
  split; [exact Hsend|].
  refine (authentication_overrides_next_frame Sample.JSON_stringify
            _ _ world _ Hmsg eq_refl _).
  by rewrite Hsend.
Defined.

(** ** Binary frames *)

Lemma charCodes_app (a b : string) :
  charCodes (a +:+ b) = charCodes a ++ charCodes b.
Proof.
  unfold charCodes. induction a as [|c a IH]; simpl; [done|].
  f_equal. exact IH.
Qed.

Lemma unescape_encodeURIComponent_app (a b : string) :
  unescape_encodeURIComponent (a +:+ b)
  = unescape_encodeURIComponent a +:+ unescape_encodeURIComponent b.
Proof.
  induction a as [|c a IH]; simpl; [done|].
  destruct (N_of_ascii c <? 128)%N; simpl; by rewrite IH.
Qed.

Lemma length_charCodes (s : string) : length (charCodes s) = String.length s.
Proof.
  unfold charCodes. induction s as [|c s IH]; simpl; [done|].
  f_equal. exact IH.
Qed.

Lemma charCodeAt_seq (s : string) :
  (λ i, charCodeAt i s mod 256) <$> seq 0 (String.length s) = charCodes s.
Proof.
  induction s as [|c s IH]; [done|].
  change (String.length (String c s)) with (S (String.length s)).
  rewrite <-cons_seq, <-fmap_S_seq, fmap_cons, <-list_fmap_compose.
  change (charCodes (String c s)) with (Z.of_N (N_of_ascii c) :: charCodes s).
  f_equal.
  - unfold charCodeAt. simpl.
    pose proof (N_ascii_bounded c). apply Z.mod_small. lia.
  - rewrite <-IH. apply list_fmap_ext. intros ? i ?. done.
Qed.

(** The loop that copies the character codes behind the first byte. *)
Lemma copy_loop (code : nat → Z) (first : Z) (n : nat) : ∀ (m : nat) (rest : list Z),
  length rest = n → (m ≤ n)%nat →
  foldl (λ binaryMessage i, <[(i + 1)%nat := code i]> binaryMessage)
        (first :: rest) (seq 0 m)
  = first :: (code <$> seq 0 m) ++ drop m rest.
Proof.
  induction m as [|m IH]; intros rest Hlen Hm.
  - simpl. by rewrite drop_0.
  - rewrite seq_S, foldl_snoc, IH by lia. simpl.
    replace (m + 1)%nat with (S m) by lia. simpl. f_equal.
    rewrite fmap_app. simpl. rewrite <-app_assoc. simpl.
    rewrite insert_app_r_alt; rewrite length_fmap, length_seq; [|lia].
    replace (m - m)%nat with 0%nat by lia.
    destruct (drop m rest) as [|x rest'] eqn:Hdrop.
    + apply (f_equal length) in Hdrop. rewrite length_drop in Hdrop.
      simpl in Hdrop. lia.
    + simpl. do 2 f_equal.
      replace (S m) with (m + 1)%nat by lia.
      by rewrite <-(drop_drop rest 1 m), Hdrop.
Qed.

Section binary.
Variable JSON_stringify : MessageGraph → string.

(** What packMessageToBinary returns: one byte for the length of the
    accept type of the client's options, then the escaped text of the
    accept type of the message followed by its JSON text. *)
Lemma packMessageToBinary_frame message w msg a bag graph :
  messages w !! message = Some msg →
  Message.args msg = Some a →
  argbags w !! a = Some bag →
  reach message w = Some graph →
  packMessageToBinary JSON_stringify message w =
    Some (Z.of_nat (String.length (Options.accept (options w))) mod 256
          :: charCodes (unescape_encodeURIComponent (to_string (Args.accept bag)))
          ++ charCodes (unescape_encodeURIComponent (JSON_stringify graph))).
Proof.
  intros Hmsg Hargs Hbag Hgraph. unfold packMessageToBinary.
  rewrite Hmsg. simpl. rewrite Hargs. simpl. rewrite Hbag. simpl.
  rewrite Hgraph. simpl. f_equal.
  rewrite (copy_loop _ _ (String.length (unescape_encodeURIComponent
             (to_string (Args.accept bag) +:+ JSON_stringify graph))));
    [|by rewrite length_replicate|done].
  rewrite charCodeAt_seq, drop_ge by (rewrite length_replicate; lia).
  by rewrite app_nil_r, unescape_encodeURIComponent_app, charCodes_app.
Qed.

Lemma formatedMessage_binary message w msg a bag :
  messages w !! message = Some msg →
  Message.args msg = Some a →
  argbags w !! a = Some bag →
  Args.binary bag = Some true →
  formatedMessage JSON_stringify message w
  = Binary <$> packMessageToBinary JSON_stringify message w.
Proof.
  intros Hmsg Hargs Hbag Hbinary. unfold formatedMessage.
  rewrite Hmsg. simpl. rewrite Hargs. simpl. rewrite Hbag. simpl.
  by rewrite decide_True.
Qed.

(** C7 at the failing input.  The options of the client keep the default
    accept type, "application/json", and the argument bag of the message
    sets "text/plain" and the binary flag: the frame starts with 16, the
    length of "application/json", and goes on with the ten bytes of
    "text/plain". *)
Theorem binary_prefix_ignores_accept_of_message :
  ∃ command w graph,
    Sample.binary_plain = Some (command, w) ∧
    reach (Command.message command) w = Some graph ∧
    (Args.accept <$> graph_args graph) = Some (Some "text/plain") ∧
    (Args.binary <$> graph_args graph) = Some (Some true) ∧
    formatedMessage JSON_stringify (Command.message command) w =
      Some (Binary
              (16 :: charCodes "text/plain"
                  ++ charCodes (unescape_encodeURIComponent (JSON_stringify graph)))) ∧
    String.length "text/plain" = 10%nat.
Proof.
  eexists _, _, _.
  split; [vm_compute; reflexivity|].
  split; [vm_compute; reflexivity|].
  split; [reflexivity|]. split; [reflexivity|]. split; [|reflexivity].
  erewrite formatedMessage_binary; [|reflexivity..].
  erewrite packMessageToBinary_frame; [|reflexivity..].
  reflexivity.
Qed.

End binary.

(** ** Submitting after the connection has closed *)

(** The walk of cancelPendingCommands makes calls only, on the world in
    which the table and the queue are empty. *)
Lemma forEach_calls (table : list (string * Command.t)) (error : Error) :
  ∀ keys w,
    ∃ events,
      left_by (forEach (λ key w,
                          command ← defined (JsObject.get key table) w;
                          emit_error (Command.messageStream command) error w)
                       keys w)
      = calls events w.
Proof.
  induction keys as [|key keys IH]; intros w; simpl.
  - by exists [].
  - destruct (JsObject.get key table) as [command|]; simpl; [|by exists []].
    rewrite emit_error_listened. case_decide; simpl.
    + destruct (IH (call (stream_emit_error (Command.messageStream command)
                            error) w)) as [events ->].
      by exists (stream_emit_error (Command.messageStream command) error
                   :: events).
    + by exists [stream_emit_error (Command.messageStream command) error].
Qed.

Lemma cancelPendingCommands_calls reason w :
  ∃ events,
    left_by (cancelPendingCommands reason w)
    = calls events (set_commands [] (set_queue [] w)).
Proof. unfold cancelPendingCommands. apply forEach_calls. Qed.

Lemma cancelPendingCommands_connected reason w :
  connected (left_by (cancelPendingCommands reason w)) = connected w.
Proof.
  destruct (cancelPendingCommands_calls reason w) as [events ->].
  by destruct (calls_this events (set_commands [] (set_queue [] w)))
    as (_ & _ & -> & _).
Qed.

(** No handler resets [connected]: it survives the close event. *)
Lemma handleDisconnection_connected event w :
  connected (left_by (handleDisconnection event w)) = connected w.
Proof. apply cancelPendingCommands_connected. Qed.

Lemma sendCommand_connected JSON_stringify command msg data w :
  messages w !! Command.message command = Some msg →
  connected w = true →
  formatedMessage JSON_stringify (Command.message command) w = Some data →
  ∃ w', sendCommand JSON_stringify command w = returns w' ∧
    queue w' = queue w ∧
    trace w' = trace w ++ [ws_send data].
Proof.
  intros Hmsg Hconn Hdata. rewrite (sendCommand_spec _ _ _ _ Hmsg). cbv zeta.
  rewrite Hconn, Hdata. eexists. split; [reflexivity|]. by case_decide.
Qed.

(** C6 at the failing input.  The connection opens and closes; the script
    submitted next is handed to [ws.send] at once and never enters the
    queue, since [connected] is still true. *)
Theorem submit_after_close_sends :
  ∃ w w' data,
    Sample.closed_after_open = returns w ∧
    connected w = true ∧
    queue w = [] ∧
    Sample.submit "1+1" None w = returns w' ∧
    queue w' = [] ∧
    trace w' = trace w ++ [ws_send data].
Proof.
  eexists _, _, _.
  split; [vm_compute; reflexivity|].
  split; [reflexivity|]. split; [reflexivity|].
  split; [vm_compute; reflexivity|].
  split; reflexivity.
Qed.

(** ** Incremental results *)

Lemma through_data frame : through frame = Frame.result_data frame.
Proof. reflexivity. Qed.

Lemma observe_foldl s calls : ∀ seen,
  foldl (observe s) seen calls = seen ++ foldl (observe s) [] calls.
Proof.
  induction calls as [|e calls IH]; intros seen; simpl.
  - by rewrite app_nil_r.
  - rewrite IH. rewrite (IH (observe s [] e)). rewrite app_assoc. f_equal.
    destruct e as [| | |s' [frame|]|s' e]; simpl; try by rewrite app_nil_r.
    all: case_decide; by rewrite ?app_nil_r.
Qed.

Lemma consumer_events_app s calls1 calls2 :
  consumer_events s (calls1 ++ calls2)
  = consumer_events s calls1 ++ consumer_events s calls2.
Proof.
  unfold consumer_events. rewrite foldl_app. apply observe_foldl.
Qed.

Lemma observe_raw_foldl s calls : ∀ seen,
  foldl (observe_raw s) seen calls = seen ++ foldl (observe_raw s) [] calls.
Proof.
  induction calls as [|e calls IH]; intros seen; simpl.
  - by rewrite app_nil_r.
  - rewrite IH. rewrite (IH (observe_raw s [] e)). rewrite app_assoc. f_equal.
    destruct e as [| | |s' [frame|]|s' e]; simpl; try by rewrite app_nil_r.
    all: case_decide; by rewrite ?app_nil_r.
Qed.

Lemma raw_events_app s calls1 calls2 :
  raw_events s (calls1 ++ calls2) = raw_events s calls1 ++ raw_events s calls2.
Proof.
  unfold raw_events. rewrite foldl_app. apply observe_raw_foldl.
Qed.

(** ** Building a command *)

Lemma same_client_refl w : same_client w w.
Proof. by repeat split. Qed.

Lemma same_client_trans w1 w2 w3 :
  same_client w1 w2 → same_client w2 w3 → same_client w1 w3.
Proof.
  unfold same_client. intros (?&?&?&?&?&?&?&?) (?&?&?&?&?&?&?&?).
  repeat split; congruence.
Qed.

Lemma defaults_for_args_inv script bindings message w args w' :
  defaults_for_args script bindings message w = Some (args, w') →
  same_client w w' ∧ messages w' = messages w ∧
  bindingsObjects w' = bindingsObjects w ∧
  uuids w' = uuids w ∧ streams w' = streams w ∧
  args = match overrides message w ≫= Message.args with
         | Some a => a
         | None => length (argbags w)
         end ∧
  (∀ a, a ≠ args → (a < length (argbags w))%nat →
        argbags w' !! a = argbags w !! a) ∧
  is_Some (argbags w' !! args).
Proof.
  unfold defaults_for_args, overrides. intros H.
  destruct message as [m|]; simpl in *.
  - destruct (messages w !! m) as [msg|] eqn:Hm; simpl in *; [|done].
    destruct (Message.args msg) as [a|] eqn:Ha; simpl in *.
    + destruct (argbags w !! a) as [bag|] eqn:Hbag; simpl in *; [|done].
      injection H as <- <-. simpl.
      split; [by repeat split|]. do 5 (split; [done|]).
      split; [intros a' Hne _; by rewrite list_lookup_insert_ne by congruence|].
      rewrite list_lookup_insert_eq; [done|]. by eapply lookup_lt_Some.
    + rewrite lookup_app_r, Nat.sub_diag in H by done.
      simpl in H. injection H as <- <-. simpl.
      split; [by repeat split|]. do 5 (split; [done|]).
      split.
      * intros a' Hne Hlt.
        by rewrite list_lookup_insert_ne, lookup_app_l by congruence.
      * rewrite list_lookup_insert_eq; [done|]. rewrite length_app. simpl. lia.
  - rewrite lookup_app_r, Nat.sub_diag in H by done.
    simpl in H. injection H as <- <-. simpl.
    split; [by repeat split|]. do 5 (split; [done|]).
    split.
    + intros a' Hne Hlt.
      by rewrite list_lookup_insert_ne, lookup_app_l by congruence.
    + rewrite list_lookup_insert_eq; [done|]. rewrite length_app. simpl. lia.
Qed.

Lemma defaults_for_message_inv guid args message w target w' :
  defaults_for_message guid args message w = Some (target, w') →
  same_client w w' ∧ argbags w' = argbags w ∧
  bindingsObjects w' = bindingsObjects w ∧
  uuids w' = uuids w ∧ streams w' = streams w ∧
  target = match message with Some m => m | None => length (messages w) end ∧
  (∀ r, r ≠ target → (r < length (messages w))%nat →
        messages w' !! r = messages w !! r) ∧
  ∃ msg', messages w' !! target = Some msg' ∧
    Message.requestId msg'
    = defaults_of (overrides message w ≫= Message.requestId) (Some guid) ∧
    Message.args msg'
    = defaults_of (overrides message w ≫= Message.args) (Some args).
Proof.
  unfold defaults_for_message, overrides. intros H.
  destruct message as [m|]; simpl in *.
  - destruct (messages w !! m) as [msg|] eqn:Hm; simpl in *; [|done].
    injection H as <- <-. simpl.
    split; [by repeat split|]. do 5 (split; [done|]).
    split; [intros r Hne _; by rewrite list_lookup_insert_ne by congruence|].
    eexists.
    split; [rewrite list_lookup_insert_eq; [reflexivity|by eapply lookup_lt_Some]|].
    by split.
  - rewrite lookup_app_r, Nat.sub_diag in H by done.
    simpl in H. injection H as <- <-. simpl.
    split; [by repeat split|]. do 5 (split; [done|]).
    split.
    + intros r Hne Hlt.
      by rewrite list_lookup_insert_ne, lookup_app_l by congruence.
    + eexists.
      split; [rewrite list_lookup_insert_eq;
                [reflexivity|rewrite length_app; simpl; lia]|].
      by split.
Qed.

Lemma session_of_inv message w w' :
  session_of message w = Some w' →
  same_client w w' ∧ bindingsObjects w' = bindingsObjects w ∧
  uuids w' = uuids w ∧ streams w' = streams w ∧
  (∀ r, r ≠ message → messages w' !! r = messages w !! r) ∧
  ∃ msg msg' a,
    messages w !! message = Some msg ∧
    messages w' !! message = Some msg' ∧
    Message.requestId msg' = Message.requestId msg ∧
    Message.args msg = Some a ∧
    (∀ a', a' ≠ a → argbags w' !! a' = argbags w !! a').
Proof.
  unfold session_of. intros H.
  destruct (messages w !! message) as [msg|] eqn:Hm; simpl in *; [|done].
  destruct (Message.args msg) as [a|] eqn:Ha; simpl in *; [|done].
  destruct (argbags w !! a) as [bag|] eqn:Hbag; simpl in *; [|done].
  injection H as <-. simpl.
  split; [by repeat split|]. do 3 (split; [done|]).
  split; [intros r Hne; by rewrite list_lookup_insert_ne by congruence|].
  eexists _, _, a. split; [done|].
  split; [rewrite list_lookup_insert_eq; [done|by eapply lookup_lt_Some]|].
  split; [done|]. split; [done|].
  intros a' Hne. by rewrite list_lookup_insert_ne by congruence.
Qed.

Lemma bindings_or_new_inv bindings w b w' :
  bindings_or_new bindings w = (b, w') →
  same_client w w' ∧ messages w' = messages w ∧ argbags w' = argbags w ∧
  uuids w' = uuids w ∧ streams w' = streams w ∧
  (∀ b' obj, bindingsObjects w !! b' = Some obj →
             bindingsObjects w' !! b' = Some obj).
Proof.
  unfold bindings_or_new. destruct bindings; intros [= <- <-]; simpl.
  - by repeat split.
  - split; [by repeat split|]. do 4 (split; [done|]).
    intros b' obj Hb'. by apply lookup_app_l_Some.
Qed.

Lemma overrides_messages message w w' :
  messages w' = messages w → overrides message w' = overrides message w.
Proof. unfold overrides. by intros ->. Qed.

Lemma defaults_for_args_streams script bindings message w args w' :
  defaults_for_args script bindings message w = Some (args, w') →
  pipes w' = pipes w ∧ listened w' = listened w.
Proof.
  unfold defaults_for_args. intros H.
  destruct message as [m|]; simpl in *.
  - destruct (messages w !! m) as [msg|]; simpl in *; [|done].
    destruct (Message.args msg) as [a|]; simpl in *.
    + destruct (argbags w !! a); simpl in *; [|done]. by injection H as <- <-.
    + destruct (_ !! _); simpl in *; [|done]. by injection H as <- <-.
  - destruct (_ !! _); simpl in *; [|done]. by injection H as <- <-.
Qed.

Lemma defaults_for_message_streams guid args message w target w' :
  defaults_for_message guid args message w = Some (target, w') →
  pipes w' = pipes w ∧ listened w' = listened w.
Proof.
  unfold defaults_for_message. intros H.
  destruct message as [m|]; simpl in *.
  - destruct (messages w !! m); simpl in *; [|done]. by injection H as <- <-.
  - destruct (_ !! _); simpl in *; [|done]. by injection H as <- <-.
Qed.

Lemma session_of_streams message w w' :
  session_of message w = Some w' →
  pipes w' = pipes w ∧ listened w' = listened w.
Proof.
  unfold session_of. intros H.
  destruct (messages w !! message) as [msg|]; simpl in *; [|done].
  destruct (Message.args msg) as [a|]; simpl in *; [|done].
  destruct (argbags w !! a); simpl in *; [|done]. by injection H as <-.
Qed.

Section build.
Variable uuid_v1 : nat → string.

Lemma buildCommand_streams script bindings message w command w' :
  buildCommand uuid_v1 script bindings message w = Some (command, w') →
  pipes w' = pipes w ∧ listened w' = listened w.
Proof.
  unfold buildCommand. intros H.
  destruct (bindings_or_new bindings w) as [b w1] eqn:H1.
  assert (Hw1 : pipes w1 = pipes w ∧ listened w1 = listened w)
    by (unfold bindings_or_new in H1; destruct bindings; by injection H1 as _ <-).
  destruct Hw1 as [<- <-].
  match type of H with
  | context [defaults_for_args ?s ?b ?m ?w2] =>
      destruct (defaults_for_args s b m w2) as [[args w3]|] eqn:H3;
        simpl in H; [|done]
  end.
  apply defaults_for_args_streams in H3 as [Hp3 Hl3]. simpl in Hp3, Hl3.
  destruct (defaults_for_message _ args message w3) as [[target w4]|] eqn:H4;
    simpl in H; [|done].
  apply defaults_for_message_streams in H4 as [Hp4 Hl4].
  destruct (useSession w4).
  - destruct (session_of target w4) as [w5|] eqn:H5; simpl in H; [|done].
    injection H as _ <-. apply session_of_streams in H5 as [-> ->].
    by rewrite Hp4, Hl4, Hp3, Hl3.
  - injection H as _ <-. by rewrite Hp4, Hl4, Hp3, Hl3.
Qed.

Lemma buildCommand_inv script bindings message w command w' :
  buildCommand uuid_v1 script bindings message w = Some (command, w') →
  Command.message command
  = match message with Some m => m | None => length (messages w) end ∧
  Command.messageStream command = streams w ∧
  same_client w w' ∧ uuids w' = S (uuids w) ∧ streams w' = S (streams w) ∧
  (∀ b obj, bindingsObjects w !! b = Some obj →
            bindingsObjects w' !! b = Some obj) ∧
  (∀ r, r ≠ Command.message command → (r < length (messages w))%nat →
        messages w' !! r = messages w !! r) ∧
  (∃ msg', messages w' !! Command.message command = Some msg' ∧
     Message.requestId msg'
     = defaults_of (overrides message w ≫= Message.requestId)
                   (Some (uuid_v1 (uuids w)))) ∧
  (∀ a, (a < length (argbags w))%nat →
        overrides message w ≫= Message.args ≠ Some a →
        argbags w' !! a = argbags w !! a).
Proof.
  unfold buildCommand. intros H.
  destruct (bindings_or_new bindings w) as [b w1] eqn:H1.
  apply bindings_or_new_inv in H1 as (Hc1 & Hm1 & Ha1 & Hu1 & Hs1 & Hb1).
  set (text := match script with
               | ScriptText source => source
               | ScriptFunction fn => extractFunctionBody fn
               end) in H.
  set (w2 := set_uuids (S (uuids (set_streams (S (streams w1)) w1)))
               (set_streams (S (streams w1)) w1)) in H.
  destruct (defaults_for_args text b message w2) as [[args w3]|] eqn:H3;
    simpl in H; [|done].
  apply defaults_for_args_inv in H3
    as (Hc3 & Hm3 & Hb3 & Hu3 & Hs3 & Hargs & Ha3 & _).
  destruct (defaults_for_message _ args message w3) as [[target w4]|] eqn:H4;
    simpl in H; [|done].
  apply defaults_for_message_inv in H4
    as (Hc4 & Ha4 & Hb4 & Hu4 & Hs4 & Htarget & Hm4 & msg4 & Hmsg4 & Hid4 & Hargs4).
  assert (Hov3 : overrides message w3 = overrides message w)
    by (apply overrides_messages; rewrite Hm3; exact Hm1).
  assert (Hov2 : overrides message w2 = overrides message w)
    by (apply overrides_messages; exact Hm1).
  rewrite Hov3 in Hid4, Hargs4. rewrite Hov2 in Hargs.
  assert (Hlen3 : length (messages w3) = length (messages w))
    by (rewrite Hm3; simpl; by rewrite Hm1).
  assert (Hargs4' : Message.args msg4 = Some args).
  { rewrite Hargs4, Hargs. by destruct (overrides message w ≫= Message.args). }
  assert (Hcw4 : same_client w w4).
  { eapply same_client_trans; [exact Hc1|].
    eapply same_client_trans; [|exact Hc4].
    eapply same_client_trans; [|exact Hc3]. by repeat split. }
  assert (Hother : ∀ a, (a < length (argbags w))%nat →
            overrides message w ≫= Message.args ≠ Some a → a ≠ args).
  { intros a Hlt Hne ->. rewrite Hargs in Hlt, Hne.
    destruct (overrides message w ≫= Message.args); [done|].
    simpl in Hlt. rewrite Ha1 in Hlt. lia. }
  assert (Hbags4 : ∀ a, (a < length (argbags w))%nat →
            overrides message w ≫= Message.args ≠ Some a →
            argbags w4 !! a = argbags w !! a).
  { intros a Hlt Hne. rewrite Ha4, Ha3; simpl; rewrite ?Ha1; by eauto. }
  assert (Hmsgs4 : ∀ r, r ≠ target → (r < length (messages w))%nat →
            messages w4 !! r = messages w !! r).
  { intros r Hne Hlt. rewrite Hm4, Hm3 by (by rewrite ?Hlen3). simpl.
    by rewrite Hm1. }
  assert (Htarget' : target
    = match message with Some m => m | None => length (messages w) end)
    by (rewrite Htarget, Hlen3; done).
  destruct (useSession w4) eqn:Hsession.
  - destruct (session_of target w4) as [w5|] eqn:H5; simpl in H; [|done].
    injection H as <- <-. simpl.
    apply session_of_inv in H5
      as (Hc5 & Hb5 & Hu5 & Hs5 & Hm5 & msg & msg5 & a & Hmsg & Hmsg5 & Hid5 & Ha & Ha5).
    rewrite Hmsg4 in Hmsg. injection Hmsg as <-.
    rewrite Hargs4' in Ha. injection Ha as <-.
    split; [done|]. split; [by rewrite Hs1|].
    split; [exact (same_client_trans _ _ _ Hcw4 Hc5)|].
    split; [by rewrite Hu5, Hu4, Hu3; unfold w2; simpl; rewrite Hu1|].
    split; [by rewrite Hs5, Hs4, Hs3; unfold w2; simpl; rewrite Hs1|].
    split; [intros b' obj Hb'; rewrite Hb5, Hb4, Hb3; unfold w2; simpl; by apply Hb1|].
    split; [intros r Hne Hlt; rewrite Hm5 by done; by apply Hmsgs4|].
    split; [exists msg5; split; [done|]; by rewrite Hid5, Hid4, Hu1|].
    intros a Hlt Hne. rewrite Ha5 by eauto. by apply Hbags4.
  - injection H as <- <-. simpl.
    split; [done|]. split; [by rewrite Hs1|].
    split; [done|].
    split; [by rewrite Hu4, Hu3; unfold w2; simpl; rewrite Hu1|].
    split; [by rewrite Hs4, Hs3; unfold w2; simpl; rewrite Hs1|].
    split; [intros b' obj Hb'; rewrite Hb4, Hb3; unfold w2; simpl; by apply Hb1|].
    split; [done|].
    split; [exists msg4; split; [done|]; by rewrite Hid4, Hu1|].
    done.
Qed.

End build.

Lemma sample_uuid_v1_inj i j : Sample.uuid_v1 i = Sample.uuid_v1 j → i = j.
Proof.
  unfold Sample.uuid_v1. intros H.
  apply (inj (String.app "uuid-")) in H. by apply (inj pretty) in H.
Qed.

Section requestId.
Variable uuid_v1 : nat → string.

(** C10, as the code has it.  buildCommand leaves the fields of the
    client and the calls made untouched, and changes no object that
    exists already other than the overrides it was handed and the
    argument bag of these overrides. *)
Theorem buildCommand_frame script bindings message w command w' :
  buildCommand uuid_v1 script bindings message w = Some (command, w') →
  same_client w w' ∧
  (∀ b obj, bindingsObjects w !! b = Some obj →
            bindingsObjects w' !! b = Some obj) ∧
  (∀ r msg, messages w !! r = Some msg → message ≠ Some r →
            messages w' !! r = Some msg) ∧
  (∀ a bag, argbags w !! a = Some bag →
            overrides message w ≫= Message.args ≠ Some a →
            argbags w' !! a = Some bag).
Proof.
  intros Hbuild.
  apply buildCommand_inv in Hbuild
    as (Ht & _ & Hclient & _ & _ & Hobjs & Hmsgs & _ & Hbags).
  split; [done|]. split; [done|]. split.
  - intros r msg Hr Hne. rewrite Hmsgs; [done| |by eapply lookup_lt_Some].
    rewrite Ht. destruct message as [m|]; [congruence|].
    apply lookup_lt_Some in Hr. lia.
  - intros a bag Ha Hne. rewrite Hbags; [done|by eapply lookup_lt_Some|done].
Qed.

End requestId.

(** C9, as the claim has it, fails: two calls whose overrides both set the
    request identifier "r" give two commands with that same identifier,
    which is none of the tokens generated during the calls. *)
Lemma overridden_requestId_repeats :
  ∃ first second w c1 w1 c2 w2 msg1 msg2,
    Sample.two_overrides = (first, second, w) ∧
    buildCommand Sample.uuid_v1 (ScriptText "1+1") None (Some first) w
    = Some (c1, w1) ∧
    buildCommand Sample.uuid_v1 (ScriptText "2+2") None (Some second) w1
    = Some (c2, w2) ∧
    Command.message c1 ≠ Command.message c2 ∧
    messages w2 !! Command.message c1 = Some msg1 ∧
    messages w2 !! Command.message c2 = Some msg2 ∧
    Message.requestId msg1 = Some "r" ∧
    Message.requestId msg2 = Some "r" ∧
    Message.requestId msg1 = Message.requestId msg2 ∧
    Sample.uuid_v1 (uuids w) ≠ "r" ∧ Sample.uuid_v1 (uuids w1) ≠ "r".
Proof.
  eexists _, _, _, _, _, _, _, _, _.
  split; [vm_compute; reflexivity|].
  split; [vm_compute; reflexivity|].
  split; [vm_compute; reflexivity|].
  split; [simpl; lia|].
  split; [reflexivity|]. split; [reflexivity|].
  split; [reflexivity|]. split; [reflexivity|]. split; [reflexivity|].
  split; vm_compute; discriminate.
Qed.

(** An instance: a command built from overrides with an argument bag. *)
Lemma buildCommand_frame_witness :
  ∃ m a w command w',
    Sample.overrides_with_args = (m, a, w) ∧
    buildCommand Sample.uuid_v1 (ScriptText "1+1") None (Some m) w
    = Some (command, w') ∧
    same_client w w' ∧
    (∀ b obj, bindingsObjects w !! b = Some obj →
              bindingsObjects w' !! b = Some obj) ∧
    (∀ r msg, messages w !! r = Some msg → Some m ≠ Some r →
              messages w' !! r = Some msg) ∧
    (∀ a bag, argbags w !! a = Some bag →
              overrides (Some m) w ≫= Message.args ≠ Some a →
              argbags w' !! a = Some bag).
Proof.
  eexists _, _, _, _, _.
  split; [vm_compute; reflexivity|].
  match goal with |- buildCommand _ _ _ _ ?w = _ ∧ _ => set (world := w) end.
  assert (Hbuild :
    buildCommand Sample.uuid_v1 (ScriptText "1+1") None (Some 0%nat) world
    = Some ({| Command.message := 0%nat; Command.messageStream := 0%nat |},
            default world
              (snd <$> buildCommand Sample.uuid_v1 (ScriptText "1+1") None
                         (Some 0%nat) world)))
    by (vm_compute; reflexivity).
  split; [exact Hbuild|].
  exact (buildCommand_frame Sample.uuid_v1 _ _ _ _ _ _ Hbuild).
Defined.

(** C10, as the claim has it, fails: the caller's overrides and their
    argument bag are filled in place. *)
Lemma buildCommand_fills_overrides :
  ∃ m a w command w',
    Sample.overrides_with_args = (m, a, w) ∧
    buildCommand Sample.uuid_v1 (ScriptText "1+1") None (Some m) w
    = Some (command, w') ∧
    messages w !! m
    = Some {| Message.requestId := None; Message.processor := None;
              Message.op := None; Message.args := Some a |} ∧
    messages w' !! m
    = Some {| Message.requestId := Some "uuid-0"; Message.processor := Some "";
              Message.op := Some "eval"; Message.args := Some a |} ∧
    argbags w !! a
    = Some {| Args.gremlin := None; Args.bindings := None;
              Args.accept := None; Args.language := None;
              Args.binary := Some true; Args.session := None |} ∧
    argbags w' !! a
    = Some {| Args.gremlin := Some "1+1"; Args.bindings := Some 0%nat;
              Args.accept := Some "application/json";
              Args.language := Some "gremlin-groovy";
              Args.binary := Some true; Args.session := None |} ∧
    messages w' !! m ≠ messages w !! m ∧
    argbags w' !! a ≠ argbags w !! a.
Proof.
  eexists _, _, _, _, _.
  split; [vm_compute; reflexivity|].
  split; [vm_compute; reflexivity|].
  do 4 (split; [reflexivity|]).
  split; vm_compute; discriminate.
Qed.

(** ** The keys of the table stay unique *)

Lemma set_keys {V : Type} (k : string) (v : V) (o : list (string * V)) :
  (JsObject.set k v o).*1 = if decide (k ∈ o.*1) then o.*1 else o.*1 ++ [k].
Proof.
  induction o as [|[k' v'] o IH].
  - simpl. destruct (decide (k ∈ [])) as [Hin|]; [|done].
    by apply elem_of_nil in Hin.
  - cbn [JsObject.set]. destruct (decide (k' = k)) as [->|Hne].
    + rewrite !fmap_cons. cbn [fst]. by rewrite decide_True by left.
    + rewrite !fmap_cons, IH. cbn [fst].
      destruct (decide (k ∈ o.*1)) as [Hin|Hin].
      * by rewrite decide_True by (by right).
      * rewrite decide_False; [done|].
        intros [?|?]%elem_of_cons; congruence.
Qed.

Lemma set_NoDup {V : Type} (k : string) (v : V) (o : list (string * V)) :
  NoDup o.*1 → NoDup (JsObject.set k v o).*1.
Proof.
  intros Hnd. rewrite set_keys. case_decide; [done|].
  apply NoDup_app. split; [done|]. split; [|apply NoDup_singleton].
  intros x Hx ->%list_elem_of_singleton. done.
Qed.

Lemma delete_NoDup {V : Type} (k : string) (o : list (string * V)) :
  NoDup o.*1 → NoDup (JsObject.delete k o).*1.
Proof.
  unfold JsObject.delete. induction o as [|[k' v'] o IH]; [done|].
  simpl. intros [Hk' Hnd]%NoDup_cons. rewrite filter_cons. simpl.
  case_decide; [|by apply IH].
  simpl. apply NoDup_cons. split; [|by apply IH].
  intros (kv & -> & Hkv%list_elem_of_filter)%list_elem_of_fmap.
  apply Hk'. apply list_elem_of_fmap. exists kv. by destruct Hkv.
Qed.

Lemma dispatch_left requestId rawMessage w :
  left_by (dispatch requestId rawMessage w)
  = match JsObject.get (property_key requestId) (commands w) with
    | None => w
    | Some command =>
        let code := Frame.status_code rawMessage in
        let s := Command.messageStream command in
        let removed :=
          set_commands (JsObject.delete (property_key requestId) (commands w)) w in
        if decide (code = 200) then
          call (stream_push s None) (call (stream_push s (Some rawMessage)) removed)
        else if decide (code = 204) then call (stream_push s None) removed
        else if decide (code = 206) then call (stream_push s (Some rawMessage)) w
        else call (stream_emit_error s
                     {| error_message :=
                          Frame.status_message rawMessage +:+ " (Error "
                            +:+ pretty code +:+ ")";
                        error_details := None |}) removed
    end.
Proof.
  unfold dispatch. destruct (JsObject.get _ _) as [command|].
  - cbv zeta. repeat case_decide; try done. apply left_by_emit_error.
  - by case_decide.
Qed.

Lemma handleMessage_dispatch rawMessage w :
  handleMessage rawMessage w
  = dispatch
      match lastAuthenticationReqId w with
      | Some id => id
      | None => Frame.requestId rawMessage
      end rawMessage
      match lastAuthenticationReqId w with
      | Some _ => set_lastAuthenticationReqId None w
      | None => w
      end.
Proof. unfold handleMessage. by destruct (lastAuthenticationReqId w). Qed.

Lemma handleMessage_keys_unique rawMessage w :
  keys_unique w → keys_unique (left_by (handleMessage rawMessage w)).
Proof.
  unfold keys_unique. intros Hnd. rewrite handleMessage_dispatch, dispatch_left.
  set (w0 := match lastAuthenticationReqId w with
             | Some _ => set_lastAuthenticationReqId None w
             | None => w
             end).
  assert (Hw0 : commands w0 = commands w)
    by (unfold w0; by destruct (lastAuthenticationReqId w)).
  destruct (JsObject.get _ _); [|by rewrite Hw0].
  cbv zeta. repeat case_decide; simpl; rewrite ?Hw0; by try apply delete_NoDup.
Qed.

Lemma cancelPendingCommands_empties reason w :
  queue (left_by (cancelPendingCommands reason w)) = [] ∧
  commands (left_by (cancelPendingCommands reason w)) = [].
Proof.
  destruct (cancelPendingCommands_calls reason w) as [events ->].
  by destruct (calls_this events (set_commands [] (set_queue [] w)))
    as (-> & -> & _).
Qed.

Lemma handleDisconnection_keys_unique event w :
  keys_unique (left_by (handleDisconnection event w)).
Proof.
  unfold keys_unique, handleDisconnection.
  destruct (cancelPendingCommands_empties
    {| Reason.message := "WebSocket closed"; Reason.details := event |} w)
    as [_ ->].
  apply NoDup_nil_2.
Qed.

Section keys.
Variable uuid_v1 : nat → string.
Variable JSON_stringify : MessageGraph → string.

Lemma sendMessage_left message w :
  left_by (sendMessage JSON_stringify message w)
  = match formatedMessage JSON_stringify message w with
    | Some data => call (ws_send data) w
    | None => w
    end.
Proof. rewrite sendMessage_spec. by destruct (formatedMessage _ _ _). Qed.

Lemma sendCommand_undefined command w :
  messages w !! Command.message command = None →
  sendCommand JSON_stringify command w = throws w.
Proof. unfold sendCommand. by intros ->. Qed.

Lemma sendCommand_keys_unique command w :
  keys_unique w → keys_unique (left_by (sendCommand JSON_stringify command w)).
Proof.
  unfold keys_unique. intros Hnd.
  destruct (messages w !! Command.message command) as [msg|] eqn:Hmsg.
  - rewrite (sendCommand_commands _ _ _ _ Hmsg). by apply set_NoDup.
  - by rewrite sendCommand_undefined.
Qed.

(** The loop of executeQueue sends some of the commands that wait and
    leaves the others, the last ones, in the queue. *)
Lemma executeQueue_loop_inv : ∀ pending w,
  queue w = pending →
  ∃ payloads remaining,
    remaining `suffix_of` pending ∧
    left_by (executeQueue_loop JSON_stringify pending w)
    = calls (ws_send <$> payloads) (set_queue remaining w).
Proof.
  induction pending as [|command rest IH]; intros w Hq; simpl.
  - exists [], []. split; [done|]. by rewrite <-Hq, set_queue_id.
  - rewrite sendMessage_spec. destruct (formatedMessage _ _ _) as [data|]; simpl.
    + destruct (IH (call (ws_send data) (set_queue rest w)) eq_refl)
        as (payloads & remaining & Hsuffix & ->).
      exists (data :: payloads), remaining.
      split; [by apply suffix_cons_r|done].
    + exists [], rest. split; [by apply suffix_cons_r|done].
Qed.

Lemma onConnectionOpen_inv w :
  ∃ payloads remaining,
    remaining `suffix_of` queue w ∧
    left_by (onConnectionOpen JSON_stringify w)
    = calls (client_emit "connect" :: (ws_send <$> payloads))
            (set_queue remaining (set_connected true w)).
Proof.
  unfold onConnectionOpen, executeQueue.
  destruct (executeQueue_loop_inv
              (queue (call (client_emit "connect") (set_connected true w)))
              (call (client_emit "connect") (set_connected true w)) eq_refl)
    as (payloads & remaining & Hsuffix & ->).
  by exists payloads, remaining.
Qed.

Lemma onConnectionOpen_keys_unique w :
  keys_unique w → keys_unique (left_by (onConnectionOpen JSON_stringify w)).
Proof.
  unfold keys_unique. destruct (onConnectionOpen_inv w)
    as (payloads & remaining & _ & ->).
  by destruct (calls_this (client_emit "connect" :: (ws_send <$> payloads))
                 (set_queue remaining (set_connected true w)))
    as (_ & -> & _).
Qed.

(** What a call of messageStream leaves: the world as it is when
    buildCommand throws, what sendCommand leaves otherwise. *)
Lemma messageStream_left script bindings message w :
  left_by (snd <$> messageStream uuid_v1 JSON_stringify script bindings message w)
  = match buildCommand uuid_v1 script bindings message w with
    | Some (command, w1) => left_by (sendCommand JSON_stringify command w1)
    | None => w
    end.
Proof.
  unfold messageStream.
  destruct (buildCommand _ _ _ _ _) as [[command w1]|]; simpl; [|done].
  by destruct (sendCommand _ _ _).
Qed.

(** [stream] registers the pipeline when messageStream has returned. *)
Lemma stream_left script bindings message w :
  left_by (snd <$> stream uuid_v1 JSON_stringify script bindings message w)
  = match buildCommand uuid_v1 script bindings message w with
    | Some (command, w1) =>
        match sendCommand JSON_stringify command w1 with
        | returns w2 =>
            set_pipes (pipes w2 ++ [Command.messageStream command]) w2
        | throws w2 => w2
        end
    | None => w
    end.
Proof.
  unfold stream, messageStream.
  destruct (buildCommand _ _ _ _ _) as [[command w1]|]; simpl; [|done].
  by destruct (sendCommand _ _ _).
Qed.

Lemma messageStream_keys_unique script bindings message w :
  keys_unique w →
  keys_unique
    (left_by (snd <$> messageStream uuid_v1 JSON_stringify script bindings
                        message w)).
Proof.
  intros Hnd. rewrite messageStream_left.
  destruct (buildCommand _ _ _ _ _) as [[command w1]|] eqn:Hbuild; [|done].
  apply buildCommand_inv in Hbuild as (_ & _ & Hclient & _).
  apply sendCommand_keys_unique.
  unfold keys_unique. destruct Hclient as (_ & _ & _ & _ & _ & -> & _). done.
Qed.

End keys.

(** * More of the file *)

(** ** extractFunctionBody *)

Lemma length_append (a b : string) :
  String.length (a +:+ b) = (String.length a + String.length b)%nat.
Proof. induction a as [|c a IH]; simpl; [done|]. by rewrite IH. Qed.

Lemma append_assoc (a b c : string) : (a +:+ b) +:+ c = a +:+ (b +:+ c).
Proof.
  induction a as [|x a IH]; [done|].
  change (String x ((a +:+ b) +:+ c) = String x (a +:+ (b +:+ c))).
  by rewrite IH.
Qed.

Lemma substring_prefix (b c : string) :
  String.substring 0 (String.length b) (b +:+ c) = b.
Proof.
  induction b as [|x b IH]; simpl; [destruct c; reflexivity|].
  f_equal. exact IH.
Qed.

Lemma substring_middle (a b c : string) :
  String.substring (String.length a) (String.length b) (a +:+ b +:+ c) = b.
Proof.
  induction a as [|x a IH]; simpl; [exact (substring_prefix b c)|exact IH].
Qed.

Lemma indexOf_from_bounds c s : ∀ i,
  indexOf_from i c s = -1 ∨
  i ≤ indexOf_from i c s < i + Z.of_nat (String.length s).
Proof.
  induction s as [|c' s IH]; intros i; simpl; [by left|].
  case_decide; [right; lia|].
  destruct (IH (i + 1)) as [->|?]; [by left|right; lia].
Qed.

Lemma indexOf_from_app c pre rest : ∀ i,
  0 ≤ i → indexOf_from i c pre = -1 →
  indexOf_from i c (pre +:+ String c rest) = i + Z.of_nat (String.length pre).
Proof.
  induction pre as [|c' pre IH]; intros i Hi Hpre; simpl in *.
  - rewrite decide_True by done. lia.
  - case_decide; [lia|]. rewrite IH by (done || lia). lia.
Qed.

Lemma lastIndexOf_from_cases c s :
  (∀ i last, last < i → lastIndexOf_from i last c s = last) ∨
  (∀ i last, last < i → i ≤ lastIndexOf_from i last c s).
Proof.
  induction s as [|c' s [IH|IH]]; simpl.
  - by left.
  - destruct (decide (c' = c)).
    + right. intros i last Hlt. rewrite IH by lia. lia.
    + left. intros i last Hlt. rewrite IH by lia. done.
  - right. intros i last Hlt.
    destruct (decide (c' = c)); (etrans; [|apply IH]); lia.
Qed.

Lemma lastIndexOf_from_absent c s :
  lastIndexOf c s = -1 → ∀ i last, last < i → lastIndexOf_from i last c s = last.
Proof.
  unfold lastIndexOf. intros Hs.
  destruct (lastIndexOf_from_cases c s) as [H|H]; [done|].
  specialize (H 0 (-1)). lia.
Qed.

Lemma lastIndexOf_from_app c a b : ∀ i last,
  lastIndexOf_from i last c (a +:+ b)
  = lastIndexOf_from (i + Z.of_nat (String.length a))
      (lastIndexOf_from i last c a) c b.
Proof.
  induction a as [|c' a IH]; intros i last; simpl.
  - f_equal. lia.
  - rewrite IH. f_equal. lia.
Qed.

Lemma substring_in_range (from to : Z) (s : string) :
  0 ≤ from ≤ to → to ≤ Z.of_nat (String.length s) →
  substring from to s
  = String.substring (Z.to_nat from) (Z.to_nat (to - from)) s.
Proof. intros ??. unfold substring. f_equal; lia. Qed.

(** X1. The text between the first opening brace and the last closing
    brace is what extractFunctionBody returns. *)
Theorem extractFunctionBody_between (pre body post : string) :
  indexOf "{" pre = -1 →
  lastIndexOf "}" post = -1 →
  extractFunctionBody (pre +:+ "{" +:+ body +:+ "}" +:+ post) = body.
Proof.
  intros Hpre Hpost. unfold extractFunctionBody.
  assert (Hfirst : indexOf "{" (pre +:+ "{" +:+ body +:+ "}" +:+ post)
                   = Z.of_nat (String.length pre)).
  { unfold indexOf. change ("{" +:+ body +:+ "}" +:+ post)
      with (String "{" (body +:+ "}" +:+ post)).
    by rewrite indexOf_from_app. }
  assert (Hlast : lastIndexOf "}" (pre +:+ "{" +:+ body +:+ "}" +:+ post)
                  = Z.of_nat (String.length pre + 1 + String.length body)).
  { unfold lastIndexOf.
    replace (pre +:+ "{" +:+ body +:+ "}" +:+ post)
      with ((pre +:+ "{" +:+ body) +:+ String "}" post).
    2:{ rewrite !append_assoc. reflexivity. }
    rewrite lastIndexOf_from_app. simpl.
    rewrite lastIndexOf_from_absent by (done || lia).
    rewrite !length_append. simpl. lia. }
  rewrite Hfirst, Hlast.
  assert (Hlen : String.length (pre +:+ "{" +:+ body +:+ "}" +:+ post)
                 = (String.length pre + S (String.length body
                                           + S (String.length post)))%nat).
  { rewrite length_append.
    change ("{" +:+ body +:+ "}" +:+ post)
      with (String "{" (body +:+ String "}" post)).
    simpl. by rewrite length_append. }
  rewrite substring_in_range by lia.
  replace (Z.to_nat (Z.of_nat (String.length pre) + 1))
    with (String.length (pre +:+ "{")) by (rewrite length_append; simpl; lia).
  replace (Z.to_nat _) with (String.length body) by lia.
  replace (pre +:+ "{" +:+ body +:+ "}" +:+ post)
    with ((pre +:+ "{") +:+ body +:+ ("}" +:+ post)).
  2:{ rewrite !append_assoc. reflexivity. }
  apply substring_middle.
Qed.

(** An instance: the text of a function expression. *)
Lemma extractFunctionBody_between_witness :
  indexOf "{" "function () " = -1 ∧ lastIndexOf "}" "" = -1 ∧
  extractFunctionBody ("function () " +:+ "{" +:+ " g.V() " +:+ "}" +:+ "")
  = " g.V() ".
Proof.
  split; [reflexivity|]. split; [reflexivity|].
  apply (extractFunctionBody_between "function () " " g.V() " "");
    vm_compute; reflexivity.
Defined.

(** X2. A text without a closing brace gives its beginning, up to and
    with the first opening brace; without any brace it gives the empty
    string. *)
Theorem extractFunctionBody_unclosed (fn : string) :
  lastIndexOf "}" fn = -1 →
  extractFunctionBody fn
  = String.substring 0 (Z.to_nat (indexOf "{" fn + 1)) fn ∧
  (indexOf "{" fn = -1 → extractFunctionBody fn = "").
Proof.
  intros Hlast. unfold extractFunctionBody, substring. rewrite Hlast.
  assert (Hbound : indexOf "{" fn = -1 ∨
                   0 ≤ indexOf "{" fn < Z.of_nat (String.length fn))
    by (unfold indexOf; destruct (indexOf_from_bounds "{" fn 0);
        [by left|right; lia]).
  replace (Z.max 0 (Z.min (-1) (Z.of_nat (String.length fn)))) with 0 by lia.
  replace (Z.max 0 (Z.min (indexOf "{" fn + 1) (Z.of_nat (String.length fn))))
    with (indexOf "{" fn + 1) by lia.
  replace (Z.min (indexOf "{" fn + 1) 0) with 0 by lia.
  replace (Z.max (indexOf "{" fn + 1) 0 - 0) with (indexOf "{" fn + 1) by lia.
  split; [done|]. intros ->. simpl. by destruct fn.
Qed.

(** An instance: an arrow function with an expression for a body. *)
Lemma extractFunctionBody_unclosed_witness :
  lastIndexOf "}" "x => x" = -1 ∧ extractFunctionBody "x => x" = "".
Proof.
  split; [reflexivity|].
  apply (extractFunctionBody_unclosed "x => x"); reflexivity.
Defined.

(** ** The bytes of a binary frame *)

Lemma seven_bit_escape (s : string) :
  seven_bit s = true → unescape_encodeURIComponent s = s.
Proof.
  induction s as [|c s IH]; simpl; [done|].
  intros [Hc Hs]%andb_true_iff. rewrite Hc. f_equal. by apply IH.
Qed.

Lemma escape_head (c : ascii) (s : string) :
  ∃ c' rest, unescape_encodeURIComponent (String c s) = String c' rest.
Proof. simpl. destruct (N_of_ascii c <? 128)%N; eauto. Qed.

Lemma N_of_ascii_inj (c1 c2 : ascii) : N_of_ascii c1 = N_of_ascii c2 → c1 = c2.
Proof.
  intros H. by rewrite <-(ascii_N_embedding c1), <-(ascii_N_embedding c2), H.
Qed.

(** X3. The escaping loses nothing: two texts with the same escaped form
    are the same text. *)
Theorem unescape_encodeURIComponent_inj (s1 s2 : string) :
  unescape_encodeURIComponent s1 = unescape_encodeURIComponent s2 → s1 = s2.
Proof.
  revert s2. induction s1 as [|c1 s1 IH]; intros [|c2 s2] H.
  - done.
  - destruct (escape_head c2 s2) as (? & ? & Heq). rewrite Heq in H. done.
  - destruct (escape_head c1 s1) as (? & ? & Heq). rewrite Heq in H. done.
  - simpl in H.
    pose proof (N_ascii_bounded c1) as Hb1.
    pose proof (N_ascii_bounded c2) as Hb2.
    assert (Hdiv : ∀ n, (n < 256 → 192 + n / 64 < 256)%N).
    { intros n Hn. assert (n / 64 < 4)%N by (apply N.Div0.div_lt_upper_bound; lia).
      lia. }
    assert (Hmod : ∀ n, (128 + n mod 64 < 256)%N).
    { intros n. pose proof (N.mod_upper_bound n 64). lia. }
    destruct (N_of_ascii c1 <? 128)%N eqn:H1, (N_of_ascii c2 <? 128)%N eqn:H2.
    + injection H as -> H. f_equal. by apply IH.
    + injection H as Hc _. apply (f_equal N_of_ascii) in Hc.
      rewrite N_ascii_embedding in Hc by auto.
      apply N.ltb_lt in H1. exfalso. clear Hdiv Hmod.
      generalize dependent (N_of_ascii c2 / 64)%N. intros. lia.
    + injection H as Hc _. apply (f_equal N_of_ascii) in Hc.
      rewrite N_ascii_embedding in Hc by auto.
      apply N.ltb_lt in H2. exfalso. clear Hdiv Hmod.
      generalize dependent (N_of_ascii c1 / 64)%N. intros. lia.
    + injection H as Hhi Hlo H.
      apply (f_equal N_of_ascii) in Hhi, Hlo.
      rewrite !N_ascii_embedding in Hhi, Hlo by auto.
      f_equal; [|by apply IH]. apply N_of_ascii_inj.
      rewrite (N.div_mod (N_of_ascii c1) 64), (N.div_mod (N_of_ascii c2) 64)
        by done.
      lia.
Qed.

Lemma unescape_encodeURIComponent_inj_witness :
  String "233"%char "t" = String "233"%char "t".
Proof.
  exact (unescape_encodeURIComponent_inj
           (String "233"%char "t") (String "233"%char "t") eq_refl).
Defined.

Section frames.
Variable JSON_stringify : MessageGraph → string.

(** X4. A binary frame has one element more than the escaped text of the
    accept type and the JSON text; every element is a byte; the first is
    the length of the accept type of the options, modulo 256. *)
Theorem packMessageToBinary_bytes message w frame :
  packMessageToBinary JSON_stringify message w = Some frame →
  ∃ bag graph,
    (msg ← messages w !! message; a ← Message.args msg; argbags w !! a)
    = Some bag ∧
    reach message w = Some graph ∧
    let serializedMessage :=
      unescape_encodeURIComponent
        (to_string (Args.accept bag) +:+ JSON_stringify graph) in
    length frame = S (String.length serializedMessage) ∧
    frame !! 0%nat
    = Some (Z.of_nat (String.length (Options.accept (options w))) mod 256) ∧
    drop 1 frame = charCodes serializedMessage ∧
    Forall (λ b, 0 ≤ b < 256) frame.
Proof.
  intros Hpack.
  destruct (messages w !! message) as [msg|] eqn:Hmsg;
    [|by unfold packMessageToBinary in Hpack; rewrite Hmsg in Hpack].
  destruct (Message.args msg) as [a|] eqn:Hargs;
    [|by unfold packMessageToBinary in Hpack;
         rewrite Hmsg in Hpack; simpl in Hpack; rewrite Hargs in Hpack].
  destruct (argbags w !! a) as [bag|] eqn:Hbag;
    [|by unfold packMessageToBinary in Hpack;
         rewrite Hmsg in Hpack; simpl in Hpack; rewrite Hargs in Hpack;
         simpl in Hpack; rewrite Hbag in Hpack].
  destruct (reach message w) as [graph|] eqn:Hgraph;
    [|by unfold packMessageToBinary in Hpack;
         rewrite Hmsg in Hpack; simpl in Hpack; rewrite Hargs in Hpack;
         simpl in Hpack; rewrite Hbag in Hpack; simpl in Hpack;
         rewrite Hgraph in Hpack].
  rewrite (packMessageToBinary_frame _ _ _ _ _ _ _ Hmsg Hargs Hbag Hgraph)
    in Hpack.
  injection Hpack as <-.
  exists bag, graph. simpl. rewrite Hargs. simpl. rewrite Hbag.
  split; [done|]. split; [done|].
  rewrite <-charCodes_app, <-unescape_encodeURIComponent_app.
  split; [by rewrite length_charCodes|]. split; [done|]. split; [done|].
  constructor.
  - apply Z.mod_pos_bound. lia.
  - unfold charCodes. apply Forall_fmap, Forall_true. intros c. simpl.
    pose proof (N_ascii_bounded c). lia.
Qed.

(** X5. When the argument bag of the message carries the accept type of
    the options, of code units below 128 and shorter than 256, the first
    byte is the number of bytes of the accept type, which follow it, and
    the escaped JSON text comes after them. *)
Theorem packMessageToBinary_accept_of_client message w msg a bag graph :
  messages w !! message = Some msg →
  Message.args msg = Some a →
  argbags w !! a = Some bag →
  reach message w = Some graph →
  Args.accept bag = Some (Options.accept (options w)) →
  seven_bit (Options.accept (options w)) = true →
  (String.length (Options.accept (options w)) < 256)%nat →
  ∃ frame n,
    packMessageToBinary JSON_stringify message w = Some frame ∧
    frame !! 0%nat = Some (Z.of_nat n) ∧
    take n (drop 1 frame) = charCodes (Options.accept (options w)) ∧
    length (charCodes (Options.accept (options w))) = n ∧
    drop (S n) frame
    = charCodes (unescape_encodeURIComponent (JSON_stringify graph)).
Proof.
  intros Hmsg Hargs Hbag Hgraph Haccept Hascii Hshort.
  rewrite (packMessageToBinary_frame _ _ _ _ _ _ _ Hmsg Hargs Hbag Hgraph).
  rewrite Haccept. simpl. rewrite (seven_bit_escape _ Hascii).
  eexists _, (String.length (Options.accept (options w))).
  split; [reflexivity|].
  split; [simpl; f_equal; apply Z.mod_small; lia|].
  simpl. rewrite drop_0.
  split; [by rewrite take_app_length' by (by rewrite length_charCodes)|].
  split; [apply length_charCodes|].
  by rewrite drop_app_length' by (by rewrite length_charCodes).
Qed.

End frames.

(** An instance: the first request of a client, sent as a binary frame. *)
Lemma packMessageToBinary_bytes_witness :
  ∃ command w frame,
    Sample.binary_plain = Some (command, w) ∧
    packMessageToBinary Sample.JSON_stringify (Command.message command) w
    = Some frame ∧
    length frame = 165%nat ∧ frame !! 0%nat = Some 16 ∧
    Forall (λ b, 0 ≤ b < 256) frame.
Proof.
  eexists _, _, _.
  split; [vm_compute; reflexivity|].
  match goal with |- packMessageToBinary _ ?m ?w = _ ∧ _ =>
    set (world := w); set (message := m) end.
  assert (Hpack :
    packMessageToBinary Sample.JSON_stringify message world
    = Some (default [] (packMessageToBinary Sample.JSON_stringify message world)))
    by (vm_compute; reflexivity).
  split; [exact Hpack|].
  destruct (packMessageToBinary_bytes Sample.JSON_stringify _ _ _ Hpack)
    as (bag & graph & Hbag & Hgraph & Hlen & Hfirst & _ & Hbytes).
  split; [vm_compute; reflexivity|]. split; [vm_compute; reflexivity|].
  exact Hbytes.
Defined.

(** An instance: overrides that ask for a binary frame and leave the
    accept type to the client. *)
Lemma packMessageToBinary_accept_of_client_witness :
  ∃ command w graph,
    buildCommand Sample.uuid_v1 (ScriptText "g.V()") None
      (Some Sample.overrides_with_args.1.1) Sample.overrides_with_args.2
    = Some (command, w) ∧
    reach (Command.message command) w = Some graph ∧
    seven_bit (Options.accept (options w)) = true ∧
    ∃ frame,
      packMessageToBinary Sample.JSON_stringify (Command.message command) w
      = Some frame ∧
      frame !! 0%nat = Some 16 ∧
      take 16 (drop 1 frame) = charCodes "application/json" ∧
      drop 17 frame
      = charCodes (unescape_encodeURIComponent (Sample.JSON_stringify graph)).
Proof.
  eexists _, _, _.
  split; [vm_compute; reflexivity|].
  match goal with |- reach ?m ?w = _ ∧ _ =>
    set (world := w); set (message := m) end.
  assert (Hgraph : reach message world
                   = Some (default (Build_MessageGraph Message.empty None None)
                             (reach message world)))
    by (vm_compute; reflexivity).
  split; [exact Hgraph|]. split; [reflexivity|].
  destruct (packMessageToBinary_accept_of_client Sample.JSON_stringify
              message world _ 0%nat _ _ eq_refl eq_refl eq_refl Hgraph
              eq_refl eq_refl)
    as (frame & n & Hpack & Hfirst & Htake & Hn & Hdrop);
    [vm_compute; lia|].
  assert (n = 16%nat) as -> by (rewrite <-Hn; reflexivity).
  exists frame. by repeat split.
Defined.

(** ** What a frame changes *)

(** X6. A frame changes nothing but the entry of the table under its
    request identifier and the slot of the authentication override; the
    calls it makes are all on the MessageStream of the command found
    there.  This holds of the world the handler leaves, whether it
    returns or throws. *)
Theorem handleMessage_confined rawMessage w w' :
  left_by (handleMessage rawMessage w) = w' →
  let key := property_key match lastAuthenticationReqId w with
                          | Some id => id
                          | None => Frame.requestId rawMessage
                          end in
  queue w' = queue w ∧ connected w' = connected w ∧
  messages w' = messages w ∧ argbags w' = argbags w ∧
  bindingsObjects w' = bindingsObjects w ∧
  streams w' = streams w ∧ uuids w' = uuids w ∧
  (∀ k, k ≠ key →
        JsObject.get k (commands w') = JsObject.get k (commands w)) ∧
  ∃ new, trace w' = trace w ++ new ∧
    ∀ e, e ∈ new →
      ∃ command, JsObject.get key (commands w) = Some command ∧
                 event_stream e = Some (Command.messageStream command).
Proof.
  rewrite handleMessage_dispatch, dispatch_left. intros <-.
  set (id := match lastAuthenticationReqId w with
             | Some id => id
             | None => Frame.requestId rawMessage
             end).
  set (w0 := match lastAuthenticationReqId w with
             | Some _ => set_lastAuthenticationReqId None w
             | None => w
             end).
  assert (Hw0 : queue w0 = queue w ∧ connected w0 = connected w ∧
                messages w0 = messages w ∧ argbags w0 = argbags w ∧
                bindingsObjects w0 = bindingsObjects w ∧
                streams w0 = streams w ∧ uuids w0 = uuids w ∧
                commands w0 = commands w ∧ trace w0 = trace w)
    by (unfold w0; destruct (lastAuthenticationReqId w); done).
  destruct Hw0 as (<- & <- & <- & <- & <- & <- & <- & <- & <-). cbv zeta.
  destruct (JsObject.get (property_key id) (commands w0)) as [command|] eqn:Hget.
  - repeat case_decide; simpl; do 7 (split; [done|]).
    all: split; [intros k Hk; by rewrite ?get_delete_ne|].
    all: eexists; split; [by rewrite <-?app_assoc|].
    all: intros e He; exists command; split; [done|].
    all: repeat (apply elem_of_cons in He as [->|He]; [done|]).
    all: by apply elem_of_nil in He.
  - do 8 (split; [done|]).
    exists []. split; [by rewrite app_nil_r|]. by intros e ?%elem_of_nil.
Qed.

(** An instance: the success frame for the one waiting command. *)
Lemma handleMessage_confined_witness :
  ∃ w w', Sample.pending = returns w ∧
    handleMessage Sample.success w = returns w' ∧
    queue w' = queue w ∧ connected w' = connected w.
Proof.
  eexists _, _. split; [vm_compute; reflexivity|].
  match goal with |- handleMessage _ ?w = _ ∧ _ => set (world := w) end.
  assert (H : handleMessage Sample.success world
              = returns (left_by (handleMessage Sample.success world)))
    by (vm_compute; reflexivity).
  split; [exact H|].
  destruct (handleMessage_confined Sample.success world _ eq_refl)
    as (Hq & Hc & _).
  by split.
Defined.

(** ** Frames in a row *)

Lemma handleMessages_partial s k command : ∀ frames w,
  lastAuthenticationReqId w = None →
  JsObject.get k (commands w) = Some command →
  Command.messageStream command = s →
  Forall (λ frame, property_key (Frame.requestId frame) = k ∧
                   Frame.status_code frame = 206) frames →
  handleMessages frames w
  = returns (calls ((λ frame, stream_push s (Some frame)) <$> frames) w).
Proof.
  induction frames as [|frame frames IH]; intros w Hlast Hget Hs Hall; [done|].
  apply Forall_cons in Hall as [[Hk Hcode] Hall].
  simpl. rewrite handleMessage_dispatch, Hlast.
  rewrite <-Hk in Hget. rewrite (dispatch_found _ frame _ _ Hget). cbv zeta.
  rewrite Hcode, Hs. simpl.
  rewrite IH; [done|done| |done|done].
  simpl. by rewrite Hk in Hget.
Qed.

Lemma consumer_events_frames s frames :
  consumer_events s ((λ frame, stream_push s (Some frame)) <$> frames)
  = consumer_data <$> concat (Frame.result_data <$> frames).
Proof.
  induction frames as [|frame frames IH]; [done|].
  rewrite !fmap_cons.
  etrans; [apply (consumer_events_app s [stream_push s (Some frame)])|].
  rewrite IH. simpl. rewrite fmap_app. f_equal.
  unfold consumer_events. simpl. by rewrite decide_True.
Qed.

Lemma handleMessages_app frames1 : ∀ frames2 w,
  handleMessages (frames1 ++ frames2) w
  = handleMessages frames1 w ≫= handleMessages frames2.
Proof.
  induction frames1 as [|f frames1 IH]; intros frames2 w; simpl; [done|].
  destruct (handleMessage f w); simpl; [apply IH|done].
Qed.

(** Partial frames and the success frame after them, for a command of
    the table while no authentication is pending. *)
Lemma handleMessages_answer partial final k command w :
  lastAuthenticationReqId w = None →
  JsObject.get k (commands w) = Some command →
  Forall (λ frame, property_key (Frame.requestId frame) = k ∧
                   Frame.status_code frame = 206) partial →
  property_key (Frame.requestId final) = k →
  Frame.status_code final = 200 →
  let s := Command.messageStream command in
  let pushes := (λ frame, stream_push s (Some frame)) <$> partial in
  handleMessages (partial ++ [final]) w
  = returns (call (stream_push s None)
               (call (stream_push s (Some final))
                  (set_commands (JsObject.delete k (commands w))
                     (calls pushes w)))).
Proof.
  intros Hlast Hget Hpartial Hk Hcode s pushes.
  rewrite handleMessages_app.
  rewrite (handleMessages_partial _ k command partial w Hlast Hget eq_refl Hpartial).
  fold s. fold pushes.
  destruct (calls_this pushes w) as (_ & Hc & _ & Hl & _).
  simpl. rewrite handleMessage_dispatch, Hl, Hlast.
  rewrite <-Hc, <-Hk in Hget.
  rewrite (dispatch_found _ final _ _ Hget). cbv zeta. rewrite Hcode. simpl.
  by rewrite Hk, Hc.
Qed.

(** X7. Partial frames for a waiting command, then its success frame,
    while no authentication is pending: the frames are pushed to the
    MessageStream of the command in the order of arrival, null is pushed
    after the last, and the command has left the table. *)
Theorem partial_frames_then_success partial final k command w :
  lastAuthenticationReqId w = None →
  JsObject.get k (commands w) = Some command →
  Forall (λ frame, property_key (Frame.requestId frame) = k ∧
                   Frame.status_code frame = 206) partial →
  property_key (Frame.requestId final) = k →
  Frame.status_code final = 200 →
  ∃ w', handleMessages (partial ++ [final]) w = returns w' ∧
    JsObject.get k (commands w') = None ∧
    commands w' = JsObject.delete k (commands w) ∧
    trace w' = trace w
      ++ ((λ frame, stream_push (Command.messageStream command) (Some frame))
            <$> partial ++ [final])
      ++ [stream_push (Command.messageStream command) None].
Proof.
  intros Hlast Hget Hpartial Hk Hcode.
  rewrite (handleMessages_answer _ _ _ _ _ Hlast Hget Hpartial Hk Hcode).
  eexists. split; [reflexivity|]. simpl.
  rewrite calls_trace, get_delete_eq.
  split; [done|]. split; [done|].
  rewrite fmap_app, <-!app_assoc. done.
Qed.

(** An instance: two partial frames and the success frame. *)
Lemma partial_frames_then_success_witness :
  ∃ w,
    Sample.pending = returns w ∧
    ∃ w',
      handleMessages
        ([ {| Frame.requestId := Some "uuid-0"; Frame.status_code := 206;
              Frame.status_message := ""; Frame.result_data := [JNumber 1];
              Frame.status_code_safe := eq_refl |};
           {| Frame.requestId := Some "uuid-0"; Frame.status_code := 206;
              Frame.status_message := ""; Frame.result_data := [];
              Frame.status_code_safe := eq_refl |} ]
         ++ [Sample.success]) w = returns w' ∧
      JsObject.get "uuid-0" (commands w') = None.
Proof.
  eexists. split; [vm_compute; reflexivity|].
  match goal with |- ∃ _, handleMessages _ ?w = _ ∧ _ => set (world := w) end.
  destruct (partial_frames_then_success
    [ {| Frame.requestId := Some "uuid-0"; Frame.status_code := 206;
         Frame.status_message := ""; Frame.result_data := [JNumber 1];
         Frame.status_code_safe := eq_refl |};
      {| Frame.requestId := Some "uuid-0"; Frame.status_code := 206;
         Frame.status_message := ""; Frame.result_data := [];
         Frame.status_code_safe := eq_refl |} ]
    Sample.success "uuid-0"
    {| Command.message := 0%nat; Command.messageStream := 0%nat |} world)
    as (w' & Hw' & Hnone & _); [reflexivity|reflexivity| |reflexivity|reflexivity|].
  { repeat constructor. }
  exists w'. by split.
Defined.

(** X8. While no authentication is pending, partial frames for a command
    whose stream was returned by [stream], and the success frame after
    them, show in that stream as the values of their data, one event per
    value in the order of arrival, followed by the end of the stream. *)
Theorem partial_frames_streamed partial final k command w :
  lastAuthenticationReqId w = None →
  JsObject.get k (commands w) = Some command →
  Command.messageStream command ∈ pipes w →
  Forall (λ frame, property_key (Frame.requestId frame) = k ∧
                   Frame.status_code frame = 206) partial →
  property_key (Frame.requestId final) = k →
  Frame.status_code final = 200 →
  ∃ w', handleMessages (partial ++ [final]) w = returns w' ∧
    emitted (Command.messageStream command) w'
    = emitted (Command.messageStream command) w
      ++ (consumer_data <$> concat (Frame.result_data <$> partial ++ [final]))
      ++ [consumer_end].
Proof.
  intros Hlast Hget Hpipe Hpartial Hk Hcode.
  rewrite (handleMessages_answer _ _ _ _ _ Hlast Hget Hpartial Hk Hcode).
  set (s := Command.messageStream command) in *.
  set (pushes := (λ frame, stream_push s (Some frame)) <$> partial).
  eexists. split; [reflexivity|]. unfold emitted. simpl.
  destruct (calls_streams pushes w) as (_ & -> & _).
  rewrite !decide_True by done.
  rewrite calls_trace, <-!app_assoc, !consumer_events_app.
  unfold pushes. rewrite consumer_events_frames.
  rewrite fmap_app, concat_app, fmap_app, <-!app_assoc. simpl.
  rewrite app_nil_r. do 2 f_equal.
  unfold consumer_events. simpl. by rewrite !decide_True.
Qed.

(** An instance: a partial frame with two values, then the success
    frame with one, for the script handed to [stream]. *)
Lemma partial_frames_streamed_witness :
  ∃ w',
    lastAuthenticationReqId Run.unheard = None ∧
    1%nat ∈ pipes Run.unheard ∧
    handleMessages
      ([ {| Frame.requestId := Some "uuid-1"; Frame.status_code := 206;
            Frame.status_message := "";
            Frame.result_data := [JNumber 1; JNumber 3];
            Frame.status_code_safe := eq_refl |} ]
       ++ [ {| Frame.requestId := Some "uuid-1"; Frame.status_code := 200;
               Frame.status_message := ""; Frame.result_data := [JNumber 2];
               Frame.status_code_safe := eq_refl |} ]) Run.unheard
    = returns w' ∧
    emitted 1%nat w'
    = emitted 1%nat Run.unheard
      ++ [consumer_data (JNumber 1); consumer_data (JNumber 3);
          consumer_data (JNumber 2)]
      ++ [consumer_end].
Proof.
  assert (Hpipe : 1%nat ∈ pipes Run.unheard)
    by (apply (bool_decide_unpack _); vm_compute; reflexivity).
  destruct (partial_frames_streamed
    [ {| Frame.requestId := Some "uuid-1"; Frame.status_code := 206;
         Frame.status_message := "";
         Frame.result_data := [JNumber 1; JNumber 3];
         Frame.status_code_safe := eq_refl |} ]
    {| Frame.requestId := Some "uuid-1"; Frame.status_code := 200;
       Frame.status_message := ""; Frame.result_data := [JNumber 2];
       Frame.status_code_safe := eq_refl |}
    "uuid-1"
    {| Command.message := 1%nat; Command.messageStream := 1%nat |} Run.unheard)
    as (w' & Hw' & Hemitted);
    [vm_compute; reflexivity|vm_compute; reflexivity|exact Hpipe
    |repeat constructor|reflexivity|reflexivity|].
  exists w'. split; [vm_compute; reflexivity|]. split; [exact Hpipe|].
  split; [exact Hw'|exact Hemitted].
Defined.

(** X9. A frame with another status than 200, 204 and 206, for a command
    whose stream was returned by [stream], shows in that stream as one
    error, whose message is "Error: " followed by the message of the
    server and its code; handleMessage returns when the caller listens
    for the errors of the stream, and throws otherwise. *)
Theorem server_error_streamed rawMessage w requestId command :
  requestId = match lastAuthenticationReqId w with
              | Some id => id
              | None => Frame.requestId rawMessage
              end →
  JsObject.get (property_key requestId) (commands w) = Some command →
  Command.messageStream command ∈ pipes w →
  Frame.status_code rawMessage ≠ 200 →
  Frame.status_code rawMessage ≠ 204 →
  Frame.status_code rawMessage ≠ 206 →
  ∃ w',
    handleMessage rawMessage w
    = (if decide (Command.messageStream command ∈ listened w)
       then returns w' else throws w') ∧
    emitted (Command.messageStream command) w'
    = emitted (Command.messageStream command) w
      ++ [consumer_error
            {| error_message :=
                 "Error: " +:+ Frame.status_message rawMessage +:+ " (Error "
                   +:+ pretty (Frame.status_code rawMessage) +:+ ")";
               error_details := None |}].
Proof.
  intros -> Hget Hpipe H200 H204 H206. rewrite handleMessage_dispatch.
  set (w0 := match lastAuthenticationReqId w with
             | Some _ => set_lastAuthenticationReqId None w
             | None => w
             end).
  assert (Hw0 : commands w0 = commands w ∧ trace w0 = trace w ∧
                listened w0 = listened w ∧ pipes w0 = pipes w)
    by (unfold w0; destruct (lastAuthenticationReqId w); done).
  destruct Hw0 as (Hc & Ht & Hl & Hp). rewrite <-Hc in Hget.
  rewrite (dispatch_found _ rawMessage _ _ Hget). cbv zeta.
  rewrite !decide_False by done. rewrite emit_error_listened. simpl.
  rewrite Hl. eexists. split; [reflexivity|].
  unfold emitted. simpl. rewrite Hp, Ht, !decide_True by done.
  rewrite consumer_events_app. f_equal.
  unfold consumer_events. simpl. rewrite decide_True by done.
  unfold rewrap. cbn [error_message]. rewrite decide_False; [done|].
  by destruct (Frame.status_message rawMessage).
Qed.

(** An instance: the server rejects the script handed to [stream],
    whose errors the caller listens for. *)
Lemma server_error_streamed_witness :
  ∃ w',
    1%nat ∈ pipes Run.listening ∧
    handleMessage
      {| Frame.requestId := Some "uuid-1"; Frame.status_code := 597;
         Frame.status_message := "No such property"; Frame.result_data := [];
         Frame.status_code_safe := eq_refl |}
      Run.listening = returns w' ∧
    emitted 1%nat w'
    = emitted 1%nat Run.listening
      ++ [consumer_error {| error_message := "Error: No such property (Error 597)";
                            error_details := None |}].
Proof.
  assert (Hpipe : 1%nat ∈ pipes Run.listening)
    by (apply (bool_decide_unpack _); vm_compute; reflexivity).
  destruct (server_error_streamed
    {| Frame.requestId := Some "uuid-1"; Frame.status_code := 597;
       Frame.status_message := "No such property"; Frame.result_data := [];
       Frame.status_code_safe := eq_refl |}
    Run.listening (Some "uuid-1")
    {| Command.message := 1%nat; Command.messageStream := 1%nat |})
    as (w' & Hw' & Hemitted);
    [vm_compute; reflexivity|vm_compute; reflexivity|exact Hpipe
    |done|done|done|].
  exists w'. split; [exact Hpipe|].
  split; [|exact Hemitted].
  rewrite Hw'. apply decide_True.
  apply (bool_decide_unpack _). vm_compute. reflexivity.
Defined.

(** ** A command and its answer *)

Lemma delete_set_fresh {V : Type} (k : string) (v : V) (o : list (string * V)) :
  JsObject.get k o = None → JsObject.delete k (JsObject.set k v o) = o.
Proof.
  unfold JsObject.delete. induction o as [|[k' v'] o IH]; simpl.
  - intros _. rewrite filter_cons. simpl. by rewrite decide_False by (by intros ?).
  - destruct (decide (k' = k)) as [->|Hne]; [done|]. intros Hget.
    rewrite filter_cons. simpl. rewrite decide_True by done. by rewrite IH.
Qed.

Section answers.
Variable JSON_stringify : MessageGraph → string.

(** X10. A command goes through sendCommand under an identifier that the
    table does not hold, and a frame that ends it arrives: the table is
    what it was before the command, no override is pending and the
    MessageStream of the command has ended.  handleMessage returns on a
    frame of status 200 or 204, and on another one when the caller
    listens for the errors of the stream. *)
Theorem command_then_answer command msg w w1 rawMessage :
  messages w !! Command.message command = Some msg →
  lastAuthenticationReqId w = None →
  JsObject.get (property_key (Message.requestId msg)) (commands w) = None →
  left_by (sendCommand JSON_stringify command w) = w1 →
  Message.op msg = Some "authentication" ∨
    property_key (Frame.requestId rawMessage)
    = property_key (Message.requestId msg) →
  Frame.status_code rawMessage ≠ 206 →
  ∃ w2, left_by (handleMessage rawMessage w1) = w2 ∧
    (Frame.status_code rawMessage ∈ [200; 204] ∨
     Command.messageStream command ∈ listened w1 →
     handleMessage rawMessage w1 = returns w2) ∧
    commands w2 = commands w ∧
    lastAuthenticationReqId w2 = None ∧
    ended (Command.messageStream command) (drop (length (trace w1)) (trace w2)).
Proof.
  intros Hmsg Hlast Hfresh <- Hid Hcode.
  set (w1 := left_by (sendCommand JSON_stringify command w)).
  pose proof (sendCommand_commands JSON_stringify _ _ w Hmsg) as Hcommands.
  pose proof (sendCommand_lastAuthenticationReqId JSON_stringify _ _ w Hmsg)
    as Hslot.
  fold w1 in Hcommands, Hslot.
  rewrite handleMessage_dispatch.
  set (id := match lastAuthenticationReqId w1 with
             | Some id => id
             | None => Frame.requestId rawMessage
             end).
  set (w0 := match lastAuthenticationReqId w1 with
             | Some _ => set_lastAuthenticationReqId None w1
             | None => w1
             end).
  assert (Hkey : property_key id = property_key (Message.requestId msg)).
  { unfold id. destruct (decide (Message.op msg = Some "authentication")).
    - by rewrite Hslot.
    - rewrite Hslot, Hlast. by destruct Hid. }
  assert (Hw0 : commands w0 = commands w1 ∧ trace w0 = trace w1 ∧
                lastAuthenticationReqId w0 = None ∧ listened w0 = listened w1).
  { unfold w0. destruct (lastAuthenticationReqId w1) eqn:H1; [done|].
    by rewrite H1. }
  destruct Hw0 as (Hc0 & Ht0 & Hl0 & Hlistened).
  assert (Hget : JsObject.get (property_key id) (commands w0) = Some command)
    by (by rewrite Hkey, Hc0, Hcommands, get_set_eq).
  rewrite (dispatch_found _ rawMessage _ _ Hget). cbv zeta.
  rewrite Hkey, Hc0, Hcommands, delete_set_fresh by done.
  rewrite (decide_False (P := Frame.status_code rawMessage = 206)) by done.
  rewrite emit_error_listened. simpl. rewrite Hlistened.
  eexists. split; [reflexivity|].
  repeat case_decide; simpl; rewrite Ht0, <-?app_assoc, ?drop_app_length.
  all: split;
    [first [ done
           | intros [Hin|Hin]; [|done];
             repeat (apply elem_of_cons in Hin as [Hin|Hin]; [done|]);
             by apply elem_of_nil in Hin ]|].
  all: split; [done|]; split; [done|].
  all: first [ by (eexists; split; [left|])
             | by (eexists; split; [right; left|]) ].
Qed.


End answers.

Lemma command_then_answer_witness :
  ∃ command w w1,
    buildCommand Sample.uuid_v1 (ScriptText "1+1") None None Sample.client
      = Some (command, w) ∧
    sendCommand Sample.JSON_stringify command w = returns w1 ∧
    ∃ w2, handleMessage Sample.success w1 = returns w2 ∧
      commands w2 = commands w ∧
      lastAuthenticationReqId w2 = None ∧
      ended (Command.messageStream command)
            (drop (length (trace w1)) (trace w2)).
Proof.
  eexists _, _, _. split; [vm_compute; reflexivity|].
  split; [vm_compute; reflexivity|].
  match goal with
  | |- ∃ w2, handleMessage _ ?w1 = _ ∧ commands _ = commands ?w ∧ _ =>
      set (world1 := w1); set (world := w)
  end.
  destruct (command_then_answer Sample.JSON_stringify
    {| Command.message := 0%nat; Command.messageStream := 0%nat |}
    {| Message.requestId := Some "uuid-0"; Message.processor := Some "";
       Message.op := Some "eval"; Message.args := Some 0%nat |}
    world world1 Sample.success
    eq_refl eq_refl eq_refl eq_refl (or_intror eq_refl) ltac:(done))
    as (w2 & _ & Hreturns & Hrest).
  exists w2. split; [|exact Hrest].
  apply Hreturns. left. apply (bool_decide_unpack _). vm_compute. reflexivity.
Defined.


(** A frame that arrives while the table is empty makes no call and
    leaves the table and the queue as they are. *)
Lemma handleMessage_empty rawMessage w :
  commands w = [] →
  let key := property_key match lastAuthenticationReqId w with
                          | Some id => id
                          | None => Frame.requestId rawMessage
                          end in
  handleMessage rawMessage w
  = if decide (key ∈ Object_prototype)
    then throws (set_lastAuthenticationReqId None w)
    else returns (set_lastAuthenticationReqId None w).
Proof.
  intros Hc. unfold handleMessage.
  destruct (lastAuthenticationReqId w) as [id|] eqn:Hlast.
  - apply dispatch_missing. simpl. by rewrite Hc.
  - rewrite (set_lastAuthenticationReqId_id w Hlast).
    apply dispatch_missing. by rewrite Hc.
Qed.

Lemma delivered_empty frames : ∀ w,
  commands w = [] →
  trace (delivered frames w) = trace w ∧
  commands (delivered frames w) = [] ∧
  queue (delivered frames w) = queue w.
Proof.
  induction frames as [|frame frames IH]; intros w Hc; [done|].
  simpl. rewrite (handleMessage_empty frame w Hc). cbv zeta.
  destruct (IH (set_lastAuthenticationReqId None w) Hc) as (Ht & Hc' & Hq).
  by destruct (decide _).
Qed.

(** X12. Once the close event is handled, whether the handler returned
    or threw, the frames that arrive make no call, and the table and the
    queue stay empty; handleMessage returns on each of them, except that
    it throws on a frame whose request identifier, or the identifier of
    the authentication override when one is pending, names a member of
    [Object.prototype]. *)
Theorem frames_after_close event w frames :
  let w1 := left_by (handleDisconnection event w) in
  let w2 := delivered frames w1 in
  trace w2 = trace w1 ∧ commands w2 = [] ∧ queue w2 = [] ∧
  ∀ rawMessage,
    handleMessage rawMessage w2
    = if decide (property_key match lastAuthenticationReqId w2 with
                              | Some id => id
                              | None => Frame.requestId rawMessage
                              end ∈ Object_prototype)
      then throws (set_lastAuthenticationReqId None w2)
      else returns (set_lastAuthenticationReqId None w2).
Proof.
  intros w1 w2.
  destruct (cancelPendingCommands_empties
    {| Reason.message := "WebSocket closed"; Reason.details := event |} w)
    as [Hq Hc].
  fold (handleDisconnection event w) in Hq, Hc. fold w1 in Hq, Hc.
  destruct (delivered_empty frames w1 Hc) as (Ht2 & Hc2 & Hq2).
  fold w2 in Ht2, Hc2, Hq2.
  split; [done|]. split; [done|]. split; [congruence|].
  intros rawMessage. by apply handleMessage_empty.
Qed.

(** ** Invariants of a run *)

Lemma ended_app s calls1 calls2 :
  ended s (calls1 ++ calls2) ↔ ended s calls1 ∨ ended s calls2.
Proof.
  unfold ended. split.
  - intros (e & [?|?]%elem_of_app & ?); [left|right]; eauto.
  - intros [(e & ? & ?)|(e & ? & ?)]; exists e; rewrite elem_of_app; eauto.
Qed.

Lemma ended_nil s : ¬ ended s [].
Proof. by intros (e & ?%elem_of_nil & _). Qed.

Lemma orderly_snoc calls e :
  orderly calls →
  (∀ s, event_stream e = Some s → ¬ ended s calls) →
  orderly (calls ++ [e]).
Proof.
  intros Hcalls He before e' after s Heq Hs.
  destruct after as [|x after _] using rev_ind.
  - apply app_inj_tail in Heq as [<- <-]. by apply He.
  - rewrite app_comm_cons, app_assoc in Heq.
    apply app_inj_tail in Heq as [-> _]. by eapply Hcalls.
Qed.

Lemma orderly_quiet calls quiet :
  orderly calls → Forall (λ e, event_stream e = None) quiet →
  orderly (calls ++ quiet).
Proof.
  revert calls. induction quiet as [|e quiet IH]; intros calls Hcalls Hquiet.
  - by rewrite app_nil_r.
  - apply Forall_cons in Hquiet as [He Hquiet].
    replace (calls ++ e :: quiet) with ((calls ++ [e]) ++ quiet)
      by (by rewrite <-app_assoc).
    apply IH; [|done].
    apply orderly_snoc; [done|]. intros s. by rewrite He.
Qed.

Lemma ended_quiet s calls quiet :
  Forall (λ e, event_stream e = None) quiet →
  ended s (calls ++ quiet) → ended s calls.
Proof.
  intros Hquiet [H|(e & He & _ & Hs)]%ended_app; [done|].
  rewrite Forall_forall in Hquiet. by rewrite Hquiet in Hs.
Qed.

Lemma set_values {V : Type} (k : string) (v x : V) (o : list (string * V)) :
  x ∈ (JsObject.set k v o).*2 → x = v ∨ x ∈ o.*2.
Proof.
  induction o as [|[k' v'] o IH]; simpl.
  - intros ->%list_elem_of_singleton. by left.
  - destruct (decide (k' = k)); simpl.
    + intros [->|?]%elem_of_cons; [by left|right; by right].
    + intros [->|[->|?]%IH]%elem_of_cons;
        [right; by left|by left|right; by right].
Qed.

Lemma set_values_NoDup {V A : Type} (f : V → A) (k : string) (v : V)
    (o : list (string * V)) :
  NoDup (f <$> o.*2) → f v ∉ f <$> o.*2 →
  NoDup (f <$> (JsObject.set k v o).*2).
Proof.
  induction o as [|[k' v'] o IH]; simpl.
  - intros _ _. apply NoDup_singleton.
  - intros [Hv' Hnd]%NoDup_cons Hv%not_elem_of_cons.
    destruct Hv as [Hne Hv]. destruct (decide (k' = k)); simpl.
    + apply NoDup_cons. by split.
    + apply NoDup_cons. split; [|by apply IH].
      intros (x & Hx & [->|?]%set_values)%list_elem_of_fmap; [done|].
      apply Hv'. apply list_elem_of_fmap. eauto.
Qed.

Lemma delete_values {V : Type} (k : string) (x : V) (o : list (string * V)) :
  x ∈ (JsObject.delete k o).*2 → x ∈ o.*2.
Proof.
  unfold JsObject.delete.
  intros (kv & -> & [_ ?]%list_elem_of_filter)%list_elem_of_fmap.
  apply list_elem_of_fmap. eauto.
Qed.

Lemma delete_values_NoDup {V A : Type} (f : V → A) (k : string)
    (o : list (string * V)) :
  NoDup (f <$> o.*2) → NoDup (f <$> (JsObject.delete k o).*2).
Proof.
  unfold JsObject.delete. induction o as [|[k' v'] o IH]; [done|].
  simpl. intros [Hv' Hnd]%NoDup_cons. rewrite filter_cons. simpl.
  case_decide; [|by apply IH].
  simpl. apply NoDup_cons. split; [|by apply IH].
  intros (x & Hx & ?%(delete_values k))%list_elem_of_fmap.
  apply Hv'. apply list_elem_of_fmap. eauto.
Qed.

Lemma get_values {V : Type} (k : string) (v : V) (o : list (string * V)) :
  JsObject.get k o = Some v → v ∈ o.*2.
Proof.
  induction o as [|[k' v'] o IH]; simpl; [done|].
  case_decide; [intros [= ->]; by left|right; by apply IH].
Qed.

Lemma delete_values_other {V A : Type} (f : V → A) (k : string) (v x : V)
    (o : list (string * V)) :
  NoDup (f <$> o.*2) → JsObject.get k o = Some v →
  x ∈ (JsObject.delete k o).*2 → f x ≠ f v.
Proof.
  unfold JsObject.delete. induction o as [|[k' v'] o IH]; simpl; [done|].
  intros [Hv' Hnd]%NoDup_cons Hget. rewrite filter_cons. simpl.
  destruct (decide (k' = k)) as [->|Hne].
  - injection Hget as ->. rewrite decide_False by (by intros ?).
    intros ?%(delete_values k) Heq. apply Hv'. rewrite <-Heq.
    apply list_elem_of_fmap. eauto.
  - rewrite decide_True by done. simpl.
    intros [->|Hx]%elem_of_cons; [|by apply IH].
    intros Heq. apply Hv'. rewrite Heq. apply list_elem_of_fmap.
    exists v. split; [done|]. by eapply get_values.
Qed.

Lemma well_streamed_quiet w w' quiet :
  commands w' = commands w → (streams w ≤ streams w')%nat →
  trace w' = trace w ++ quiet →
  Forall (λ e, event_stream e = None) quiet →
  well_streamed w → well_streamed w'.
Proof.
  intros Hc Hs Ht Hquiet (Hkeys & Horder & Hnd & Hopen & Hbound).
  unfold well_streamed, keys_unique. rewrite Hc, Ht.
  split; [done|]. split; [by apply orderly_quiet|]. split; [done|]. split.
  - intros command [Hlt Hopen']%Hopen. split; [lia|].
    intros ?%ended_quiet; done.
  - intros e s [He|He]%elem_of_app Hes.
    + specialize (Hbound e s He Hes). lia.
    + rewrite Forall_forall in Hquiet. by rewrite Hquiet in Hes.
Qed.

Lemma well_streamed_register w w' key command quiet :
  commands w' = JsObject.set key command (commands w) →
  Command.messageStream command = streams w →
  streams w' = S (streams w) →
  trace w' = trace w ++ quiet →
  Forall (λ e, event_stream e = None) quiet →
  well_streamed w → well_streamed w'.
Proof.
  intros Hc Hcommand Hs Ht Hquiet (Hkeys & Horder & Hnd & Hopen & Hbound).
  assert (Hfresh : ¬ ended (streams w) (trace w)).
  { intros (e & He & _ & Hes). specialize (Hbound e _ He Hes). lia. }
  unfold well_streamed, keys_unique. rewrite Hc, Ht, Hs.
  split; [by apply set_NoDup|]. split; [by apply orderly_quiet|]. split.
  { apply set_values_NoDup; [done|]. rewrite Hcommand.
    intros (c & Hc' & [Hlt _]%Hopen)%list_elem_of_fmap. lia. }
  split.
  - intros c [->|Hin]%set_values.
    + rewrite Hcommand. split; [lia|]. intros ?%ended_quiet; done.
    + destruct (Hopen c Hin) as [Hlt Hopen']. split; [lia|].
      intros ?%ended_quiet; done.
  - intros e s [He|He]%elem_of_app Hes.
    + specialize (Hbound e s He Hes). lia.
    + rewrite Forall_forall in Hquiet. by rewrite Hquiet in Hes.
Qed.

Lemma well_streamed_dispatch id rawMessage w :
  well_streamed w → well_streamed (left_by (dispatch id rawMessage w)).
Proof.
  intros (Hkeys & Horder & Hnd & Hopen & Hbound). rewrite dispatch_left.
  destruct (JsObject.get (property_key id) (commands w)) as [command|] eqn:Hget;
    [|done].
  cbv zeta.
  set (s := Command.messageStream command).
  destruct (Hopen command (get_values _ _ _ Hget)) as [Hlt Hs].
  assert (Hpush : orderly (trace w ++ [stream_push s (Some rawMessage)])).
  { apply orderly_snoc; [done|]. by intros ? [= <-]. }
  assert (Hpushed : ¬ ended s (trace w ++ [stream_push s (Some rawMessage)])).
  { intros [?|(e & ->%list_elem_of_singleton & ? & _)]%ended_app; done. }
  assert (Hothers : ∀ c calls,
            c ∈ (JsObject.delete (property_key id) (commands w)).*2 →
            Forall (λ e, event_stream e = Some s) calls →
            (Command.messageStream c < streams w)%nat ∧
            ¬ ended (Command.messageStream c) (trace w ++ calls)).
  { intros c calls Hc Hcalls.
    pose proof (delete_values_other Command.messageStream _ _ _ _ Hnd Hget Hc)
      as Hne.
    apply delete_values in Hc. destruct (Hopen c Hc) as [Hlt' Hopen'].
    split; [done|]. intros [?|(e & He & _ & Hes)]%ended_app; [done|].
    rewrite Forall_forall in Hcalls. rewrite (Hcalls e He) in Hes.
    by injection Hes. }
  assert (Hbounds : ∀ calls e s',
            Forall (λ e, event_stream e = Some s) calls →
            e ∈ trace w ++ calls → event_stream e = Some s' →
            (s' < streams w)%nat).
  { intros calls e s' Hcalls [He|He]%elem_of_app Hes; [by eapply Hbound|].
    rewrite Forall_forall in Hcalls. rewrite (Hcalls e He) in Hes.
    by injection Hes as <-. }
  unfold well_streamed, keys_unique.
  repeat case_decide; simpl.
  - split; [by apply delete_NoDup|]. split.
    { apply orderly_snoc; [done|]. by intros ? [= <-]. }
    split; [by apply delete_values_NoDup|]. rewrite <-app_assoc. split.
    + intros c Hc. apply (Hothers c [_; _] Hc). by repeat constructor.
    + intros e s'. apply (Hbounds [_; _]). by repeat constructor.
  - split; [by apply delete_NoDup|]. split.
    { apply orderly_snoc; [done|]. by intros ? [= <-]. }
    split; [by apply delete_values_NoDup|]. split.
    + intros c Hc. apply (Hothers c [_] Hc). by repeat constructor.
    + intros e s'. apply (Hbounds [_]). by repeat constructor.
  - split; [done|]. split; [done|]. split; [done|]. split.
    + intros c Hc. destruct (Hopen c Hc) as [Hlt' Hopen']. split; [done|].
      intros [?|(e & ->%list_elem_of_singleton & ? & _)]%ended_app; done.
    + intros e s'. apply (Hbounds [_]). by repeat constructor.
  - split; [by apply delete_NoDup|]. split.
    { apply orderly_snoc; [done|]. by intros ? [= <-]. }
    split; [by apply delete_values_NoDup|]. split.
    + intros c Hc. apply (Hothers c [_] Hc). by repeat constructor.
    + intros e s'. apply (Hbounds [_]). by repeat constructor.
Qed.

Lemma orderly_errors (error : Error) : ∀ cancelled calls,
  orderly calls →
  NoDup (Command.messageStream <$> cancelled) →
  (∀ c, c ∈ cancelled → ¬ ended (Command.messageStream c) calls) →
  orderly (calls ++ ((λ c, stream_emit_error (Command.messageStream c) error)
                       <$> cancelled)).
Proof.
  induction cancelled as [|c cancelled IH]; intros calls Hcalls Hnd Hopen.
  - by rewrite app_nil_r.
  - rewrite fmap_cons in *. apply NoDup_cons in Hnd as [Hc Hnd].
    replace (calls ++ _ :: ?[rest])
      with ((calls ++ [stream_emit_error (Command.messageStream c) error])
              ++ ((λ c, stream_emit_error (Command.messageStream c) error)
                    <$> cancelled))
      by (by rewrite <-app_assoc).
    apply IH; [|done|].
    + apply orderly_snoc; [done|]. intros ? [= <-]. apply Hopen. by left.
    + intros c' Hc' [?|(e & ->%list_elem_of_singleton & _ & [= Heq])]%ended_app.
      * eapply Hopen; [by right|done].
      * apply Hc. rewrite Heq. apply list_elem_of_fmap. eauto.
Qed.

Lemma reached_sublist listening cancelled :
  reached listening cancelled `sublist_of` cancelled.
Proof.
  induction cancelled as [|c cancelled IH]; simpl; [done|].
  case_decide; apply sublist_skip; [done|apply sublist_nil_l].
Qed.

Lemma reached_elem listening cancelled c :
  c ∈ reached listening cancelled → c ∈ cancelled.
Proof. intros Hc. eapply elem_of_sublist; [done|apply reached_sublist]. Qed.

Lemma reached_NoDup listening cancelled :
  NoDup (Command.messageStream <$> cancelled) →
  NoDup (Command.messageStream <$> reached listening cancelled).
Proof.
  induction cancelled as [|c cancelled IH]; simpl; [done|].
  intros [Hc Hnd]%NoDup_cons. case_decide; simpl.
  - apply NoDup_cons. split; [|by apply IH].
    intros (c' & Heq & Hc'%reached_elem)%list_elem_of_fmap.
    apply Hc. apply list_elem_of_fmap. eauto.
  - apply NoDup_singleton.
Qed.

Lemma well_streamed_cancel reason w :
  well_streamed w → well_streamed (left_by (cancelPendingCommands reason w)).
Proof.
  intros (Hkeys & Horder & Hnd & Hopen & Hbound).
  rewrite cancelPendingCommands_left by done.
  set (cancelled := reached (listened w) (JsObject.entries (commands w)).*2).
  set (errors := (λ c : Command.t, _) <$> cancelled).
  destruct (calls_this errors (set_commands [] (set_queue [] w)))
    as (_ & Hc & _).
  destruct (calls_streams errors (set_commands [] (set_queue [] w)))
    as (Hstreams & _).
  unfold well_streamed, keys_unique. rewrite Hc, calls_trace, Hstreams. simpl.
  assert (Hperm : (JsObject.entries (commands w)).*2 ≡ₚ (commands w).*2)
    by (by rewrite entries_perm).
  assert (Hin : ∀ c, c ∈ cancelled → c ∈ (commands w).*2).
  { intros c Hc'%reached_elem. by rewrite <-Hperm. }
  split; [apply NoDup_nil_2|]. split.
  { apply orderly_errors; [done| |].
    - apply reached_NoDup. by rewrite Hperm.
    - intros c Hc'%Hin. by apply Hopen. }
  split; [apply NoDup_nil_2|]. split; [by intros c ?%elem_of_nil|].
  intros e s [He|He]%elem_of_app Hes; [by eapply Hbound|].
  apply list_elem_of_fmap in He as (c & -> & Hc'%Hin). simpl in Hes.
  injection Hes as <-. by apply Hopen.
Qed.

(** *** What the handlers leave alone *)

Lemma same_objects_refl w : same_objects w w.
Proof. by repeat split. Qed.

Lemma same_objects_trans w1 w2 w3 :
  same_objects w1 w2 → same_objects w2 w3 → same_objects w1 w3.
Proof.
  unfold same_objects.
  intros (?&?&?&?&?&?&?&?&?&?) (?&?&?&?&?&?&?&?&?&?).
  repeat split; congruence.
Qed.

Lemma calls_same events : ∀ w, same_objects w (calls events w).
Proof.
  induction events as [|e events IH]; intros w; [apply same_objects_refl|].
  rewrite calls_cons.
  eapply same_objects_trans; [|apply IH]. by repeat split.
Qed.

Lemma handleMessage_same rawMessage w :
  same_objects w (left_by (handleMessage rawMessage w)).
Proof.
  rewrite handleMessage_dispatch, dispatch_left.
  destruct (lastAuthenticationReqId w); simpl;
    destruct (JsObject.get _ _); repeat case_decide; by repeat split.
Qed.

Lemma handleMessage_this rawMessage w :
  queue (left_by (handleMessage rawMessage w)) = queue w ∧
  connected (left_by (handleMessage rawMessage w)) = connected w ∧
  ∃ new, trace (left_by (handleMessage rawMessage w)) = trace w ++ new ∧
    Forall (λ e, ∀ data, e ≠ ws_send data) new.
Proof.
  rewrite handleMessage_dispatch, dispatch_left.
  destruct (lastAuthenticationReqId w); simpl;
    destruct (JsObject.get _ _); repeat case_decide; simpl.
  all: do 2 (split; [done|]).
  all: first [ exists []; split; [by rewrite app_nil_r|by constructor]
             | eexists; split; [by rewrite <-?app_assoc|by repeat constructor] ].
Qed.

Lemma handleDisconnection_same event w :
  same_objects w (left_by (handleDisconnection event w)).
Proof.
  unfold handleDisconnection.
  destruct (cancelPendingCommands_calls
    {| Reason.message := "WebSocket closed"; Reason.details := event |} w)
    as [events ->].
  eapply same_objects_trans; [|apply calls_same]. by repeat split.
Qed.

Section run_invariants.
Variable uuid_v1 : nat → string.
Variable JSON_stringify : MessageGraph → string.

Lemma onConnectionOpen_same w :
  same_objects w (left_by (onConnectionOpen JSON_stringify w)).
Proof.
  destruct (onConnectionOpen_inv JSON_stringify w) as (payloads & remaining & _ & ->).
  eapply same_objects_trans; [|apply calls_same]. by repeat split.
Qed.

Lemma sendCommand_inv command msg w :
  messages w !! Command.message command = Some msg →
  ∃ w' quiet,
    left_by (sendCommand JSON_stringify command w) = w' ∧
    same_objects w w' ∧
    commands w' =
      JsObject.set (property_key (Message.requestId msg)) command (commands w) ∧
    connected w' = connected w ∧
    trace w' = trace w ++ quiet ∧
    (if connected w
     then queue w' = queue w ∧ (quiet = [] ∨ ∃ data, quiet = [ws_send data])
     else queue w' = queue w ++ [command] ∧ quiet = []).
Proof.
  intros Hmsg. rewrite (sendCommand_spec _ _ _ _ Hmsg). cbv zeta.
  destruct (connected w) eqn:Hconnected.
  - destruct (formatedMessage _ _ _) as [data|].
    + eexists _, [ws_send data]. split; [reflexivity|].
      case_decide; simpl; rewrite ?Hconnected;
        (split; [by repeat split|]); eauto 10.
    + eexists _, []. split; [reflexivity|].
      case_decide; simpl; rewrite ?Hconnected, ?app_nil_r;
        (split; [by repeat split|]); eauto 10.
  - eexists _, []. split; [reflexivity|].
    case_decide; simpl; rewrite ?Hconnected, ?app_nil_r;
      (split; [by repeat split|]); eauto 10.
Qed.

Lemma quiet_sends quiet (connected : bool) (P Q : Prop) :
  (if connected then P ∧ (quiet = [] ∨ ∃ data : Payload, quiet = [ws_send data])
   else Q ∧ quiet = []) →
  Forall (λ e, event_stream e = None) quiet.
Proof.
  destruct connected; intros [_ H]; [destruct H as [->|[? ->]]|subst];
    by repeat constructor.
Qed.

(** What sendCommand leaves of the world in which buildCommand has
    returned: a new MessageStream, a new token and the command in the
    table, sent or in the queue. *)
Lemma messageStream_built script bindings message w command w1 :
  buildCommand uuid_v1 script bindings message w = Some (command, w1) →
  let w' := left_by (sendCommand JSON_stringify command w1) in
  ∃ key quiet,
    commands w' = JsObject.set key command (commands w) ∧
    Command.messageStream command = streams w ∧
    streams w' = S (streams w) ∧ uuids w' = S (uuids w) ∧
    pipes w' = pipes w ∧ listened w' = listened w ∧
    options w' = options w ∧ useSession w' = useSession w ∧
    sessionId w' = sessionId w ∧
    connected w' = connected w ∧
    trace w' = trace w ++ quiet ∧
    (if connected w
     then queue w' = queue w ∧ (quiet = [] ∨ ∃ data, quiet = [ws_send data])
     else queue w' = queue w ++ [command] ∧ quiet = []).
Proof.
  intros Hbuild. cbv zeta.
  pose proof (buildCommand_streams _ _ _ _ _ _ _ Hbuild) as [Hp1 Hl1].
  apply buildCommand_inv in Hbuild
    as (_ & Hs & (Ho & Hu & Hsid & Hconnected & Hq & Hc & _ & Ht) & Hi & Hs1 & _
        & _ & (msg & Hmsg & _) & _).
  destruct (sendCommand_inv command msg w1 Hmsg)
    as (w' & quiet & -> & Hsame & Hc2 & Hconnected2 & Ht2 & Hq2).
  destruct Hsame as (_ & _ & _ & Hs2 & Hp2 & Hl2 & Hi2 & Ho2 & Hu2 & Hsid2).
  exists (property_key (Message.requestId msg)), quiet.
  rewrite Hc2, Hc, Hs2, Hs1, Hconnected2, Hconnected, Ht2, Ht, Hi2, Hi,
    Hp2, Hp1, Hl2, Hl1, Ho2, Ho, Hu2, Hu, Hsid2, Hsid.
  rewrite Hconnected, Hq in Hq2. done.
Qed.

(** What a call of messageStream leaves: the world as it was when
    buildCommand throws, and what sendCommand leaves otherwise. *)
Lemma messageStream_inv script bindings message w :
  let w' :=
    left_by (snd <$> messageStream uuid_v1 JSON_stringify script bindings
                       message w) in
  w' = w ∨
  ∃ key command quiet,
    commands w' = JsObject.set key command (commands w) ∧
    Command.messageStream command = streams w ∧
    streams w' = S (streams w) ∧ uuids w' = S (uuids w) ∧
    pipes w' = pipes w ∧ listened w' = listened w ∧
    options w' = options w ∧ useSession w' = useSession w ∧
    sessionId w' = sessionId w ∧
    connected w' = connected w ∧
    trace w' = trace w ++ quiet ∧
    (if connected w
     then queue w' = queue w ∧ (quiet = [] ∨ ∃ data, quiet = [ws_send data])
     else queue w' = queue w ++ [command] ∧ quiet = []).
Proof.
  cbv zeta. rewrite messageStream_left.
  destruct (buildCommand _ _ _ _ _) as [[command w1]|] eqn:Hbuild; [|by left].
  right.
  destruct (messageStream_built _ _ _ _ _ _ Hbuild) as (key & quiet & H).
  by exists key, command, quiet.
Qed.

(** The stream that [stream] returns is a new one, piped into a
    pipeline, on which no call was made. *)
Lemma stream_new script bindings message w s w' :
  well_streamed w →
  stream uuid_v1 JSON_stringify script bindings message w = returns (s, w') →
  s = streams w ∧ streams w' = S (streams w) ∧
  pipes w' = pipes w ++ [s] ∧
  (∀ e, e ∈ trace w' → event_stream e ≠ Some s).
Proof.
  intros (_ & _ & _ & _ & Hbound). unfold stream, messageStream.
  destruct (buildCommand _ _ _ _ _) as [[command w1]|] eqn:Hbuild; [|done].
  simpl.
  destruct (messageStream_built _ _ _ _ _ _ Hbuild)
    as (key & quiet & _ & Hs & Hs' & _ & Hp & _ & _ & _ & _ & _ & Ht & Hquiet).
  destruct (sendCommand _ _ _) as [w2|w2]; simpl in *; [|done].
  intros [= <- <-]. simpl. rewrite Hs, Hs', Hp, Ht.
  split; [done|]. split; [done|]. split; [done|].
  apply quiet_sends in Hquiet. rewrite Forall_forall in Hquiet.
  intros e [He|He]%elem_of_app Hes.
  - specialize (Hbound e _ He Hes). lia.
  - by rewrite (Hquiet e He) in Hes.
Qed.

(** [stream] leaves what messageStream leaves, with the new stream
    among the pipelines when messageStream has returned. *)
Lemma stream_inv script bindings message w :
  let w2 :=
    left_by (snd <$> messageStream uuid_v1 JSON_stringify script bindings
                       message w) in
  let w' :=
    left_by (snd <$> stream uuid_v1 JSON_stringify script bindings message w) in
  w' = w2 ∨
  w' = set_pipes (pipes w2 ++ [streams w]) w2 ∧ streams w2 = S (streams w).
Proof.
  cbv zeta. rewrite stream_left, messageStream_left.
  destruct (buildCommand _ _ _ _ _) as [[command w1]|] eqn:Hbuild; [|by left].
  apply buildCommand_inv in Hbuild
    as (_ & Hs & _ & _ & Hs1 & _ & _ & (msg & Hmsg & _) & _).
  destruct (sendCommand_inv command msg w1 Hmsg)
    as (w' & quiet & Hw' & (_ & _ & _ & Hs2 & _) & _).
  destruct (sendCommand _ _ _) as [w2|w2]; simpl in *; [|by left].
  right. subst w'. by rewrite Hs, Hs2, Hs1.
Qed.

Lemma well_streamed_set_pipes x w :
  well_streamed w → well_streamed (set_pipes x w).
Proof.
  intros Hw. apply (well_streamed_quiet w _ []); simpl;
    rewrite ?app_nil_r; done || lia.
Qed.

Lemma well_streamed_perform a w :
  well_streamed w →
  well_streamed (left_by (perform uuid_v1 JSON_stringify a w)).
Proof.
  intros Hw.
  assert (Hsubmit : ∀ script bindings message,
            well_streamed
              (left_by (snd <$> messageStream uuid_v1 JSON_stringify script
                                  bindings message w))).
  { intros script bindings message.
    destruct (messageStream_inv script bindings message w)
      as [->|(key & command & quiet & Hc & Hs & Hs' & _ & _ & _ & _ & _ & _
              & _ & Ht & Hq)]; [done|].
    eapply well_streamed_register; eauto using quiet_sends. }
  destruct a; simpl.
  1-6: apply (well_streamed_quiet w _ []); simpl;
       rewrite ?app_nil_r; done || lia.
  - case_decide; [|done].
    apply (well_streamed_quiet w _ []); simpl; rewrite ?app_nil_r; done || lia.
  - destruct (buildCommand _ _ _ _ _) as [[command w1]|] eqn:Hbuild; [|done].
    simpl.
    apply buildCommand_inv in Hbuild
      as (_ & _ & (_ & _ & _ & _ & _ & Hc & _ & Ht) & _ & Hs1 & _).
    apply (well_streamed_quiet w _ []); rewrite ?app_nil_r; done || lia.
  - apply Hsubmit.
  - destruct (stream_inv script bindings message w) as [->|[-> _]];
      [apply Hsubmit|apply well_streamed_set_pipes, Hsubmit].
  - destruct (onConnectionOpen_inv JSON_stringify w) as (payloads & remaining & _ & ->).
    destruct (calls_this (client_emit "connect" :: (ws_send <$> payloads))
                (set_queue remaining (set_connected true w))) as (_ & Hc & _).
    destruct (calls_streams (client_emit "connect" :: (ws_send <$> payloads))
                (set_queue remaining (set_connected true w))) as (Hs & _).
    apply (well_streamed_quiet w _
             (client_emit "connect" :: (ws_send <$> payloads)));
      [by rewrite Hc|by rewrite Hs|by rewrite calls_trace| |done].
    constructor; [done|]. apply Forall_fmap. by apply Forall_true.
  - rewrite handleMessage_dispatch.
    apply well_streamed_dispatch. by destruct (lastAuthenticationReqId w).
  - by apply well_streamed_cancel.
Qed.

Lemma reachable_well_streamed w :
  reachable uuid_v1 JSON_stringify w → well_streamed w.
Proof.
  induction 1 as [port host options|w a _ IH];
    [|by apply well_streamed_perform].
  unfold well_streamed, keys_unique. simpl.
  split; [apply NoDup_nil_2|]. split.
  { apply (orderly_snoc []); [|done].
    intros before e after s Heq. by destruct before. }
  split; [apply NoDup_nil_2|]. split; [by intros c ?%elem_of_nil|].
  by intros e s ->%list_elem_of_singleton.
Qed.

(** What an action leaves alone, and what it lets grow. *)
Lemma perform_grows a w :
  let w' := left_by (perform uuid_v1 JSON_stringify a w) in
  options w' = options w ∧ useSession w' = useSession w ∧
  sessionId w' = sessionId w ∧
  (uuids w ≤ uuids w')%nat ∧ (streams w ≤ streams w')%nat ∧
  (pipes w' = pipes w ∨
   pipes w' = pipes w ++ [streams w] ∧ streams w' = S (streams w)) ∧
  ∃ new, trace w' = trace w ++ new.
Proof.
  cbv zeta.
  assert (Hsame : ∀ w', same_objects w w' → (∃ new, trace w' = trace w ++ new) →
            options w' = options w ∧ useSession w' = useSession w ∧
            sessionId w' = sessionId w ∧
            (uuids w ≤ uuids w')%nat ∧ (streams w ≤ streams w')%nat ∧
            (pipes w' = pipes w ∨
             pipes w' = pipes w ++ [streams w] ∧ streams w' = S (streams w)) ∧
            ∃ new, trace w' = trace w ++ new).
  { intros w' (_ & _ & _ & -> & -> & _ & -> & -> & -> & ->) Hnew.
    repeat split; auto. }
  assert (Hnone : ∃ new, trace w = trace w ++ new)
    by (exists []; by rewrite app_nil_r).
  assert (Hsubmit : ∀ script bindings message,
            let w' := left_by (snd <$> messageStream uuid_v1 JSON_stringify
                                         script bindings message w) in
            options w' = options w ∧ useSession w' = useSession w ∧
            sessionId w' = sessionId w ∧
            (uuids w ≤ uuids w')%nat ∧ (streams w ≤ streams w')%nat ∧
            pipes w' = pipes w ∧
            ∃ new, trace w' = trace w ++ new).
  { intros script bindings message. cbv zeta.
    destruct (messageStream_inv script bindings message w)
      as [->|(key & command & quiet & _ & _ & -> & -> & -> & _ & -> & -> & ->
              & _ & -> & _)].
    - repeat split; auto.
    - repeat split; eauto; lia. }
  destruct a; simpl.
  1-6: by (apply Hsame; [by repeat split|]).
  - case_decide; simpl; repeat split; auto.
  - destruct (buildCommand _ _ _ _ _) as [[command w1]|] eqn:Hbuild; simpl;
      [|by (apply Hsame; [by repeat split|])].
    pose proof (buildCommand_streams _ _ _ _ _ _ _ Hbuild) as [Hp1 Hl1].
    apply buildCommand_inv in Hbuild
      as (_ & _ & (Ho & Hu & Hsid & _ & _ & _ & _ & Ht) & Hi & Hs1 & _).
    rewrite Ho, Hu, Hsid, Hi, Hs1, Hp1, Ht.
    repeat split; auto; lia.
  - destruct (Hsubmit script bindings message)
      as (? & ? & ? & ? & ? & ? & ?).
    repeat split; auto.
  - destruct (Hsubmit script bindings message)
      as (Ho & Hu & Hsid & Hi & Hs & Hp & Ht).
    destruct (stream_inv script bindings message w) as [->|[-> Hs2]].
    + repeat split; auto.
    + simpl. rewrite Hp. repeat split; auto.
  - apply Hsame; [apply onConnectionOpen_same|].
    destruct (onConnectionOpen_inv JSON_stringify w) as (payloads & remaining & _ & ->).
    rewrite calls_trace. eauto.
  - apply Hsame; [apply handleMessage_same|].
    destruct (handleMessage_this rawMessage w) as (_ & _ & new & -> & _). eauto.
  - apply Hsame; [apply handleDisconnection_same|].
    unfold handleDisconnection.
    destruct (cancelPendingCommands_calls
      {| Reason.message := "WebSocket closed"; Reason.details := event |} w)
      as [events ->].
    rewrite calls_trace. eauto.
Qed.

Lemma runs_grows w w' :
  runs uuid_v1 JSON_stringify w w' →
  options w' = options w ∧ useSession w' = useSession w ∧
  sessionId w' = sessionId w ∧
  (uuids w ≤ uuids w')%nat ∧ (streams w ≤ streams w')%nat ∧
  (∀ s, s ∈ pipes w → s ∈ pipes w') ∧
  (∀ s, s ∈ pipes w' → s ∈ pipes w ∨ (streams w ≤ s)%nat) ∧
  ∃ new, trace w' = trace w ++ new.
Proof.
  induction 1 as [|w' a _ IH].
  - repeat split; auto. exists []. by rewrite app_nil_r.
  - destruct IH as (Ho & Hu & Hsid & Hi & Hs & Hp & Hp' & new & Ht).
    destruct (perform_grows a w')
      as (-> & -> & -> & Hi2 & Hs2 & Hp2 & new2 & ->).
    split; [done|]. split; [done|]. split; [done|].
    split; [lia|]. split; [lia|].
    split; [|split].
    + intros s Hs0%Hp. destruct Hp2 as [->|[-> _]]; [done|].
      apply elem_of_app. by left.
    + intros s. destruct Hp2 as [->|[-> _]]; [apply Hp'|].
      intros [Hs0| ->%list_elem_of_singleton]%elem_of_app; [by apply Hp'|].
      right. lia.
    + exists (new ++ new2). by rewrite Ht, app_assoc.
Qed.

Lemma reachable_runs w w' :
  reachable uuid_v1 JSON_stringify w → runs uuid_v1 JSON_stringify w w' →
  reachable uuid_v1 JSON_stringify w'.
Proof. intros Hw. induction 1; [done|by apply reachable_step]. Qed.

Lemma runs_trans w1 w2 w3 :
  runs uuid_v1 JSON_stringify w1 w2 → runs uuid_v1 JSON_stringify w2 w3 →
  runs uuid_v1 JSON_stringify w1 w3.
Proof. intros H12. induction 1; [done|by apply runs_step]. Qed.

Lemma runs_performs actions : ∀ w,
  runs uuid_v1 JSON_stringify w (performs uuid_v1 JSON_stringify actions w).
Proof.
  induction actions as [|a actions IH]; intros w; simpl; [apply runs_here|].
  eapply runs_trans; [|apply IH].
  apply (runs_step _ _ _ w a). apply runs_here.
Qed.

(** Before the socket has opened nothing was sent. *)
Lemma reachable_unsent w :
  reachable uuid_v1 JSON_stringify w →
  connected w = false → ∀ data, ws_send data ∉ trace w.
Proof.
  induction 1 as [port host options|w a Hw IH]; simpl.
  { by intros _ data ?%list_elem_of_singleton. }
  assert (Hsubmit : ∀ script bindings message,
            let w' := left_by (snd <$> messageStream uuid_v1 JSON_stringify
                                         script bindings message w) in
            connected w' = connected w ∧
            (connected w = false → trace w' = trace w)).
  { intros script bindings message. cbv zeta.
    destruct (messageStream_inv script bindings message w)
      as [->|(key & command & quiet & _ & _ & _ & _ & _ & _ & _ & _ & _
              & -> & -> & Hq)]; [done|].
    split; [done|]. intros Hconnected. rewrite Hconnected in Hq.
    destruct Hq as [_ ->]. by rewrite app_nil_r. }
  destruct a; simpl.
  1-6: done.
  - by case_decide.
  - destruct (buildCommand _ _ _ _ _) as [[command w1]|] eqn:Hbuild; simpl;
      [|done].
    apply buildCommand_inv in Hbuild
      as (_ & _ & (_ & _ & _ & -> & _ & _ & _ & ->) & _).
    done.
  - destruct (Hsubmit script bindings message) as [-> Ht].
    intros Hconnected. rewrite Ht by done. by apply IH.
  - destruct (Hsubmit script bindings message) as [Hc Ht].
    destruct (stream_inv script bindings message w) as [->|[-> _]]; simpl;
      rewrite Hc; intros Hconnected; rewrite Ht by done; by apply IH.
  - destruct (onConnectionOpen_inv JSON_stringify w) as (payloads & remaining & _ & ->).
    by destruct (calls_this (client_emit "connect" :: (ws_send <$> payloads))
                   (set_queue remaining (set_connected true w)))
      as (_ & _ & -> & _).
  - destruct (handleMessage_this rawMessage w) as (_ & -> & new & -> & Hnew).
    intros Hconnected data [?|Hin]%elem_of_app; [by eapply IH|].
    rewrite Forall_forall in Hnew. by eapply Hnew.
  - rewrite handleDisconnection_connected.
    unfold handleDisconnection.
    rewrite cancelPendingCommands_left
      by (by apply reachable_well_streamed in Hw as [? _]).
    rewrite calls_trace. simpl.
    intros Hconnected data [?|(? & [=] & _)%list_elem_of_fmap]%elem_of_app.
    by eapply IH.
Qed.

(** Once the flush of the queue has returned, nothing waits in the
    queue. *)
Lemma perform_flushed a w :
  connected w = true → queue w = [] →
  connected (left_by (perform uuid_v1 JSON_stringify a w)) = true ∧
  queue (left_by (perform uuid_v1 JSON_stringify a w)) = [].
Proof.
  intros Hconnected Hqueue.
  assert (Hsubmit : ∀ script bindings message,
            let w' := left_by (snd <$> messageStream uuid_v1 JSON_stringify
                                         script bindings message w) in
            connected w' = true ∧ queue w' = []).
  { intros script bindings message. cbv zeta.
    destruct (messageStream_inv script bindings message w)
      as [->|(key & command & quiet & _ & _ & _ & _ & _ & _ & _ & _ & _
              & -> & _ & Hq)]; [done|].
    rewrite Hconnected in Hq. destruct Hq as [-> _]. done. }
  destruct a; simpl.
  1-6: done.
  - by case_decide.
  - destruct (buildCommand _ _ _ _ _) as [[command w1]|] eqn:Hbuild; simpl;
      [|done].
    apply buildCommand_inv in Hbuild
      as (_ & _ & (_ & _ & _ & -> & -> & _) & _).
    done.
  - apply Hsubmit.
  - destruct (stream_inv script bindings message w) as [->|[-> _]];
      apply Hsubmit.
  - destruct (onConnectionOpen_inv JSON_stringify w)
      as (payloads & remaining & Hsuffix & ->).
    rewrite Hqueue in Hsuffix. apply suffix_nil_inv in Hsuffix as ->.
    by destruct (calls_this (client_emit "connect" :: (ws_send <$> payloads))
                   (set_queue [] (set_connected true w)))
      as (-> & _ & -> & _).
  - by destruct (handleMessage_this rawMessage w) as (-> & -> & _).
  - rewrite handleDisconnection_connected. split; [done|].
    apply cancelPendingCommands_empties.
Qed.

End run_invariants.

Lemma reachable_performs uuid_v1 JSON_stringify actions w :
  reachable uuid_v1 JSON_stringify w →
  reachable uuid_v1 JSON_stringify (performs uuid_v1 JSON_stringify actions w).
Proof. intros Hw. eapply reachable_runs; [done|apply runs_performs]. Qed.

(** ** Incremental results over a run *)

Lemma values_app events1 events2 :
  values (events1 ++ events2) = values events1 ++ values events2.
Proof. unfold values. apply omap_app. Qed.

Lemma values_data items : values (consumer_data <$> items) = items.
Proof. induction items as [|v items IH]; [done|]. simpl. f_equal. exact IH. Qed.

Lemma pushed_app s calls1 calls2 :
  pushed s (calls1 ++ calls2) = pushed s calls1 ++ pushed s calls2.
Proof. unfold pushed. apply omap_app. Qed.

(** The values that come out of the pipeline of a MessageStream are the
    data of the frames pushed to it, one after the other. *)
Lemma consumer_events_values s calls :
  values (consumer_events s calls)
  = concat (Frame.result_data <$> pushed s calls).
Proof.
  induction calls as [|e calls IH]; [done|].
  change (e :: calls) with ([e] ++ calls).
  rewrite (consumer_events_app s [e]), (pushed_app s [e]), values_app,
    fmap_app, concat_app, IH.
  f_equal. unfold consumer_events.
  destruct e as [| | |s' [frame|]|s' e]; simpl; try done.
  all: case_decide; simpl; rewrite ?app_nil_r, ?through_data, ?values_data; done.
Qed.

Lemma consumer_events_no_frame s frame calls :
  consumer_frame frame ∉ consumer_events s calls.
Proof.
  induction calls as [|e calls IH]; [by intros ?%elem_of_nil|].
  change (e :: calls) with ([e] ++ calls).
  rewrite (consumer_events_app s [e]).
  intros [Hin|Hin]%elem_of_app; [|done].
  unfold consumer_events in Hin.
  destruct e as [| | |s' [frame'|]|s' e]; simpl in Hin;
    try (by apply elem_of_nil in Hin).
  all: case_decide; simpl in Hin; try (by apply elem_of_nil in Hin).
  - by apply list_elem_of_fmap in Hin as (? & ? & _).
  - by apply list_elem_of_singleton in Hin.
  - by apply list_elem_of_singleton in Hin.
Qed.

Lemma consumer_events_none s calls :
  (∀ e, e ∈ calls → event_stream e ≠ Some s) → consumer_events s calls = [].
Proof.
  induction calls as [|e calls IH]; intros Hcalls; [done|].
  etrans; [apply (consumer_events_app s [e])|].
  rewrite IH, app_nil_r by (intros e' He'; apply Hcalls; by right).
  assert (He : event_stream e ≠ Some s) by (apply Hcalls; by left).
  unfold consumer_events. simpl.
  destruct e as [| | |s' [frame|]|s' e]; simpl in *; try done.
  all: rewrite decide_False; [done|congruence].
Qed.

Lemma pushed_none s calls :
  (∀ e, e ∈ calls → event_stream e ≠ Some s) → pushed s calls = [].
Proof.
  induction calls as [|e calls IH]; intros Hcalls; [done|].
  change (e :: calls) with ([e] ++ calls).
  rewrite (pushed_app s [e]), IH, app_nil_r
    by (intros e' He'; apply Hcalls; by right).
  assert (He : event_stream e ≠ Some s) by (apply Hcalls; by left).
  destruct e as [| | |s' [frame|]|s' e]; simpl in *; try done.
  rewrite decide_False; [done|congruence].
Qed.

Section incremental.
Variable uuid_v1 : nat → string.
Variable JSON_stringify : MessageGraph → string.

(** C8.  The stream that [stream] returns has emitted nothing when it is
    returned.  Whatever happens next, the values it has emitted are the
    concatenation of the [result.data] of the frames pushed to the
    MessageStream of the command, in the order of arrival and one event
    per value; it never emits a frame as a whole. *)
Theorem stream_flattens script bindings message w s w1 w2 :
  reachable uuid_v1 JSON_stringify w →
  stream uuid_v1 JSON_stringify script bindings message w = returns (s, w1) →
  runs uuid_v1 JSON_stringify w1 w2 →
  emitted s w1 = [] ∧ pushed s (trace w1) = [] ∧
  values (emitted s w2)
  = concat (Frame.result_data <$> pushed s (trace w2)) ∧
  length (values (emitted s w2))
  = sum_list (length ∘ Frame.result_data <$> pushed s (trace w2)) ∧
  ∀ frame, consumer_frame frame ∉ emitted s w2.
Proof.
  intros Hw%reachable_well_streamed Hstream Hruns.
  destruct (stream_new _ _ _ _ _ _ _ _ Hw Hstream) as (-> & Hs & Hp & Hnone).
  assert (Hpipe : streams w ∈ pipes w1)
    by (rewrite Hp; apply elem_of_app; right; by left).
  destruct (runs_grows _ _ _ _ Hruns) as (_ & _ & _ & _ & _ & Hpipes & _).
  unfold emitted. rewrite !decide_True by auto.
  split; [by apply consumer_events_none|].
  split; [by apply pushed_none|].
  split; [apply consumer_events_values|].
  split; [|intros frame; apply consumer_events_no_frame].
  rewrite consumer_events_values.
  generalize (pushed (streams w) (trace w2)). clear.
  induction l as [|frame frames IH]; [done|].
  rewrite !fmap_cons. simpl. rewrite length_app. f_equal. exact IH.
Qed.

End incremental.

(** An instance: the script handed to [stream] is answered by a partial
    frame of three values and a success frame of one. *)
Lemma stream_flattens_witness :
  ∃ w1,
    stream Sample.uuid_v1 Sample.JSON_stringify (ScriptText "g.V()") None None
      Sample.client = returns (0%nat, w1) ∧
    let w2 := performs Sample.uuid_v1 Sample.JSON_stringify
                [ socket_opens;
                  socket_delivers Run.three_values;
                  socket_delivers Sample.success ] w1 in
    pushed 0 (trace w2) = [Run.three_values; Sample.success] ∧
    emitted 0 w2
    = [ consumer_data (JNumber 1); consumer_data (JNumber 3);
        consumer_data (JNumber 5); consumer_data (JNumber 2); consumer_end ] ∧
    values (emitted 0 w2)
    = concat (Frame.result_data <$> pushed 0 (trace w2)).
Proof.
  eexists. split; [vm_compute; reflexivity|].
  match goal with |- context [performs _ _ _ ?w] => set (world := w) end.
  cbv zeta.
  split; [vm_compute; reflexivity|]. split; [vm_compute; reflexivity|].
  assert (Hstream :
    stream Sample.uuid_v1 Sample.JSON_stringify (ScriptText "g.V()") None None
      Sample.client = returns (0%nat, world)) by (vm_compute; reflexivity).
  destruct (stream_flattens Sample.uuid_v1 Sample.JSON_stringify _ _ _
              Sample.client 0%nat world
              (performs Sample.uuid_v1 Sample.JSON_stringify
                 [ socket_opens;
                   socket_delivers Run.three_values;
                   socket_delivers Sample.success ] world)
              (reachable_new _ _ None None Options.defaults) Hstream
              (runs_performs _ _ _ _))
    as (_ & _ & Hvalues & _).
  exact Hvalues.
Defined.

(** ** Request identifiers over a run *)

Section requestId_run.
Variable uuid_v1 : nat → string.
Variable JSON_stringify : MessageGraph → string.

(** C9, as the code has it.  When the overrides set no request
    identifier, the message of the command carries the token generated
    during the call; two such calls, whatever happens between them, give
    two messages whose identifiers differ, as long as the generator does
    not repeat itself. *)
Theorem buildCommand_fresh_requestId
    script1 bindings1 message1 script2 bindings2 message2 w c1 w1 w' c2 w2 :
  (∀ i j, uuid_v1 i = uuid_v1 j → i = j) →
  overrides message1 w ≫= Message.requestId = None →
  buildCommand uuid_v1 script1 bindings1 message1 w = Some (c1, w1) →
  runs uuid_v1 JSON_stringify w1 w' →
  overrides message2 w' ≫= Message.requestId = None →
  buildCommand uuid_v1 script2 bindings2 message2 w' = Some (c2, w2) →
  ∃ msg1 msg2,
    messages w1 !! Command.message c1 = Some msg1 ∧
    messages w2 !! Command.message c2 = Some msg2 ∧
    Message.requestId msg1 = Some (uuid_v1 (uuids w)) ∧
    Message.requestId msg2 = Some (uuid_v1 (uuids w')) ∧
    Message.requestId msg1 ≠ Message.requestId msg2 ∧
    (w' = w1 → messages w2 !! Command.message c1 = Some msg1).
Proof.
  intros Hinj Hnone1 Hbuild1 Hruns Hnone2 Hbuild2.
  apply buildCommand_inv in Hbuild1
    as (Ht1 & _ & _ & Hu1 & _ & _ & _ & (msg1 & Hmsg1 & Hid1) & _).
  apply buildCommand_inv in Hbuild2
    as (Ht2 & _ & _ & _ & _ & _ & Hother & (msg2 & Hmsg2 & Hid2) & _).
  destruct (runs_grows _ _ _ _ Hruns) as (_ & _ & _ & Hle & _).
  rewrite Hnone1 in Hid1. rewrite Hnone2 in Hid2. simpl in Hid1, Hid2.
  exists msg1, msg2.
  split; [done|]. split; [done|]. split; [done|]. split; [done|].
  split.
  { rewrite Hid1, Hid2. intros [= Heq]. apply Hinj in Heq. lia. }
  intros ->.
  assert (Hne : Command.message c1 ≠ Command.message c2).
  { intros Heq. rewrite Ht2 in Heq. destruct message2 as [m|].
    - unfold overrides in Hnone2. simpl in Hnone2.
      rewrite <-Heq, Hmsg1 in Hnone2. simpl in Hnone2. congruence.
    - apply lookup_lt_Some in Hmsg1. lia. }
  rewrite Hother; [done|done|by eapply lookup_lt_Some].
Qed.

End requestId_run.

(** An instance: two commands built without overrides, the first before
    the socket opens and the second after it has answered the first. *)
Lemma buildCommand_fresh_requestId_witness :
  ∃ c1 w1 c2 w2,
    buildCommand Sample.uuid_v1 (ScriptText "1+1") None None Sample.client
    = Some (c1, w1) ∧
    let w' := performs Sample.uuid_v1 Sample.JSON_stringify
                [ socket_opens;
                  caller_calls_stream (ScriptText "g.V()") None None;
                  socket_delivers Sample.success ] w1 in
    buildCommand Sample.uuid_v1 (ScriptText "2+2") None None w' = Some (c2, w2) ∧
    ∃ msg1 msg2,
      messages w1 !! Command.message c1 = Some msg1 ∧
      messages w2 !! Command.message c2 = Some msg2 ∧
      Message.requestId msg1 = Some "uuid-0" ∧
      Message.requestId msg2 = Some "uuid-2" ∧
      Message.requestId msg1 ≠ Message.requestId msg2.
Proof.
  eexists _, _, _, _.
  split; [vm_compute; reflexivity|].
  match goal with |- context [performs _ _ _ ?w] => set (world1 := w) end.
  cbv zeta.
  set (world' := performs Sample.uuid_v1 Sample.JSON_stringify
                   [ socket_opens;
                     caller_calls_stream (ScriptText "g.V()") None None;
                     socket_delivers Sample.success ] world1).
  assert (Hbuild1 :
    buildCommand Sample.uuid_v1 (ScriptText "1+1") None None Sample.client
    = Some ({| Command.message := 0%nat; Command.messageStream := 0%nat |}, world1))
    by (vm_compute; reflexivity).
  assert (Hbuild2 :
    buildCommand Sample.uuid_v1 (ScriptText "2+2") None None world'
    = Some ({| Command.message := 2%nat; Command.messageStream := 2%nat |},
            default world'
              (snd <$> buildCommand Sample.uuid_v1 (ScriptText "2+2") None None
                         world')))
    by (vm_compute; reflexivity).
  split; [exact Hbuild2|].
  destruct (buildCommand_fresh_requestId Sample.uuid_v1 Sample.JSON_stringify
              _ _ None _ _ None _ _ _ world' _ _
              sample_uuid_v1_inj eq_refl Hbuild1
              (runs_performs _ _ _ _) eq_refl Hbuild2)
    as (msg1 & msg2 & Hmsg1 & Hmsg2 & Hid1 & Hid2 & Hne & _).
  exists msg1, msg2. split; [exact Hmsg1|]. split; [exact Hmsg2|].
  split; [exact Hid1|]. split; [|exact Hne].
  rewrite Hid2. vm_compute. reflexivity.
Defined.



(** X14. Throughout a run, the commands of the table have MessageStreams
    of their own, none of which has been ended: a command that is still
    pending can still be answered. *)
Theorem pending_streams_open uuid_v1 JSON_stringify w :
  reachable uuid_v1 JSON_stringify w →
  NoDup (Command.messageStream <$> (commands w).*2) ∧
  ∀ key command, JsObject.get key (commands w) = Some command →
    ¬ ended (Command.messageStream command) (trace w).
Proof.
  intros (_ & _ & Hnd & Hopen & _)%reachable_well_streamed. split; [done|].
  intros key command Hget%get_values. by apply Hopen.
Qed.

Lemma pending_streams_open_witness :
  NoDup (Command.messageStream <$> (commands Run.waiting).*2) ∧
  JsObject.get "uuid-1" (commands Run.waiting)
    = Some {| Command.message := 1; Command.messageStream := 1 |} ∧
  ¬ ended 1 (trace Run.waiting).
Proof.
  destruct (pending_streams_open Sample.uuid_v1 Sample.JSON_stringify Run.waiting)
    as [Hnd Hopen].
  { apply (reachable_performs _ _
             [ caller_calls_messageStream (ScriptText "g.V()") None None;
               caller_calls_stream (ScriptText "g.E()") None None;
               socket_delivers Sample.success ] Sample.client).
    apply reachable_new. }
  split; [exact Hnd|].
  assert (Hget : JsObject.get "uuid-1" (commands Run.waiting)
                 = Some {| Command.message := 1; Command.messageStream := 1 |})
    by (vm_compute; reflexivity).
  split; [exact Hget|].
  exact (Hopen "uuid-1" _ Hget).
Defined.

Lemma onConnectionOpen_returns JSON_stringify w w1 :
  onConnectionOpen JSON_stringify w = returns w1 →
  connected w1 = true ∧ queue w1 = [].
Proof.
  unfold onConnectionOpen, executeQueue.
  set (w0 := call (client_emit "connect") (set_connected true w)).
  destruct (executeQueue_loop_spec JSON_stringify (queue w0) w0 eq_refl)
    as (payloads & _ & Hloop).
  destruct (drop (length payloads) (queue w0)) as [|command remaining].
  - rewrite Hloop. intros [= <-].
    by destruct (calls_this (ws_send <$> payloads) (set_queue [] w0))
      as (-> & _ & -> & _).
  - destruct Hloop as [_ ->]. done.
Qed.

(** X15. Once the socket has opened and the flush of the queue has
    returned, no command waits in the queue, whatever happens next and
    whether the methods called return or throw: a command submitted from
    then on is never queued. *)
Theorem queue_empty_once_open uuid_v1 JSON_stringify w w1 w2 :
  onConnectionOpen JSON_stringify w = returns w1 →
  runs uuid_v1 JSON_stringify w1 w2 →
  connected w2 = true ∧ queue w2 = [].
Proof.
  intros Hopen%onConnectionOpen_returns.
  induction 1 as [|w2 a _ IH]; [done|].
  destruct IH. by apply perform_flushed.
Qed.

Lemma queue_empty_once_open_witness :
  ∃ w1,
    onConnectionOpen Sample.JSON_stringify Run.three_waiting = returns w1 ∧
    let w2 := performs Sample.uuid_v1 Sample.JSON_stringify
                [ caller_calls_messageStream (ScriptText "2+2") None None;
                  socket_delivers Run.failure;
                  socket_closes Sample.closing;
                  caller_calls_stream (ScriptText "3+3") None None ] w1 in
    connected w2 = true ∧ queue w2 = [].
Proof.
  eexists. split; [vm_compute; reflexivity|].
  match goal with |- context [performs _ _ _ ?w] => set (world := w) end.
  apply (queue_empty_once_open Sample.uuid_v1 Sample.JSON_stringify
           Run.three_waiting world);
    [vm_compute; reflexivity|apply runs_performs].
Defined.

(** X16. Throughout a run, nothing is sent on the socket before it has
    opened. *)
Theorem nothing_sent_before_open uuid_v1 JSON_stringify w data :
  reachable uuid_v1 JSON_stringify w → connected w = false →
  ws_send data ∉ trace w.
Proof. intros Hw Hconnected. by apply (reachable_unsent _ _ w Hw). Qed.

Lemma nothing_sent_before_open_witness :
  connected Run.waiting = false ∧ ∀ data, ws_send data ∉ trace Run.waiting.
Proof.
  split; [reflexivity|]. intros data.
  apply (nothing_sent_before_open Sample.uuid_v1 Sample.JSON_stringify
           Run.waiting);
    [|reflexivity].
  apply (reachable_performs _ _
           [ caller_calls_messageStream (ScriptText "g.V()") None None;
             caller_calls_stream (ScriptText "g.E()") None None;
             socket_delivers Sample.success ] Sample.client).
  apply reachable_new.
Defined.

(** ** What buildCommand builds *)

Lemma defaults_for_args_content script bindings message w args w' :
  defaults_for_args script bindings message w = Some (args, w') →
  argbags w' !! args
  = Some (defaults_args
            (default Args.empty
               (a ← overrides message w ≫= Message.args; argbags w !! a))
            {| Args.gremlin := Some script;
               Args.bindings := Some bindings;
               Args.accept := Some (Options.accept (options w));
               Args.language := Some (Options.language (options w));
               Args.binary := Some false;
               Args.session := None |}).
Proof.
  unfold defaults_for_args, overrides. intros H.
  assert (Hnew : ∀ w0 : World,
            (argbags w0 ++ [Args.empty]) !! length (argbags w0)
            = Some Args.empty)
    by (intros; by rewrite lookup_app_r, Nat.sub_diag).
  destruct message as [m|]; simpl in *.
  - destruct (messages w !! m) as [msg|] eqn:Hm; simpl in *; [|done].
    destruct (Message.args msg) as [a|] eqn:Ha; simpl in *.
    + destruct (argbags w !! a) as [bag|] eqn:Hbag; simpl in *; [|done].
      injection H as <- <-. simpl.
      rewrite list_lookup_insert_eq; [done|]. by eapply lookup_lt_Some.
    + rewrite Hnew in H. simpl in H. injection H as <- <-. simpl.
      rewrite list_lookup_insert_eq; [done|]. rewrite length_app. simpl. lia.
  - rewrite Hnew in H. simpl in H. injection H as <- <-. simpl.
    rewrite list_lookup_insert_eq; [done|]. rewrite length_app. simpl. lia.
Qed.

Lemma defaults_for_message_content guid args message w target w' :
  defaults_for_message guid args message w = Some (target, w') →
  messages w' !! target
  = Some (defaults_message
            (default Message.empty (overrides message w))
            {| Message.requestId := Some guid;
               Message.processor := Some (Options.processor (options w));
               Message.op := Some (Options.op (options w));
               Message.args := Some args |}).
Proof.
  unfold defaults_for_message, overrides. intros H.
  destruct message as [m|]; simpl in *.
  - destruct (messages w !! m) as [msg|] eqn:Hm; simpl in *; [|done].
    injection H as <- <-. simpl.
    rewrite list_lookup_insert_eq; [done|]. by eapply lookup_lt_Some.
  - rewrite lookup_app_r, Nat.sub_diag in H by done.
    simpl in H. injection H as <- <-. simpl.
    rewrite list_lookup_insert_eq; [done|]. rewrite length_app. simpl. lia.
Qed.

Lemma session_of_content message w w' msg a bag :
  session_of message w = Some w' →
  messages w !! message = Some msg →
  Message.args msg = Some a →
  argbags w !! a = Some bag →
  messages w' !! message
  = Some {| Message.requestId := Message.requestId msg;
            Message.processor :=
              Some (or_else (Some (or_else (Message.processor msg)
                                     (Options.processor (options w))))
                            "session");
            Message.op := Message.op msg;
            Message.args := Some a |} ∧
  argbags w' !! a
  = Some {| Args.gremlin := Args.gremlin bag;
            Args.bindings := Args.bindings bag;
            Args.accept := Args.accept bag;
            Args.language := Args.language bag;
            Args.binary := Args.binary bag;
            Args.session := sessionId w |}.
Proof.
  unfold session_of. intros H Hmsg Ha Hbag.
  rewrite Hmsg in H. simpl in H. rewrite Ha in H. simpl in H.
  rewrite Hbag in H. simpl in H. injection H as <-. simpl.
  rewrite !list_lookup_insert_eq by (by eapply lookup_lt_Some).
  done.
Qed.

Section content.
Variable uuid_v1 : nat → string.

Lemma buildCommand_content script bindings message w command w' :
  buildCommand uuid_v1 script bindings message w = Some (command, w') →
  let given := default Message.empty (overrides message w) in
  let given_bag :=
    default Args.empty (a ← Message.args given; argbags w !! a) in
  let filled :=
    defaults_message given
      {| Message.requestId := Some (uuid_v1 (uuids w));
         Message.processor := Some (Options.processor (options w));
         Message.op := Some (Options.op (options w));
         Message.args := None |} in
  let bag :=
    defaults_args given_bag
      {| Args.gremlin :=
           Some match script with
                | ScriptFunction fn => extractFunctionBody fn
                | ScriptText source => source
                end;
         Args.bindings :=
           Some match bindings with
                | Some b => b
                | None => length (bindingsObjects w)
                end;
         Args.accept := Some (Options.accept (options w));
         Args.language := Some (Options.language (options w));
         Args.binary := Some false;
         Args.session := None |} in
  ∃ a,
    a = match Message.args given with
        | Some a => a
        | None => length (argbags w)
        end ∧
    messages w' !! Command.message command
    = Some {| Message.requestId := Message.requestId filled;
              Message.processor :=
                if useSession w
                then Some (or_else (Some (or_else (Message.processor filled)
                                            (Options.processor (options w))))
                                   "session")
                else Message.processor filled;
              Message.op := Message.op filled;
              Message.args := Some a |} ∧
    argbags w' !! a
    = Some {| Args.gremlin := Args.gremlin bag;
              Args.bindings := Args.bindings bag;
              Args.accept := Args.accept bag;
              Args.language := Args.language bag;
              Args.binary := Args.binary bag;
              Args.session :=
                if useSession w then sessionId w else Args.session bag |}.
Proof.
  unfold buildCommand. intros H.
  destruct (bindings_or_new bindings w) as [b w0] eqn:Hb.
  assert (Hb' : b = match bindings with
                    | Some b => b | None => length (bindingsObjects w) end)
    by (unfold bindings_or_new in Hb; destruct bindings; by injection Hb as <- _).
  apply bindings_or_new_inv in Hb
    as ((Ho0 & Hu0 & Hs0 & _) & Hm0 & Ha0 & Hi0 & _).
  match type of H with
  | context [defaults_for_args ?s ?b ?m ?w1] =>
      destruct (defaults_for_args s b m w1) as [[args w2]|] eqn:Hargs;
        [|done]
  end.
  simpl in H.
  match type of H with
  | context [defaults_for_message ?g ?a ?m ?w2] =>
      destruct (defaults_for_message g a m w2) as [[target w3]|] eqn:Hmessage;
        [|done]
  end.
  simpl in H.
  pose proof (defaults_for_args_content _ _ _ _ _ _ Hargs) as Hbag.
  pose proof (defaults_for_message_content _ _ _ _ _ _ Hmessage) as Hmsg.
  apply defaults_for_args_inv in Hargs
    as ((Ho2 & Hu2 & Hs2 & _) & Hm2 & _ & _ & _ & Hargs & _ & _).
  apply defaults_for_message_inv in Hmessage
    as ((Ho3 & Hu3 & Hs3 & _) & Ha3 & _).
  simpl in *.
  rewrite (overrides_messages message _ w2 Hm2) in Hmsg.
  assert (Hsame : overrides message
            (set_uuids (S (uuids w0)) (set_streams (S (streams w0)) w0))
            = overrides message w)
    by (unfold overrides; simpl; by rewrite Hm0).
  rewrite Hsame in Hbag, Hargs. clear Hsame.
  rewrite (overrides_messages message _ w0 Hm0) in Hmsg.
  rewrite Ha0, Ho0, Hi0, <-Hb' in *. rewrite Ho2 in Hmsg.
  assert (Hgiven : default Args.empty
            (a ← overrides message w ≫= Message.args; argbags w !! a)
            = default Args.empty
                (a ← Message.args (default Message.empty (overrides message w));
                 argbags w !! a))
    by (generalize (overrides message w); by intros [?|]).
  rewrite Hgiven in Hbag. clear Hgiven.
  assert (Hargs' : Message.args
            (defaults_message (default Message.empty (overrides message w))
               {| Message.requestId := Some (uuid_v1 (uuids w));
                  Message.processor := Some (Options.processor (options w));
                  Message.op := Some (Options.op (options w));
                  Message.args := Some args |}) = Some args).
  { rewrite Hargs. simpl. generalize (overrides message w).
    by intros [[? ? ? [?|]]|]. }
  rewrite <-Ha3 in Hbag.
  rewrite Hu3, Hu2 in H. simpl in H. rewrite Hu0 in H.
  destruct (useSession w) eqn:Hsession.
  - destruct (session_of target w3) as [w4|] eqn:Hsess; [|done].
    injection H as <- <-. simpl.
    destruct (session_of_content _ _ _ _ _ _ Hsess Hmsg Hargs' Hbag)
      as [Hmsg4 Hbag4].
    exists args. split; [rewrite Hargs; by destruct (overrides message w)|].
    rewrite Hmsg4, Hbag4. simpl. rewrite Hs3, Hs2, Hs0, Ho3, Ho2. done.
  - injection H as <- <-. simpl.
    exists args. split; [rewrite Hargs; by destruct (overrides message w)|].
    rewrite Hmsg, Hbag. unfold defaults_message, defaults_args. simpl in *.
    by rewrite Hargs'.
Qed.

Lemma buildCommand_bindings script bindings message w command w' :
  buildCommand uuid_v1 script bindings message w = Some (command, w') →
  bindingsObjects w'
  = match bindings with
    | Some _ => bindingsObjects w
    | None => bindingsObjects w ++ [[]]
    end.
Proof.
  unfold buildCommand. intros H.
  destruct (bindings_or_new bindings w) as [b w0] eqn:Hb.
  assert (Hb' : bindingsObjects w0
                = match bindings with
                  | Some _ => bindingsObjects w
                  | None => bindingsObjects w ++ [[]]
                  end)
    by (unfold bindings_or_new in Hb; destruct bindings; by injection Hb as _ <-).
  clear Hb.
  match type of H with
  | context [defaults_for_args ?s ?b ?m ?w1] =>
      destruct (defaults_for_args s b m w1) as [[args w2]|] eqn:Hargs;
        [|done]
  end.
  simpl in H.
  match type of H with
  | context [defaults_for_message ?g ?a ?m ?w2] =>
      destruct (defaults_for_message g a m w2) as [[target w3]|] eqn:Hmessage;
        [|done]
  end.
  simpl in H.
  apply defaults_for_args_inv in Hargs as (_ & _ & Hb2 & _).
  apply defaults_for_message_inv in Hmessage as (_ & _ & Hb3 & _).
  simpl in Hb2. rewrite <-Hb', <-Hb2, <-Hb3.
  destruct (useSession w3).
  - destruct (session_of target w3) as [w4|] eqn:Hsess; [|done].
    injection H as _ <-. by apply session_of_inv in Hsess as (_ & -> & _).
  - by injection H as _ <-.
Qed.

End content.

Lemma or_else_same (s : string) : or_else (Some s) s = s.
Proof. unfold or_else. by case_decide. Qed.

Lemma or_else_session (a : option string) : or_else a "session" ≠ "".
Proof. unfold or_else. destruct a; [case_decide|]; done. Qed.

Lemma or_else_nonempty (s b : string) : s ≠ "" → or_else (Some s) b = s.
Proof. intros Hs. unfold or_else. by rewrite decide_False. Qed.

#[local] Arguments or_else : simpl never.

Section built.
Variable uuid_v1 : nat → string.

Lemma buildCommand_plain_runs script bindings w :
  is_Some (buildCommand uuid_v1 script bindings None w).
Proof.
  unfold buildCommand.
  destruct (bindings_or_new bindings w) as [b w0].
  unfold defaults_for_args. simpl.
  rewrite lookup_app_r, Nat.sub_diag by done. simpl.
  unfold defaults_for_message. simpl.
  rewrite lookup_app_r, Nat.sub_diag by done. simpl.
  destruct (useSession w0); [|done].
  unfold session_of. simpl.
  rewrite list_lookup_insert_eq by (rewrite length_app; simpl; lia). simpl.
  rewrite list_lookup_insert_eq by (rewrite length_app; simpl; lia). done.
Qed.

(** X17. Without overrides buildCommand always returns a command: its
    message and argument bag are new objects, the message carries the
    generated identifier and the processor and operation of the client,
    the bag carries the script (the body of the function when a function
    is given), the bindings, the accept type and language of the client
    and binary set to false; in session mode the processor is "session"
    when the client names none and the bag carries the session
    identifier of the client.  The bindings are the object handed in
    or, when none is, a new object that has no property; no other
    bindings object is created and none is changed. *)
Theorem buildCommand_plain script bindings w :
  ∃ command w',
    buildCommand uuid_v1 script bindings None w = Some (command, w') ∧
    command = {| Command.message := length (messages w);
                 Command.messageStream := streams w |} ∧
    messages w' !! length (messages w)
    = Some {| Message.requestId := Some (uuid_v1 (uuids w));
              Message.processor :=
                Some (if useSession w
                      then or_else (Some (Options.processor (options w)))
                                   "session"
                      else Options.processor (options w));
              Message.op := Some (Options.op (options w));
              Message.args := Some (length (argbags w)) |} ∧
    argbags w' !! length (argbags w)
    = Some {| Args.gremlin :=
                Some match script with
                     | ScriptFunction fn => extractFunctionBody fn
                     | ScriptText source => source
                     end;
              Args.bindings :=
                Some match bindings with
                     | Some b => b
                     | None => length (bindingsObjects w)
                     end;
              Args.accept := Some (Options.accept (options w));
              Args.language := Some (Options.language (options w));
              Args.binary := Some false;
              Args.session := if useSession w then sessionId w else None |} ∧
    bindingsObjects w'
    = match bindings with
      | Some _ => bindingsObjects w
      | None => bindingsObjects w ++ [[]]
      end ∧
    (bindings = None →
     bindingsObjects w' !! length (bindingsObjects w) = Some []).
Proof.
  destruct (buildCommand_plain_runs script bindings w) as [[command w'] Hbuild].
  exists command, w'. split; [done|].
  pose proof (buildCommand_content _ _ _ _ _ _ _ Hbuild) as (a & -> & Hmsg & Hbag).
  pose proof (buildCommand_bindings _ _ _ _ _ _ _ Hbuild) as Hobjects.
  apply buildCommand_inv in Hbuild as (Hm & Hs & _).
  split; [destruct command; simpl in *; by subst|].
  rewrite Hm in Hmsg. simpl in *. rewrite Hmsg, Hbag, or_else_same.
  split; [by destruct (useSession w)|]. split; [by destruct (useSession w)|].
  split; [done|]. intros ->. rewrite Hobjects.
  by rewrite lookup_app_r, Nat.sub_diag.
Qed.

(** X18. Whatever the overrides and their argument bag set is kept: the
    generated identifier, the script, the bindings and the options of
    the client only fill what they leave out.  In particular a script
    named in the argument bag of the overrides is sent in place of the
    script handed to the call. *)
Theorem buildCommand_overrides_kept
    script bindings m w command w' given a given_bag :
  buildCommand uuid_v1 script bindings (Some m) w = Some (command, w') →
  messages w !! m = Some given →
  Message.args given = Some a →
  argbags w !! a = Some given_bag →
  Command.message command = m ∧
  ∃ msg bag,
    messages w' !! m = Some msg ∧ Message.args msg = Some a ∧
    argbags w' !! a = Some bag ∧
    (∀ v, Message.requestId given = Some v → Message.requestId msg = Some v) ∧
    (∀ v, Message.op given = Some v → Message.op msg = Some v) ∧
    (useSession w = false →
     ∀ v, Message.processor given = Some v → Message.processor msg = Some v) ∧
    (∀ v, Args.gremlin given_bag = Some v → Args.gremlin bag = Some v) ∧
    (∀ v, Args.bindings given_bag = Some v → Args.bindings bag = Some v) ∧
    (∀ v, Args.accept given_bag = Some v → Args.accept bag = Some v) ∧
    (∀ v, Args.language given_bag = Some v → Args.language bag = Some v) ∧
    (∀ v, Args.binary given_bag = Some v → Args.binary bag = Some v) ∧
    (useSession w = false → Args.session bag = Args.session given_bag).
Proof.
  intros Hbuild Hgiven Ha Hbag.
  pose proof (buildCommand_content _ _ _ _ _ _ _ Hbuild)
    as (a' & Ha' & Hmsg' & Hbag').
  apply buildCommand_inv in Hbuild as (Hm & _).
  unfold overrides in *. simpl in *.
  rewrite Hgiven in *. simpl in *. rewrite Ha in *. simpl in *.
  rewrite Hbag in *. simpl in *. subst a'. rewrite Hm in Hmsg'.
  split; [done|]. eexists _, _. split; [exact Hmsg'|].
  split; [done|]. split; [exact Hbag'|]. simpl.
  split; [by intros v ->|]. split; [by intros v ->|].
  split; [by intros -> v ->|].
  do 5 (split; [by intros v ->|]).
  intros ->. by destruct (Args.session given_bag).
Qed.

(** X19. In session mode the command carries the session identifier of
    the client, whatever session the argument bag of the overrides
    names, and its processor is never empty: it is the processor of the
    overrides when they name one, the processor of the client when it
    names one, and "session" otherwise. *)
Theorem buildCommand_session script bindings message w command w' :
  buildCommand uuid_v1 script bindings message w = Some (command, w') →
  useSession w = true →
  ∃ msg a bag p,
    messages w' !! Command.message command = Some msg ∧
    Message.args msg = Some a ∧ argbags w' !! a = Some bag ∧
    Args.session bag = sessionId w ∧
    Message.processor msg = Some p ∧ p ≠ "" ∧
    p = or_else (overrides message w ≫= Message.processor)
                (or_else (Some (Options.processor (options w))) "session").
Proof.
  intros Hbuild Hsession.
  pose proof (buildCommand_content _ _ _ _ _ _ _ Hbuild)
    as (a & _ & Hmsg & Hbag).
  rewrite Hsession in Hmsg, Hbag.
  eexists _, a, _, _. split; [exact Hmsg|]. split; [done|].
  split; [exact Hbag|]. split; [done|]. split; [done|].
  split; [apply or_else_session|].
  destruct (overrides message w) as [[? [processor|] ? ?]|]; simpl.
  - destruct (decide (processor = "")) as [->|Hne]; [reflexivity|].
    by rewrite !(or_else_nonempty processor) by done.
  - by rewrite or_else_same.
  - by rewrite or_else_same.
Qed.

(** X20. Overrides that went through buildCommand once are complete: a
    second call with the same object returns it as the message of the
    command again and changes neither the object nor its argument bag,
    so that the second command has the identifier and the script of the
    first, whatever script and bindings the second call is given. *)
Theorem buildCommand_overrides_reused
    script1 bindings1 script2 bindings2 m w c1 w1 c2 w2 :
  buildCommand uuid_v1 script1 bindings1 (Some m) w = Some (c1, w1) →
  buildCommand uuid_v1 script2 bindings2 (Some m) w1 = Some (c2, w2) →
  Command.message c1 = m ∧ Command.message c2 = m ∧
  ∃ msg a bag,
    messages w1 !! m = Some msg ∧ messages w2 !! m = Some msg ∧
    Message.args msg = Some a ∧
    argbags w1 !! a = Some bag ∧ argbags w2 !! a = Some bag ∧
    is_Some (Message.requestId msg) ∧ is_Some (Args.gremlin bag).
Proof.
  intros Hbuild1 Hbuild2.
  pose proof (buildCommand_content _ _ _ _ _ _ _ Hbuild1)
    as (a1 & _ & Hmsg1 & Hbag1).
  pose proof (buildCommand_content _ _ _ _ _ _ _ Hbuild2)
    as (a2 & Ha2 & Hmsg2 & Hbag2).
  apply buildCommand_inv in Hbuild1
    as (Hm1 & _ & (Ho & Hu & Hs & _) & _).
  apply buildCommand_inv in Hbuild2 as (Hm2 & _).
  rewrite Hm1 in Hmsg1. rewrite Hm2 in Hmsg2.
  unfold overrides in Ha2, Hmsg2, Hbag2. simpl in Ha2, Hmsg2, Hbag2.
  rewrite Hmsg1 in Ha2, Hmsg2, Hbag2. simpl in Ha2, Hmsg2, Hbag2. subst a2.
  rewrite Hbag1 in Hbag2. simpl in Hbag2.
  rewrite Hu, Ho in Hmsg2. rewrite Hu, Ho, Hs in Hbag2.
  split; [done|]. split; [done|].
  eexists _, a1, _. split; [exact Hmsg1|]. split.
  { rewrite Hmsg2. unfold overrides. simpl.
    destruct (default Message.empty (messages w !! m)) as [[?|] [?|] [?|] ?];
      simpl; destruct (useSession w); simpl;
      rewrite ?(or_else_nonempty (or_else _ "session"))
        by apply or_else_session;
      done. }
  split; [done|]. split; [exact Hbag1|]. split.
  { rewrite Hbag2. unfold overrides. simpl.
    destruct (default Args.empty _) as [[?|] [?|] [?|] [?|] [?|] [?|]];
      simpl; by destruct (useSession w). }
  split; simpl.
  - clear. unfold defaults_of. by destruct (Message.requestId _); eauto.
  - clear. unfold defaults_of. by destruct (Args.gremlin _); eauto.
Qed.

End built.

Lemma buildCommand_overrides_kept_witness :
  ∃ m a w command w',
    Run.scripted Sample.client = (m, a, w) ∧
    buildCommand Sample.uuid_v1 (ScriptText "1+1") None (Some m) w
    = Some (command, w') ∧
    ∃ msg bag,
      messages w' !! m = Some msg ∧ argbags w' !! a = Some bag ∧
      Message.op msg = Some "traversal" ∧
      Message.processor msg = Some "" ∧
      Args.gremlin bag = Some "g.V().count()" ∧
      Args.language bag = Some "nashorn" ∧
      Args.session bag = Some "mine".
Proof.
  eexists _, _, _, _, _. split; [vm_compute; reflexivity|].
  match goal with |- buildCommand _ _ _ _ ?w = _ ∧ _ => set (world := w) end.
  assert (Hbuild :
    buildCommand Sample.uuid_v1 (ScriptText "1+1") None (Some 0%nat) world
    = Some ({| Command.message := 0%nat; Command.messageStream := 0%nat |},
            default world
              (snd <$> buildCommand Sample.uuid_v1 (ScriptText "1+1") None
                         (Some 0%nat) world)))
    by (vm_compute; reflexivity).
  split; [exact Hbuild|].
  destruct (buildCommand_overrides_kept Sample.uuid_v1 _ _ _ _ _ _
              {| Message.requestId := None; Message.processor := Some "";
                 Message.op := Some "traversal"; Message.args := Some 0%nat |}
              0%nat
              {| Args.gremlin := Some "g.V().count()"; Args.bindings := None;
                 Args.accept := None; Args.language := Some "nashorn";
                 Args.binary := None; Args.session := Some "mine" |}
              Hbuild eq_refl eq_refl eq_refl)
    as (_ & msg & bag & Hmsg & _ & Hbag & _ & Hop & Hprocessor & Hgremlin
        & _ & _ & Hlanguage & _ & Hsession).
  exists msg, bag. split; [exact Hmsg|]. split; [exact Hbag|].
  split; [exact (Hop _ eq_refl)|].
  split; [exact (Hprocessor eq_refl _ eq_refl)|].
  split; [exact (Hgremlin _ eq_refl)|].
  split; [exact (Hlanguage _ eq_refl)|].
  exact (Hsession eq_refl).
Defined.

Lemma buildCommand_session_witness :
  ∃ m a w command w',
    Run.scripted Run.session_client = (m, a, w) ∧
    buildCommand Sample.uuid_v1 (ScriptText "1+1") None (Some m) w
    = Some (command, w') ∧
    ∃ msg a' bag p,
      messages w' !! Command.message command = Some msg ∧
      Message.args msg = Some a' ∧ argbags w' !! a' = Some bag ∧
      Args.session bag = Some "uuid-0" ∧
      Message.processor msg = Some p ∧ p ≠ "" ∧ p = "session".
Proof.
  eexists _, _, _, _, _. split; [vm_compute; reflexivity|].
  match goal with |- buildCommand _ _ _ _ ?w = _ ∧ _ => set (world := w) end.
  assert (Hbuild :
    buildCommand Sample.uuid_v1 (ScriptText "1+1") None (Some 0%nat) world
    = Some ({| Command.message := 0%nat; Command.messageStream := 0%nat |},
            default world
              (snd <$> buildCommand Sample.uuid_v1 (ScriptText "1+1") None
                         (Some 0%nat) world)))
    by (vm_compute; reflexivity).
  split; [exact Hbuild|].
  exact (buildCommand_session Sample.uuid_v1 _ _ _ _ _ _ Hbuild eq_refl).
Defined.

Lemma buildCommand_overrides_reused_witness :
  ∃ m a w c1 w1 c2 w2,
    Run.scripted Sample.client = (m, a, w) ∧
    buildCommand Sample.uuid_v1 (ScriptText "1+1") None (Some m) w
    = Some (c1, w1) ∧
    buildCommand Sample.uuid_v1 (ScriptText "g.E()") None (Some m) w1
    = Some (c2, w2) ∧
    Command.message c1 = m ∧ Command.message c2 = m ∧
    ∃ msg a' bag,
      messages w1 !! m = Some msg ∧ messages w2 !! m = Some msg ∧
      Message.args msg = Some a' ∧
      argbags w1 !! a' = Some bag ∧ argbags w2 !! a' = Some bag ∧
      is_Some (Message.requestId msg) ∧ is_Some (Args.gremlin bag).
Proof.
  eexists _, _, _, _, _, _, _. split; [vm_compute; reflexivity|].
  match goal with |- buildCommand _ _ _ _ ?w = _ ∧ _ => set (world := w) end.
  assert (Hbuild1 :
    buildCommand Sample.uuid_v1 (ScriptText "1+1") None (Some 0%nat) world
    = Some ({| Command.message := 0%nat; Command.messageStream := 0%nat |},
            default world
              (snd <$> buildCommand Sample.uuid_v1 (ScriptText "1+1") None
                         (Some 0%nat) world)))
    by (vm_compute; reflexivity).
  split; [exact Hbuild1|].
  match goal with |- buildCommand _ _ _ _ ?w = _ ∧ _ => set (world1 := w) end.
  assert (Hbuild2 :
    buildCommand Sample.uuid_v1 (ScriptText "g.E()") None (Some 0%nat) world1
    = Some ({| Command.message := 0%nat; Command.messageStream := 1%nat |},
            default world1
              (snd <$> buildCommand Sample.uuid_v1 (ScriptText "g.E()") None
                         (Some 0%nat) world1)))
    by (vm_compute; reflexivity).
  split; [exact Hbuild2|].
  exact (buildCommand_overrides_reused Sample.uuid_v1 _ _ _ _ _ _ _ _ _ _
           Hbuild1 Hbuild2).
Defined.

(** ** Submitting around the opening of the socket *)

Section around_open.
Variable uuid_v1 : nat → string.
Variable JSON_stringify : MessageGraph → string.

Lemma defaults_for_args_opened script bindings message e c w :
  defaults_for_args script bindings message (call e (set_connected c w))
  = (λ '(args, w'), (args, call e (set_connected c w')))
      <$> defaults_for_args script bindings message w.
Proof.
  unfold defaults_for_args.
  destruct message as [m|]; simpl.
  - destruct (messages w !! m) as [msg|]; simpl; [|done].
    destruct (Message.args msg) as [a|]; simpl.
    + by destruct (argbags w !! a).
    + by destruct ((argbags w ++ [Args.empty]) !! length (argbags w)).
  - by destruct ((argbags w ++ [Args.empty]) !! length (argbags w)).
Qed.

Lemma defaults_for_message_opened guid args message e c w :
  defaults_for_message guid args message (call e (set_connected c w))
  = (λ '(target, w'), (target, call e (set_connected c w')))
      <$> defaults_for_message guid args message w.
Proof.
  unfold defaults_for_message.
  destruct message as [m|]; simpl.
  - by destruct (messages w !! m).
  - by destruct ((messages w ++ [Message.empty]) !! length (messages w)).
Qed.

Lemma session_of_opened message e c w :
  session_of message (call e (set_connected c w))
  = (λ w', call e (set_connected c w')) <$> session_of message w.
Proof.
  unfold session_of. simpl.
  destruct (messages w !! message) as [msg|]; simpl; [|done].
  destruct (Message.args msg) as [a|]; simpl; [|done].
  by destruct (argbags w !! a).
Qed.

Lemma buildCommand_opened script bindings message e c w :
  buildCommand uuid_v1 script bindings message (call e (set_connected c w))
  = (λ '(command, w'), (command, call e (set_connected c w')))
      <$> buildCommand uuid_v1 script bindings message w.
Proof.
  unfold buildCommand.
  assert (Hb : bindings_or_new bindings (call e (set_connected c w))
               = ((bindings_or_new bindings w).1,
                  call e (set_connected c (bindings_or_new bindings w).2)))
    by (by destruct bindings).
  rewrite Hb. destruct (bindings_or_new bindings w) as [b w0]. simpl.
  change (set_uuids (S (uuids w0))
            (set_streams (S (streams w0)) (call e (set_connected c w0))))
    with (call e (set_connected c
            (set_uuids (S (uuids w0)) (set_streams (S (streams w0)) w0)))).
  rewrite defaults_for_args_opened.
  destruct (defaults_for_args _ _ _ _) as [[args w1]|]; simpl; [|done].
  rewrite defaults_for_message_opened.
  destruct (defaults_for_message _ _ _ _) as [[target w2]|]; simpl; [|done].
  destruct (useSession w2); [|done].
  rewrite session_of_opened. by destruct (session_of target w2).
Qed.

(** X21. While the socket has not opened and the queue is empty, a script
    submitted just before the socket opens and one submitted just after
    leave the client in the same state, with the same calls made: the
    connect event, then the request sent.  Both throw when the request
    cannot be built or serialised. *)
Theorem submit_around_open script bindings message w :
  connected w = false → queue w = [] →
  returned
    ('(s, w1) ← messageStream uuid_v1 JSON_stringify script bindings message w;
     w2 ← onConnectionOpen JSON_stringify w1; returns (s, w2))
  = returned
      (w1 ← onConnectionOpen JSON_stringify w;
       messageStream uuid_v1 JSON_stringify script bindings message w1).
Proof.
  intros Hconnected Hqueue.
  unfold onConnectionOpen at 2. unfold executeQueue. simpl.
  rewrite Hqueue. simpl.
  unfold messageStream. rewrite buildCommand_opened.
  destruct (buildCommand _ _ _ _ _) as [[command w1]|] eqn:Hbuild; [|done].
  simpl.
  apply buildCommand_inv in Hbuild
    as (_ & _ & (_ & _ & _ & Hc1 & Hq1 & _) & _).
  rewrite Hconnected in Hc1. rewrite Hqueue in Hq1.
  unfold sendCommand. simpl.
  destruct (messages w1 !! Command.message command) as [msg|]; [|done].
  simpl.
  destruct (decide (Message.op msg = Some "authentication"));
    simpl; rewrite Hc1; simpl.
  all: unfold onConnectionOpen, executeQueue; simpl; rewrite Hq1; simpl.
  all: rewrite !sendMessage_spec.
  all: repeat match goal with
       | |- context [formatedMessage _ ?m ?w0] =>
           tryif constr_eq w0 w1 then fail
           else rewrite (formatedMessage_heap JSON_stringify m w1 w0) by done
       end.
  all: destruct (formatedMessage _ _ w1) as [data|]; simpl; [|done].
  all: do 2 f_equal; destruct w1; simpl in Hq1; subst; reflexivity.
Qed.

End around_open.

Lemma submit_around_open_witness :
  connected Sample.client = false ∧
  returned
    ('(s, w1) ← messageStream Sample.uuid_v1 Sample.JSON_stringify
                  (ScriptText "g.V()") None None Sample.client;
     w2 ← onConnectionOpen Sample.JSON_stringify w1; returns (s, w2))
  = returned
      (w1 ← onConnectionOpen Sample.JSON_stringify Sample.client;
       messageStream Sample.uuid_v1 Sample.JSON_stringify
         (ScriptText "g.V()") None None w1).
Proof.
  split; [reflexivity|].
  exact (submit_around_open Sample.uuid_v1 Sample.JSON_stringify
           (ScriptText "g.V()") None None Sample.client eq_refl eq_refl).
Defined.

(** ** The session of a client *)

Section session.
Variable uuid_v1 : nat → string.
Variable JSON_stringify : MessageGraph → string.

(** X22. Throughout a run the session of the client is the one of its
    construction: the session mode is the one the options ask for, the
    session identifier is the first token generated when the client is
    in session mode and undefined otherwise, and the tokens generated
    for the requests are later ones. *)
Theorem session_is_kept w :
  reachable uuid_v1 JSON_stringify w →
  useSession w = Options.session (options w) ∧
  sessionId w = (if useSession w then Some (uuid_v1 0) else None) ∧
  ((if useSession w then 1 else 0) ≤ uuids w)%nat.
Proof.
  induction 1 as [port host options|w a Hw IH]; simpl.
  { by destruct (Options.session options). }
  destruct (perform_grows uuid_v1 JSON_stringify a w)
    as (-> & -> & -> & Hle & _).
  destruct IH as (? & ? & ?). repeat split; [done|done|lia].
Qed.

End session.

Lemma session_is_kept_witness :
  let w := performs Sample.uuid_v1 Sample.JSON_stringify Run.actions
             Run.session_client in
  useSession w = true ∧ sessionId w = Some "uuid-0" ∧ (1 ≤ uuids w)%nat.
Proof.
  cbv zeta.
  apply (session_is_kept Sample.uuid_v1 Sample.JSON_stringify
           (performs Sample.uuid_v1 Sample.JSON_stringify Run.actions
              Run.session_client)).
  apply (reachable_performs _ _ Run.actions Run.session_client).
  apply reachable_new.
Defined.

(** ** The address of the server *)

(** X23. A port of 0 and an empty host name count as missing: the client
    then connects to port 8182 of localhost. *)
Theorem GremlinClient_falsy uuid_v1 options :
  GremlinClient uuid_v1 (Some 0%N) (Some "") options
  = GremlinClient uuid_v1 None None options ∧
  trace (GremlinClient uuid_v1 None None options)
  = [ws_open ((if Options.ssl options then "wss://" else "ws://")
                +:+ "localhost:8182" +:+ Options.path options)
             (Options.rejectUnauthorized options)].
Proof. split; [done|]. simpl. by destruct (Options.ssl options). Qed.

(** ** A close seen from the stream of a command *)

Lemma consumer_events_other s (error : Error) cancelled :
  s ∉ Command.messageStream <$> cancelled →
  consumer_events s
    ((λ c, stream_emit_error (Command.messageStream c) error) <$> cancelled)
  = [].
Proof.
  induction cancelled as [|c cancelled IH]; [done|].
  rewrite !fmap_cons. intros [Hc Hs]%not_elem_of_cons.
  etrans; [apply (consumer_events_app s [_])|]. rewrite IH by done.
  unfold consumer_events. simpl. by rewrite decide_False.
Qed.

Lemma consumer_events_errors s (error : Error) cancelled :
  NoDup (Command.messageStream <$> cancelled) →
  s ∈ Command.messageStream <$> cancelled →
  consumer_events s
    ((λ c, stream_emit_error (Command.messageStream c) error) <$> cancelled)
  = [consumer_error (rewrap error)].
Proof.
  induction cancelled as [|c cancelled IH]; [by intros _ ?%elem_of_nil|].
  rewrite !fmap_cons. intros [Hc Hnd]%NoDup_cons Hs.
  etrans; [apply (consumer_events_app s [_])|].
  unfold consumer_events at 1. simpl.
  destruct (decide (Command.messageStream c = s)) as [<-|Hne].
  - by rewrite consumer_events_other.
  - apply elem_of_cons in Hs as [?|Hs]; [done|]. by rewrite IH.
Qed.

(** X24. In a run, when the socket closes while the caller listens for
    the errors of every stream of the table, the stream that [stream]
    returned for a command of the table is handed exactly one error,
    whose message is "Error: WebSocket closed"; the close event that
    the error of the MessageStream carries as its details is not passed
    on. *)
Theorem close_streamed uuid_v1 JSON_stringify event w key command :
  reachable uuid_v1 JSON_stringify w →
  JsObject.get key (commands w) = Some command →
  Command.messageStream command ∈ pipes w →
  Forall (λ c, Command.messageStream c ∈ listened w) (commands w).*2 →
  ∃ w', handleDisconnection event w = returns w' ∧
    emitted (Command.messageStream command) w'
    = emitted (Command.messageStream command) w
      ++ [consumer_error {| error_message := "Error: WebSocket closed";
                            error_details := None |}].
Proof.
  intros (Hkeys & _ & Hnd & _)%reachable_well_streamed Hget Hpipe Hall.
  assert (Hperm : (JsObject.entries (commands w)).*2 ≡ₚ (commands w).*2)
    by (by rewrite entries_perm).
  assert (Hall' : Forall (λ c, Command.messageStream c ∈ listened w)
                         (JsObject.entries (commands w)).*2)
    by (by rewrite Hperm).
  unfold handleDisconnection. rewrite cancelPendingCommands_spec by done.
  cbv zeta. rewrite decide_True by done. simpl.
  eexists. split; [reflexivity|]. unfold emitted.
  match goal with |- context [calls ?events ?w0] =>
    destruct (calls_streams events w0) as (_ & -> & _);
    rewrite (calls_trace events w0)
  end.
  simpl. rewrite !decide_True by done.
  rewrite consumer_events_app. f_equal.
  rewrite reached_all by done.
  rewrite consumer_events_errors; [done|by rewrite Hperm|].
  rewrite Hperm. apply list_elem_of_fmap. exists command.
  split; [done|]. by eapply get_values.
Qed.

Lemma close_streamed_witness :
  ∃ w', handleDisconnection Sample.closing Run.listening = returns w' ∧
    emitted 1 w'
    = emitted 1 Run.listening
      ++ [consumer_error {| error_message := "Error: WebSocket closed";
                            error_details := None |}].
Proof.
  apply (close_streamed Sample.uuid_v1 Sample.JSON_stringify Sample.closing
           Run.listening "uuid-1"
           {| Command.message := 1%nat; Command.messageStream := 1%nat |}).
  - apply (reachable_performs _ _ [caller_listens 0; caller_listens 1]).
    apply (reachable_performs _ _
             [ caller_calls_messageStream (ScriptText "g.V()") None None;
               caller_calls_stream (ScriptText "g.E()") None None ]
             Sample.client).
    apply reachable_new.
  - vm_compute. reflexivity.
  - apply (bool_decide_unpack _). vm_compute. reflexivity.
  - apply (bool_decide_unpack _). vm_compute. reflexivity.
Defined.

(** ** A request from the call to the socket *)

Section request.
Variable uuid_v1 : nat → string.
Variable JSON_stringify : MessageGraph → string.

(** X25. A script submitted without overrides, with bindings that exist
    or none, always goes through: the command is registered under the
    generated identifier; on an open socket the request is sent at once,
    as the JSON text of the message built, its argument bag and the
    bindings (an empty object when none are given), and the queue is
    left alone; before the socket opens nothing is sent and the command
    joins the end of the queue. *)
Theorem messageStream_plain script bindings w object :
  match bindings with
  | Some b => bindingsObjects w !! b
  | None => Some []
  end = Some object →
  ∃ w' msg bag,
    messageStream uuid_v1 JSON_stringify script bindings None w
    = returns (streams w, w') ∧
    messages w' !! length (messages w) = Some msg ∧
    Message.requestId msg = Some (uuid_v1 (uuids w)) ∧
    argbags w' !! length (argbags w) = Some bag ∧
    let command := {| Command.message := length (messages w);
                      Command.messageStream := streams w |} in
    commands w' = JsObject.set (uuid_v1 (uuids w)) command (commands w) ∧
    if connected w
    then queue w' = queue w ∧
         trace w' = trace w
           ++ [ws_send (Text (JSON_stringify
                                {| graph_message := msg;
                                   graph_args := Some bag;
                                   graph_bindings := Some object |}))]
    else queue w' = queue w ++ [command] ∧ trace w' = trace w.
Proof.
  intros Hobject.
  destruct (buildCommand_plain_runs uuid_v1 script bindings w)
    as [[command w1] Hbuild].
  pose proof (buildCommand_content _ _ _ _ _ _ _ Hbuild)
    as (a & Ha & Hmsg & Hbag).
  pose proof (buildCommand_bindings _ _ _ _ _ _ _ Hbuild) as Hobjects.
  pose proof Hbuild as Hinv.
  apply buildCommand_inv in Hinv
    as (Hm & Hs & (_ & _ & _ & Hc1 & Hq1 & Hcommands1 & _ & Ht1) & _).
  simpl in Ha, Hmsg, Hbag. subst a. rewrite Hm in Hmsg.
  match type of Hmsg with _ = Some ?m => set (msg := m) in * end.
  match type of Hbag with _ = Some ?b => set (bag := b) in * end.
  assert (Hid : Message.requestId msg = Some (uuid_v1 (uuids w))) by done.
  assert (Hargs : Message.args msg = Some (length (argbags w))) by done.
  assert (Hbinary : Args.binary bag = Some false) by done.
  assert (Hbindings : Args.bindings bag
            = Some match bindings with
                   | Some b => b
                   | None => length (bindingsObjects w)
                   end) by done.
  clearbody msg bag.
  assert (Hreach : reach (length (messages w)) w1
            = Some {| graph_message := msg; graph_args := Some bag;
                      graph_bindings := Some object |}).
  { unfold reach. rewrite Hmsg. simpl. rewrite Hargs, Hbag. simpl.
    rewrite Hbindings, Hobjects. destruct bindings as [b|].
    - by rewrite Hobject.
    - rewrite lookup_app_r, Nat.sub_diag by done. simpl.
      by injection Hobject as <-. }
  assert (Hdata : formatedMessage JSON_stringify (length (messages w)) w1
            = Some (Text (JSON_stringify
                            {| graph_message := msg; graph_args := Some bag;
                               graph_bindings := Some object |}))).
  { unfold formatedMessage. rewrite Hmsg. simpl. rewrite Hargs. simpl.
    rewrite Hbag. simpl. rewrite Hbinary, decide_False by done.
    by rewrite Hreach. }
  destruct command as [m s]. simpl in Hm, Hs. subst m s.
  unfold messageStream. rewrite Hbuild. simpl.
  rewrite (sendCommand_spec JSON_stringify
             {| Command.message := length (messages w);
                Command.messageStream := streams w |} msg w1 Hmsg).
  cbv zeta. cbn [Command.message]. rewrite Hdata, Hid, Hc1, Hcommands1.
  destruct (connected w); simpl.
  - eexists _, msg, bag. split; [reflexivity|].
    case_decide; simpl; rewrite Hq1, Ht1; by repeat split.
  - eexists _, msg, bag. split; [reflexivity|].
    case_decide; simpl; rewrite Hq1, Ht1; by repeat split.
Qed.

End request.

Lemma messageStream_plain_witness :
  ∃ w, onConnectionOpen Sample.JSON_stringify Sample.client = returns w ∧
    ∃ w' msg bag,
      messageStream Sample.uuid_v1 Sample.JSON_stringify
        (ScriptText "g.V()") None None w = returns (0%nat, w') ∧
      messages w' !! 0%nat = Some msg ∧
      Message.requestId msg = Some "uuid-0" ∧
      argbags w' !! 0%nat = Some bag ∧
      commands w'
      = [("uuid-0", {| Command.message := 0%nat;
                       Command.messageStream := 0%nat |})] ∧
      queue w' = [] ∧
      trace w' = trace w
        ++ [ws_send (Text (Sample.JSON_stringify
                             {| graph_message := msg;
                                graph_args := Some bag;
                                graph_bindings := Some [] |}))].
Proof.
  eexists. split; [vm_compute; reflexivity|].
  match goal with |- context [trace ?w ++ _] => set (world := w) end.
  exact (messageStream_plain Sample.uuid_v1 Sample.JSON_stringify
           (ScriptText "g.V()") None world [] eq_refl).
Defined.

(** ** A new stream *)

(** X26. In a run, the stream that [stream] returns is a new one, piped
    into a pipeline: no call was made on it before, so that its consumer
    has been handed nothing yet, and the next stream returned is
    another one. *)
Theorem stream_starts_empty
    uuid_v1 JSON_stringify script bindings message w s w' :
  reachable uuid_v1 JSON_stringify w →
  stream uuid_v1 JSON_stringify script bindings message w = returns (s, w') →
  s ∈ pipes w' ∧ emitted s w' = [] ∧
  consumer_events s (trace w') = [] ∧ ¬ ended s (trace w') ∧
  ∀ script' bindings' message' s' w'',
    stream uuid_v1 JSON_stringify script' bindings' message' w'
    = returns (s', w'') → s' ≠ s.
Proof.
  intros Hw Hstream.
  pose proof (reachable_step _ _ _ (caller_calls_stream script bindings message)
                Hw) as Hw'.
  simpl in Hw'. rewrite Hstream in Hw'. simpl in Hw'.
  apply reachable_well_streamed in Hw, Hw'.
  destruct (stream_new _ _ _ _ _ _ _ _ Hw Hstream) as (-> & Hs & Hp & Hnone).
  assert (Hpipe : streams w ∈ pipes w')
    by (rewrite Hp; apply elem_of_app; right; by left).
  split; [done|]. unfold emitted. rewrite decide_True by done.
  split; [by apply consumer_events_none|].
  split; [by apply consumer_events_none|]. split.
  - intros (e & He & _ & Hes). by apply (Hnone e).
  - intros script' bindings' message' s' w'' Hnext.
    destruct (stream_new _ _ _ _ _ _ _ _ Hw' Hnext) as (-> & _). lia.
Qed.

Lemma stream_starts_empty_witness :
  ∃ w', stream Sample.uuid_v1 Sample.JSON_stringify
          (ScriptText "1+1") None None Run.waiting = returns (2%nat, w') ∧
    emitted 2 w' = [] ∧ ¬ ended 2 (trace w').
Proof.
  assert (Hstream :
    stream Sample.uuid_v1 Sample.JSON_stringify (ScriptText "1+1") None None
      Run.waiting
    = returns (2%nat,
               left_by (snd <$> stream Sample.uuid_v1 Sample.JSON_stringify
                                  (ScriptText "1+1") None None Run.waiting)))
    by (vm_compute; reflexivity).
  assert (Hworld : reachable Sample.uuid_v1 Sample.JSON_stringify Run.waiting).
  { apply (reachable_performs _ _
             [ caller_calls_messageStream (ScriptText "g.V()") None None;
               caller_calls_stream (ScriptText "g.E()") None None;
               socket_delivers Sample.success ] Sample.client).
    apply reachable_new. }
  eexists. split; [exact Hstream|].
  destruct (stream_starts_empty Sample.uuid_v1 Sample.JSON_stringify
              _ _ _ Run.waiting _ _ Hworld Hstream)
    as (_ & Hempty & _ & Hopen & _).
  split; [exact Hempty|exact Hopen].
Defined.

(** ** A flush that is interrupted *)

Section interrupted.
Variable JSON_stringify : MessageGraph → string.

Lemma executeQueue_loop_interrupted command remaining : ∀ sent w payloads,
  queue w = sent ++ command :: remaining →
  Forall2 (λ c data,
             formatedMessage JSON_stringify (Command.message c) w = Some data)
          sent payloads →
  formatedMessage JSON_stringify (Command.message command) w = None →
  executeQueue_loop JSON_stringify (sent ++ command :: remaining) w
  = throws (calls (ws_send <$> payloads) (set_queue remaining w)).
Proof.
  induction sent as [|c rest IH]; intros w payloads Hqueue Hall Hnone.
  - apply Forall2_nil_inv_l in Hall as ->. simpl. rewrite sendMessage_spec.
    rewrite (formatedMessage_heap _ _ w (set_queue remaining w)) by done.
    by rewrite Hnone.
  - apply Forall2_cons_inv_l in Hall as (data & payloads' & Hdata & Hrest & ->).
    simpl. rewrite sendMessage_spec.
    rewrite (formatedMessage_heap _ _ w (set_queue _ w)) by done.
    rewrite Hdata. simpl. rewrite (IH _ payloads'); [done|done| |].
    + eapply Forall2_impl; [exact Hrest|]. simpl. intros c' d <-.
      by apply formatedMessage_heap.
    + rewrite <-Hnone. by apply formatedMessage_heap.
Qed.

(** X27. The socket opens while a message of the queue cannot be
    serialised, its argument bag having been taken away: the commands
    before it are sent, onConnectionOpen throws, and the client is left
    connected with the commands after it still in the queue. *)
Theorem onConnectionOpen_interrupted w sent command remaining payloads :
  queue w = sent ++ command :: remaining →
  Forall2 (λ c data,
             formatedMessage JSON_stringify (Command.message c) w = Some data)
          sent payloads →
  formatedMessage JSON_stringify (Command.message command) w = None →
  ∃ w', onConnectionOpen JSON_stringify w = throws w' ∧
    connected w' = true ∧ queue w' = remaining ∧
    commands w' = commands w ∧
    trace w' = trace w ++ client_emit "connect" :: (ws_send <$> payloads).
Proof.
  intros Hqueue Hall Hnone. unfold onConnectionOpen, executeQueue. simpl.
  rewrite Hqueue.
  rewrite (executeQueue_loop_interrupted command remaining sent _ payloads);
    [|done| |].
  - eexists. split; [reflexivity|].
    match goal with |- context [calls ?events ?w0] =>
      destruct (calls_this events w0) as (-> & -> & -> & _);
      rewrite (calls_trace events w0)
    end.
    simpl. by rewrite <-app_assoc.
  - eapply Forall2_impl; [exact Hall|]. simpl. intros c d <-.
    by apply formatedMessage_heap.
  - rewrite <-Hnone. by apply formatedMessage_heap.
Qed.

End interrupted.

(** An instance: three scripts wait and the caller has emptied the
    message of the second. *)
Lemma onConnectionOpen_interrupted_witness :
  ∃ data w',
    queue Run.emptied
    = [ {| Command.message := 0%nat; Command.messageStream := 0%nat |} ]
      ++ {| Command.message := 1%nat; Command.messageStream := 1%nat |}
      :: [ {| Command.message := 2%nat; Command.messageStream := 2%nat |} ] ∧
    onConnectionOpen Sample.JSON_stringify Run.emptied = throws w' ∧
    connected w' = true ∧
    queue w' = [ {| Command.message := 2%nat; Command.messageStream := 2%nat |} ] ∧
    commands w' = commands Run.emptied ∧
    trace w' = trace Run.emptied ++ [client_emit "connect"; ws_send data].
Proof.
  eexists (default (Text "")
             (formatedMessage Sample.JSON_stringify 0%nat Run.emptied)).
  assert (Hqueue :
    queue Run.emptied
    = [ {| Command.message := 0%nat; Command.messageStream := 0%nat |} ]
      ++ {| Command.message := 1%nat; Command.messageStream := 1%nat |}
      :: [ {| Command.message := 2%nat; Command.messageStream := 2%nat |} ])
    by (vm_compute; reflexivity).
  destruct (onConnectionOpen_interrupted Sample.JSON_stringify Run.emptied
              _ _ _
              [default (Text "")
                 (formatedMessage Sample.JSON_stringify 0%nat Run.emptied)]
              Hqueue)
    as (w' & Hw'); [| |by exists w'].
  - constructor; [vm_compute; reflexivity|constructor].
  - vm_compute. reflexivity.
Defined.

(** ** The stream of messageStream *)

Lemma frames_app events1 events2 :
  frames_of (events1 ++ events2) = frames_of events1 ++ frames_of events2.
Proof. unfold frames_of. apply omap_app. Qed.

Lemma raw_events_frames s calls :
  frames_of (raw_events s calls) = pushed s calls ∧
  values (raw_events s calls) = [].
Proof.
  induction calls as [|e calls [IHf IHv]]; [done|].
  change (e :: calls) with ([e] ++ calls).
  rewrite (raw_events_app s [e]), (pushed_app s [e]), frames_app, values_app,
    IHf, IHv, app_nil_r.
  unfold raw_events.
  destruct e as [| | |s' [frame|]|s' e]; simpl; try done.
  all: by case_decide.
Qed.

Lemma raw_events_none s calls :
  (∀ e, e ∈ calls → event_stream e ≠ Some s) → raw_events s calls = [].
Proof.
  induction calls as [|e calls IH]; intros Hcalls; [done|].
  change (e :: calls) with ([e] ++ calls).
  rewrite (raw_events_app s [e]), IH, app_nil_r
    by (intros e' He'; apply Hcalls; by right).
  assert (He : event_stream e ≠ Some s) by (apply Hcalls; by left).
  unfold raw_events. simpl.
  destruct e as [| | |s' [frame|]|s' e]; simpl in *; try done.
  all: rewrite decide_False; [done|congruence].
Qed.

Section raw.
Variable uuid_v1 : nat → string.
Variable JSON_stringify : MessageGraph → string.

(** The pipelines are among the streams created. *)
Lemma reachable_pipes w :
  reachable uuid_v1 JSON_stringify w →
  ∀ s, s ∈ pipes w → (s < streams w)%nat.
Proof.
  induction 1 as [port host options|w a _ IH]; simpl.
  { by intros s ?%elem_of_nil. }
  destruct (perform_grows uuid_v1 JSON_stringify a w)
    as (_ & _ & _ & _ & Hs & [->|[-> ->]] & _).
  - intros s Hin%IH. lia.
  - intros s [Hin%IH| ->%list_elem_of_singleton]%elem_of_app; lia.
Qed.

(** X28. The stream that [messageStream] returns is a new one that is
    piped nowhere: whatever happens next, it emits the frames pushed to
    the MessageStream of the command as they are, one event per frame
    in the order of arrival, and never a value of their data. *)
Theorem messageStream_whole script bindings message w s w1 w2 :
  reachable uuid_v1 JSON_stringify w →
  messageStream uuid_v1 JSON_stringify script bindings message w
  = returns (s, w1) →
  runs uuid_v1 JSON_stringify w1 w2 →
  (s ∉ pipes w2) ∧ emitted s w1 = [] ∧
  frames_of (emitted s w2) = pushed s (trace w2) ∧
  values (emitted s w2) = [].
Proof.
  intros Hw Hstream Hruns.
  pose proof (reachable_pipes w Hw) as Hpipes.
  apply reachable_well_streamed in Hw as (_ & _ & _ & _ & Hbound).
  unfold messageStream in Hstream.
  destruct (buildCommand _ _ _ _ _) as [[command w0]|] eqn:Hbuild; [|done].
  simpl in Hstream.
  destruct (messageStream_built uuid_v1 JSON_stringify _ _ _ _ _ _ Hbuild)
    as (key & quiet & _ & Hs & Hs' & _ & Hp & _ & _ & _ & _ & _ & Ht & Hquiet).
  destruct (sendCommand _ _ _) as [w1'|w1']; simpl in *; [|done].
  injection Hstream as <- <-. rewrite Hs.
  apply quiet_sends in Hquiet. rewrite Forall_forall in Hquiet.
  assert (Hnone : ∀ e, e ∈ trace w1' → event_stream e ≠ Some (streams w)).
  { rewrite Ht. intros e [He|He]%elem_of_app Hes.
    - specialize (Hbound e _ He Hes). lia.
    - by rewrite (Hquiet e He) in Hes. }
  assert (Hraw1 : streams w ∉ pipes w1').
  { rewrite Hp. intros Hin%Hpipes. lia. }
  destruct (runs_grows _ _ _ _ Hruns) as (_ & _ & _ & _ & _ & _ & Hnew & _).
  assert (Hraw2 : streams w ∉ pipes w2).
  { intros [Hin|Hge]%Hnew; [done|]. lia. }
  split; [done|]. unfold emitted. rewrite !decide_False by done.
  split; [by apply raw_events_none|]. apply raw_events_frames.
Qed.

End raw.

(** An instance: the script handed to messageStream is answered by a
    partial frame of three values and a success frame of one. *)
Lemma messageStream_whole_witness :
  ∃ w1,
    messageStream Sample.uuid_v1 Sample.JSON_stringify (ScriptText "g.V()")
      None None Sample.client = returns (0%nat, w1) ∧
    let w2 := performs Sample.uuid_v1 Sample.JSON_stringify
                [ socket_opens;
                  socket_delivers Run.three_values;
                  socket_delivers Sample.success ] w1 in
    emitted 0 w2
    = [ consumer_frame Run.three_values; consumer_frame Sample.success;
        consumer_end ] ∧
    frames_of (emitted 0 w2) = pushed 0 (trace w2) ∧
    values (emitted 0 w2) = [].
Proof.
  eexists. split; [vm_compute; reflexivity|].
  match goal with |- context [performs _ _ _ ?w] => set (world := w) end.
  cbv zeta.
  split; [vm_compute; reflexivity|].
  assert (Hstream :
    messageStream Sample.uuid_v1 Sample.JSON_stringify (ScriptText "g.V()")
      None None Sample.client = returns (0%nat, world))
    by (vm_compute; reflexivity).
  destruct (messageStream_whole Sample.uuid_v1 Sample.JSON_stringify _ _ _
              Sample.client 0%nat world
              (performs Sample.uuid_v1 Sample.JSON_stringify
                 [ socket_opens;
                   socket_delivers Run.three_values;
                   socket_delivers Sample.success ] world)
              (reachable_new _ _ None None Options.defaults) Hstream
              (runs_performs _ _ _ _))
    as (_ & _ & Hframes & Hvalues).
  split; [exact Hframes|exact Hvalues].
Defined.
